(** * Creative automation pipeline: image compositor and compliance checker

    A shallow embedding of [src/compositors/image_compositor.py] and
    [src/compliance/checker.py], followed by the properties of cropping,
    font sizing, contrast adaptation, text overlay and compliance screening
    that the design document states about them, and by further properties
    of the same code, of the data models of [src/models.py] and of the steps
    of [src/orchestrator.py] and [src/managers/asset_manager.py] that use
    them. *)

From stdpp Require Import gmap strings list pretty.
From Stdlib Require Import Ascii ZArith QArith Qpower Qround Qabs Qminmax Lqa Lia.
From Stdlib Require Floats Uint63.

Local Open Scope Z_scope.
Local Open Scope string_scope.

(** ** Python numbers

    A Python [int] is an integer of [Z]. A Python [float] is an IEEE 754
    binary64 number; it is represented here by the rational it denotes, and
    the result of every floating-point operation is the exact result rounded
    to the nearest number with a 53-bit significand, ties going to the even
    significand. The exponent range is not bounded: the quantities handled
    by the compositor (pixel counts below [2^31], ratios, opacities) are far
    from overflow and from the subnormal range. *)

Definition pow2 (z : Z) : Q := (2 ^ z)%Q.

(** [ilog2 a] is the binary exponent of [a > 0]: [2^e <= a < 2^(e+1)]. *)
Definition ilog2 (a : Q) : Z :=
  let t := Z.log2 (Qnum a) - Z.log2 (Zpos (Qden a)) in
  if Qle_bool (pow2 t) a then t else t - 1.

Definition round_half_even (q : Q) : Z :=
  let f := Qfloor q in
  match Qcompare (q - inject_Z f) (1 # 2) with
  | Lt => f
  | Gt => f + 1
  | Eq => if Z.even f then f else f + 1
  end.

Definition round_pos (a : Q) : Q :=
  let e := ilog2 a in
  (inject_Z (round_half_even (a * pow2 (52 - e))) * pow2 (e - 52))%Q.

(** Rounding to binary64. *)
Definition round64 (q : Q) : Q :=
  match Qcompare q 0 with
  | Eq => 0%Q
  | Gt => Qred (round_pos q)
  | Lt => Qred (- round_pos (- q))
  end.

(** Machine epsilon over two: the relative error of one rounding. *)
Definition eps64 : Q := pow2 (-53).

(** [float(n)], the conversion Python applies to an [int] operand of a
    mixed operation. *)
Definition float_of_int (n : Z) : Q := round64 (inject_Z n).

(** A decimal literal such as [0.3]. *)
Definition float_lit (q : Q) : Q := round64 q.

Definition fadd (x y : Q) : Q := round64 (x + y).
Definition fsub (x y : Q) : Q := round64 (x - y).
Definition fmul (x y : Q) : Q := round64 (x * y).
(** [x / y] for a divisor known to be non-zero. *)
Definition fdiv (x y : Q) : Q := round64 (x / y).

(** [int(x)]: truncation towards zero. *)
Definition int_of_float (x : Q) : Z :=
  if Qle_bool 0 x then Qfloor x else Qceiling x.

(** The two-argument [min] and [max]: the first argument is kept unless the
    second is strictly smaller (larger). *)
Definition py_min (x y : Q) : Q := if Qlt_le_dec y x then y else x.
Definition py_max (x y : Q) : Q := if Qlt_le_dec x y then y else x.

(** ** Exceptions *)

Inductive exn :=
  | ValueError (msg : string)
  | ZeroDivisionError
  | UnidentifiedImageError (path : string)
  | InvalidReference.

(** A computation that may raise: [inl e] is a raised exception. *)
Definition result (A : Type) : Type := (exn + A)%type.

Definition raise {A} (e : exn) : result A := inl e.

#[global] Instance result_ret : MRet result := fun _ x => inr x.
#[global] Instance result_bind : MBind result := fun _ _ f m =>
  match m with
  | inl e => inl e
  | inr x => f x
  end.

(** [a / b] on two [int]s (true division, correctly rounded). *)
Definition int_truediv (a b : Z) : result Q :=
  if decide (b = 0) then raise ZeroDivisionError
  else mret (round64 (inject_Z a / inject_Z b)).

(** [x / y] on floats. *)
Definition float_truediv (x y : Q) : result Q :=
  if Qeq_bool y 0 then raise ZeroDivisionError else mret (fdiv x y).

(** ** Images (Pillow)

    An image is its mode, its size and its pixel grid. *)

Definition pixel := list Z.

(** A box [(left, top, right, bottom)], and its components [b[0]] to
    [b[3]]. *)
Definition box := (Z * Z * Z * Z)%type.
Definition box0 (b : box) : Z := b.1.1.1.
Definition box1 (b : box) : Z := b.1.1.2.
Definition box2 (b : box) : Z := b.1.2.
Definition box3 (b : box) : Z := b.2.

Record image := Image {
  im_mode : string;
  im_width : Z;
  im_height : Z;
  im_pixels : Z -> Z -> pixel
}.

Definition im_size (im : image) : Z * Z := (im_width im, im_height im).

(** [Image.crop((left, top, right, bottom))]: a new image of size
    [(right - left, bottom - top)]; positions outside the source are blank. *)
Definition crop (im : image) (b : box) : image :=
  {| im_mode := im_mode im;
     im_width := box2 b - box0 b;
     im_height := box3 b - box1 b;
     im_pixels := fun x y =>
       if decide (0 <= box0 b + x < im_width im /\
                  0 <= box1 b + y < im_height im)
       then im_pixels im (box0 b + x) (box1 b + y)
       else [] |}.

(** ** ImageCompositor *)

Record ImageCompositor := {
  font_family : string;
  base_font_size : Z;
  text_color : string;
  text_position : string;
  padding : Z;
  background_opacity : Q
}.

Fixpoint dict_get {A} (d : list (string * A)) (k : string) : option A :=
  match d with
  | [] => None
  | (k', v) :: d' => if decide (k' = k) then Some v else dict_get d' k
  end.

(** The class constant [ASPECT_RATIOS = {"1:1": 1.0, "9:16": 9/16,
    "16:9": 16/9}], in insertion order; the two quotients are divisions of
    [int]s, rounded once. *)
Definition ASPECT_RATIOS : list (string * Q) :=
  [("1:1", float_lit 1);
   ("9:16", round64 (9 / 16));
   ("16:9", round64 (16 / 9))].

(** The part of [_smart_crop] before the call to [crop]: the crop dimensions
    [(new_width, new_height)], then the crop box [(left, top, right, bottom)]
    ([c_left] and so on below: [left] and [right] are taken in Rocq). *)
Definition _smart_crop_dims (img : image) (target_ratio : Q)
  : result (Z * Z) :=
  let img_width := im_width img in
  let img_height := im_height img in
  current_ratio ← int_truediv img_width img_height;
  if Qlt_le_dec target_ratio current_ratio then
    (* wider than the target: crop the width *)
    let new_width := int_of_float (fmul (float_of_int img_height) target_ratio) in
    let new_height := img_height in
    mret (new_width, new_height)
  else
    (* taller than the target: crop the height *)
    let new_width := img_width in
    q ← float_truediv (float_of_int img_width) target_ratio;
    let new_height := int_of_float q in
    mret (new_width, new_height).

Definition _smart_crop_box (img : image) (target_ratio : Q)
    (ratio_str : string) : result box :=
  let img_width := im_width img in
  let img_height := im_height img in
  '(new_width, new_height) ← _smart_crop_dims img target_ratio;
  let '(c_left, c_top) :=
    if decide (ratio_str = "1:1") then
      ((img_width - new_width) / 2, (img_height - new_height) / 2)
    else if decide (ratio_str = "9:16") then
      ((img_width - new_width) / 2,
       int_of_float (fmul (float_of_int (img_height - new_height))
                          (float_lit (3 # 10))))
    else if decide (ratio_str = "16:9") then
      ((img_width - new_width) / 2, (img_height - new_height) / 2)
    else
      ((img_width - new_width) / 2, (img_height - new_height) / 2) in
  let c_right := c_left + new_width in
  let c_bottom := c_top + new_height in
  mret (c_left, c_top, c_right, c_bottom).

(** The box [_smart_crop] computes ends at [left + new_width] and
    [top + new_height]: for an image, whose sides are not negative, and a
    positive ratio it is never inverted, and [Image.crop] does not refuse it
    (see [smart_crop_box_accepted] below). *)
Definition _smart_crop (img : image) (target_ratio : Q)
    (ratio_str : string) : result image :=
  b ← _smart_crop_box img target_ratio ratio_str;
  mret (crop img b).

(** The loop of [create_variants]: the first unsupported name raises, and
    with it the variants built so far are lost. *)
Fixpoint create_variants_loop (base_image : image) (aspect_ratios : list string)
    (variants : gmap string image) : result (gmap string image) :=
  match aspect_ratios with
  | [] => mret variants
  | ratio_str :: rest =>
      match dict_get ASPECT_RATIOS ratio_str with
      | None => raise (ValueError ("Unsupported aspect ratio: " +:+ ratio_str))
      | Some target_ratio =>
          cropped ← _smart_crop base_image target_ratio ratio_str;
          create_variants_loop base_image rest (<[ratio_str := cropped]> variants)
      end
  end.

Definition create_variants (base_image : image)
    (aspect_ratios : option (list string)) : result (gmap string image) :=
  let aspect_ratios :=
    match aspect_ratios with
    | None => ASPECT_RATIOS.*1
    | Some l => l
    end in
  create_variants_loop base_image aspect_ratios ∅.

(** [_calculate_font_size]: the width is not used. *)
Definition _calculate_font_size (self : ImageCompositor)
    (img_width img_height : Z) : Z :=
  let scale_factor := fdiv (float_of_int img_height) (float_lit 1000) in
  let scaled_size :=
    int_of_float (fmul (float_of_int (base_font_size self)) scale_factor) in
  Z.max 20 (Z.min scaled_size 120).

(** *** Pillow's rendering primitives

    Fonts, text measurement, rasterisation, mode conversion, compositing and
    region statistics belong to Pillow. They are parameters of the
    development: nothing is assumed about the pixels they produce or the
    numbers they measure. What Pillow checks before it runs them is written
    out where the compositor can reach it: the box of [Image.crop], the pixel
    count behind the mean of [ImageStat] and the precondition of
    [alpha_composite]. *)

Class Pillow := {
  font : Type;
  (** [ImageFont.truetype(path, size)]; [None] stands for [OSError]. *)
  truetype : string -> Z -> option font;
  (** [ImageFont.load_default()]. *)
  load_default : font;
  (** [draw.textbbox((0, 0), text, font=font)]. *)
  textbbox : string -> font -> box;
  (** [draw.multiline_textbbox((0, 0), text, font=font)]. *)
  multiline_textbbox : string -> font -> box;
  (** The pixels of an image after [draw.rectangle(box, fill=fill)]. *)
  rectangle_pixels : box -> pixel -> image -> Z -> Z -> pixel;
  (** The pixels of an image after
      [draw.multiline_text(xy, text, font=font, fill=fill, align='center')]. *)
  multiline_text_pixels :
    Z * Z -> string -> font -> string -> image -> Z -> Z -> pixel;
  (** The pixels of [im.convert(mode)]. *)
  convert_pixels : string -> image -> Z -> Z -> pixel;
  (** The pixels of [Image.alpha_composite(im1, im2)]. *)
  alpha_composite_pixels : image -> image -> Z -> Z -> pixel;
  (** [ImageStat.Stat(im).mean[0]]. *)
  stat_mean : image -> Q
}.

(** [im.convert(mode)]: a new image of the same size. *)
Definition convert `{Pillow} (mode : string) (im : image) : image :=
  {| im_mode := mode;
     im_width := im_width im;
     im_height := im_height im;
     im_pixels := convert_pixels mode im |}.

(** [Image.new(mode, size, color)]. *)
Definition image_new (mode : string) (size : Z * Z) (color : pixel) : image :=
  {| im_mode := mode;
     im_width := size.1;
     im_height := size.2;
     im_pixels := fun _ _ => color |}.

(** [Image.crop(box)] as Pillow runs it: a box whose right edge is less than
    its left one, or whose lower edge is less than its upper one, is refused
    with a [ValueError]. *)
Definition image_crop (im : image) (b : box) : result image :=
  if decide (box2 b < box0 b) then
    raise (ValueError "Coordinate 'right' is less than 'left'")
  else if decide (box3 b < box1 b) then
    raise (ValueError "Coordinate 'lower' is less than 'upper'")
  else mret (crop im b).

(** [ImageStat.Stat(im).mean[0]]: the sum of the pixel values divided by
    their count, a division by zero for an image without pixels. *)
Definition image_mean `{Pillow} (im : image) : result Q :=
  if decide (im_width im * im_height im = 0) then raise ZeroDivisionError
  else mret (stat_mean im).

(** The first half of [_ensure_contrast]: the mean brightness of the text
    region. The region is cropped and converted to grayscale in temporaries
    that no one else holds. *)
Definition region_brightness `{Pillow} (img : image) (text_region : box)
  : result Q :=
  region ← image_crop img text_region;
  let region :=
    if decide (im_mode region = "L") then region else convert "L" region in
  image_mean region.

Definition _ensure_contrast `{Pillow} (self : ImageCompositor) (img : image)
    (text_region : box) : result Q :=
  avg_brightness ← region_brightness img text_region;
  let adjusted_opacity :=
    if Qlt_le_dec 180 avg_brightness then
      py_min (fadd (background_opacity self) (float_lit (3 # 10)))
             (float_lit (9 # 10))
    else if Qlt_le_dec 120 avg_brightness then
      py_min (fadd (background_opacity self) (float_lit (15 # 100)))
             (float_lit (8 # 10))
    else if Qlt_le_dec avg_brightness 60 then
      py_max (fsub (background_opacity self) (float_lit (2 # 10)))
             (float_lit (3 # 10))
    else
      background_opacity self in
  mret adjusted_opacity.

Definition common_fonts : list string :=
  ["/System/Library/Fonts/Helvetica.ttc";
   "/usr/share/fonts/truetype/dejavu/DejaVuSans.ttf";
   "C:\Windows\Fonts\arial.ttf";
   "Arial.ttf";
   "Helvetica.ttf"].

(** The first font of the list that loads, if any. *)
Fixpoint first_truetype `{Pillow} (paths : list string) (font_size : Z)
  : option font :=
  match paths with
  | [] => None
  | font_path :: rest =>
      match truetype font_path font_size with
      | Some f => Some f
      | None => first_truetype rest font_size
      end
  end.

Definition _load_font `{Pillow} (self : ImageCompositor) (font_size : Z)
  : font :=
  match truetype (font_family self) font_size with
  | Some f => f
  | None =>
      match first_truetype common_fonts font_size with
      | Some f => f
      | None => load_default
      end
  end.

(** [str.split()]: the maximal runs of characters that are not white space. *)
Definition is_space (c : ascii) : bool :=
  let n := N_of_ascii c in
  ((9 <=? n) && (n <=? 13) || (28 <=? n) && (n <=? 32))%N.

Fixpoint split_ws (s : string) (cur : string) : list string :=
  match s with
  | EmptyString => if decide (cur = "") then [] else [cur]
  | String c s' =>
      if is_space c then
        if decide (cur = "") then split_ws s' "" else cur :: split_ws s' ""
      else split_ws s' (cur +:+ String c "")
  end.

Definition py_split (s : string) : list string := split_ws s "".

Definition newline : string := String (ascii_of_nat 10) "".

(** The loop of [_wrap_text], with its two accumulators. *)
Fixpoint wrap_loop `{Pillow} (f : font) (max_width : Z) (words : list string)
    (lines current_line : list string) : list string * list string :=
  match words with
  | [] => (lines, current_line)
  | word :: rest =>
      let test_line := String.concat " " (current_line ++ [word])%list in
      let bbox := textbbox test_line f in
      let width := box2 bbox - box0 bbox in
      if decide (width <= max_width) then
        wrap_loop f max_width rest lines (current_line ++ [word])%list
      else
        let lines :=
          match current_line with
          | [] => lines
          | _ => (lines ++ [String.concat " " current_line])%list
          end in
        wrap_loop f max_width rest lines [word]
  end.

Definition _wrap_text `{Pillow} (text : string) (f : font) (max_width : Z)
  : string :=
  let words := py_split text in
  let '(lines, current_line) := wrap_loop f max_width words [] [] in
  let lines :=
    match current_line with
    | [] => lines
    | _ => (lines ++ [String.concat " " current_line])%list
    end in
  String.concat newline lines.

(** *** The object store

    Pillow images are mutable objects: drawing writes into the image a
    [Draw] object was made for. The overlay operations are therefore run on a
    store of images addressed by references. *)

Abbreviation ref := positive (only parsing).
Abbreviation heap := (gmap positive image) (only parsing).

Definition M (A : Type) : Type := heap -> result A * heap.

#[global] Instance M_ret : MRet M := fun _ x h => (inr x, h).
#[global] Instance M_bind : MBind M := fun _ _ f m h =>
  match m h with
  | (inl e, h') => (inl e, h')
  | (inr x, h') => f x h'
  end.

Definition M_raise {A} (e : exn) : M A := fun h => (inl e, h).

(** A computation that does not touch the store. *)
Definition M_lift {A} (r : result A) : M A := fun h => (r, h).

(** A new object, at a reference not in use. *)
Definition alloc (im : image) : M ref := fun h =>
  let r := fresh (dom h) in (inr r, <[r := im]> h).

Definition deref (r : ref) : M image := fun h =>
  match h !! r with
  | Some im => (inr im, h)
  | None => (inl InvalidReference, h)
  end.

(** In-place update of the pixels of the object at [r]. *)
Definition set_pixels (r : ref) (px : Z -> Z -> pixel) : M unit := fun h =>
  match h !! r with
  | Some im =>
      (inr (),
       <[r := {| im_mode := im_mode im; im_width := im_width im;
                 im_height := im_height im; im_pixels := px |}]> h)
  | None => (inl InvalidReference, h)
  end.

(** [image.copy()]. *)
Definition image_copy (r : ref) : M ref :=
  im ← deref r; alloc im.

(** [draw.rectangle] on the image the [Draw] object is bound to. *)
Definition draw_rectangle `{Pillow} (r : ref) (b : box) (fill : pixel)
  : M unit :=
  im ← deref r; set_pixels r (rectangle_pixels b fill im).

(** [draw.multiline_text] on the image the [Draw] object is bound to. *)
Definition draw_multiline_text `{Pillow} (r : ref) (xy : Z * Z)
    (text : string) (f : font) (fill : string) : M unit :=
  im ← deref r; set_pixels r (multiline_text_pixels xy text f fill im).

(** [Image.alpha_composite(im1, im2)]: both images must be RGBA and of the
    same size; the result is a new image. *)
Definition alpha_composite `{Pillow} (r1 r2 : ref) : M ref :=
  im1 ← deref r1;
  im2 ← deref r2;
  if decide (im_mode im1 = "RGBA" /\ im_mode im2 = "RGBA" /\
             im_size im1 = im_size im2) then
    alloc {| im_mode := "RGBA"; im_width := im_width im1;
             im_height := im_height im1;
             im_pixels := alpha_composite_pixels im1 im2 |}
  else M_raise (ValueError "images do not match").

(** Python truthiness of an optional string: [None] and [""] are false. *)
Definition or_default (position : option string) (default : string) : string :=
  match position with
  | Some p => if decide (p = "") then default else p
  | None => default
  end.

(** The vertical anchor shared by both overlay operations. *)
Definition anchor_y (self : ImageCompositor) (pos : string)
    (img_height text_height : Z) : Z :=
  if decide (pos = "bottom") then img_height - text_height - padding self * 2
  else if decide (pos = "top") then padding self * 2
  else (img_height - text_height) / 2.

Definition add_text_overlay `{Pillow} (self : ImageCompositor) (image : ref)
    (text : string) (position : option string) : M ref :=
  img_copy ← image_copy image;
  let pos := or_default position (text_position self) in
  im ← deref img_copy;
  let img_width := im_width im in
  let img_height := im_height im in
  let scaled_font_size := _calculate_font_size self img_width img_height in
  let f := _load_font self scaled_font_size in
  let wrapped_text := _wrap_text text f (img_width - padding self * 2) in
  let bbox := multiline_textbbox wrapped_text f in
  let text_width := box2 bbox - box0 bbox in
  let text_height := box3 bbox - box1 bbox in
  let text_x := (img_width - text_width) / 2 in
  let text_y := anchor_y self pos img_height text_height in
  overlay ← alloc (image_new "RGBA" (im_size im) [0; 0; 0; 0]);
  let bg_padding := padding self in
  let bg_left := text_x - bg_padding in
  let bg_top := text_y - bg_padding in
  let bg_right := text_x + text_width + bg_padding in
  let bg_bottom := text_y + text_height + bg_padding in
  let bg_alpha :=
    int_of_float (fmul (background_opacity self) (float_of_int 255)) in
  _ ← draw_rectangle overlay (bg_left, bg_top, bg_right, bg_bottom)
        [0; 0; 0; bg_alpha];
  img_copy ← (if decide (im_mode im = "RGBA") then mret img_copy
              else alloc (convert "RGBA" im));
  img_copy ← alpha_composite img_copy overlay;
  _ ← draw_multiline_text img_copy (text_x, text_y) wrapped_text f
        (text_color self);
  mret img_copy.

Definition add_text_overlay_with_contrast `{Pillow} (self : ImageCompositor)
    (image : ref) (text : string) (position : option string) : M ref :=
  img_copy ← image_copy image;
  let pos := or_default position (text_position self) in
  im ← deref img_copy;
  let img_width := im_width im in
  let img_height := im_height im in
  let scaled_font_size := _calculate_font_size self img_width img_height in
  let f := _load_font self scaled_font_size in
  let wrapped_text := _wrap_text text f (img_width - padding self * 2) in
  let bbox := multiline_textbbox wrapped_text f in
  let text_width := box2 bbox - box0 bbox in
  let text_height := box3 bbox - box1 bbox in
  let text_x := (img_width - text_width) / 2 in
  let text_y := anchor_y self pos img_height text_height in
  let bg_padding := padding self in
  let text_region :=
    (Z.max 0 (text_x - bg_padding),
     Z.max 0 (text_y - bg_padding),
     Z.min img_width (text_x + text_width + bg_padding),
     Z.min img_height (text_y + text_height + bg_padding)) in
  adjusted_opacity ← M_lift (_ensure_contrast self im text_region);
  overlay ← alloc (image_new "RGBA" (im_size im) [0; 0; 0; 0]);
  let bg_left := text_x - bg_padding in
  let bg_top := text_y - bg_padding in
  let bg_right := text_x + text_width + bg_padding in
  let bg_bottom := text_y + text_height + bg_padding in
  let bg_alpha := int_of_float (fmul adjusted_opacity (float_of_int 255)) in
  _ ← draw_rectangle overlay (bg_left, bg_top, bg_right, bg_bottom)
        [0; 0; 0; bg_alpha];
  img_copy ← (if decide (im_mode im = "RGBA") then mret img_copy
              else alloc (convert "RGBA" im));
  img_copy ← alpha_composite img_copy overlay;
  _ ← draw_multiline_text img_copy (text_x, text_y) wrapped_text f
        (text_color self);
  mret img_copy.

(** ** Compliance checker *)

Record ComplianceResult := {
  passed : bool;
  details : string;
  violations : list string
}.

(** *** Colour matching

    [_color_match] and the formatting of [_analyze_colors], over hex colours
    written in ASCII. *)

Module Colors.

(** [s.lstrip('#')]. *)
Fixpoint lstrip_hash (s : string) : string :=
  match s with
  | EmptyString => s
  | String c s' => if decide (c = "#"%char) then lstrip_hash s' else s
  end.

(** The slice [s[i:i+2]]: short when [s] ends before [i + 2]. *)
Definition slice2 (s : string) (i : nat) : string := String.substring i 2 s.

Definition hex_digit (c : ascii) : option Z :=
  let n := Z.of_N (N_of_ascii c) in
  if ((48 <=? n) && (n <=? 57))%Z then Some (n - 48)
  else if ((97 <=? n) && (n <=? 102))%Z then Some (n - 87)
  else if ((65 <=? n) && (n <=? 70))%Z then Some (n - 55)
  else None.

(** The white space [int] strips at both ends of a literal. *)
Definition is_c_space (c : ascii) : bool :=
  let n := N_of_ascii c in
  ((9 <=? n) && (n <=? 13) || (n =? 32))%N.

Fixpoint lstrip_space (s : string) : string :=
  match s with
  | EmptyString => s
  | String c s' => if is_c_space c then lstrip_space s' else s
  end.

Definition strip_space (s : string) : string :=
  String.rev (lstrip_space (String.rev (lstrip_space s))).

(** The digits of a literal: hexadecimal digits, with single underscores
    allowed between two digits. *)
Fixpoint hex_digits (s : string) (acc : Z) (after_digit : bool) : option Z :=
  match s with
  | EmptyString => if after_digit then Some acc else None
  | String c s' =>
      match hex_digit c with
      | Some d => hex_digits s' (16 * acc + d) true
      | None =>
          if decide (c = "_"%char) then
            if after_digit then hex_digits s' acc false else None
          else None
      end
  end.

(** [repr(s)] of a string: single quotes, unless the string holds one and
    no double quote; the quote in use and the backslash are escaped, and so
    are the control characters. *)
Definition double_quote : ascii := ascii_of_nat 34.

Fixpoint has_char (c : ascii) (s : string) : bool :=
  match s with
  | EmptyString => false
  | String d s' => bool_decide (c = d) || has_char c s'
  end.

Definition hex_char (d : Z) : ascii :=
  ascii_of_N (Z.to_N (if (d <? 10)%Z then 48 + d else 87 + d)).

Definition repr_char (quote c : ascii) : string :=
  let n := Z.of_N (N_of_ascii c) in
  if decide (c = quote \/ c = "\"%char) then String "\" (String c "")
  else if decide (n = 9) then "\t"
  else if decide (n = 10) then "\n"
  else if decide (n = 13) then "\r"
  else if decide (n < 32 \/ n = 127) then
    "\x" +:+ String (hex_char (n / 16)) (String (hex_char (n mod 16)) "")
  else String c "".

Fixpoint repr_body (quote : ascii) (s : string) : string :=
  match s with
  | EmptyString => EmptyString
  | String c s' => repr_char quote c +:+ repr_body quote s'
  end.

Definition py_repr (s : string) : string :=
  let quote :=
    if has_char "'"%char s && negb (has_char double_quote s)
    then double_quote else "'"%char in
  String quote (repr_body quote s +:+ String quote "").

(** The [ValueError] of [int(s, 16)]; the literal is quoted with at most
    200 characters of its [repr]. *)
Definition invalid_literal (s : string) : exn :=
  ValueError ("invalid literal for int() with base 16: " +:+
              String.substring 0 200 (py_repr s)).

(** [int(s, 16)]: white space is stripped, then come an optional sign, an
    optional prefix [0x] (which one underscore may follow) and the
    digits. *)
Definition int16 (s : string) : result Z :=
  let body := strip_space s in
  let '(negative, body) :=
    match body with
    | String c rest =>
        if decide (c = "+"%char) then (false, rest)
        else if decide (c = "-"%char) then (true, rest)
        else (false, body)
    | EmptyString => (false, body)
    end in
  let body :=
    match body with
    | String c0 (String c1 rest) =>
        if decide (c0 = "0"%char /\ (c1 = "x"%char \/ c1 = "X"%char)) then
          match rest with
          | String c2 rest' => if decide (c2 = "_"%char) then rest' else rest
          | EmptyString => rest
          end
        else body
    | _ => body
    end in
  match hex_digits body 0 false with
  | Some n => mret (if negative : bool then - n else n)
  | None => raise (invalid_literal s)
  end.

(** [tuple(int(color.lstrip('#')[i:i+2], 16) for i in (0, 2, 4))]. *)
Definition hex_to_rgb (color : string) : result (Z * Z * Z) :=
  let digits := lstrip_hash color in
  r ← int16 (slice2 digits 0);
  g ← int16 (slice2 digits 2);
  b ← int16 (slice2 digits 4);
  mret (r, g, b).

(** [np.sqrt(n)] of an [int]: the binary64 square root of [float(n)],
    correctly rounded. The root is computed to 53 binary places; when it is
    not exact, half a unit of the last place is added, which leaves the
    rounding to 53 significant bits as it is for the true root. *)
Definition np_sqrt (n : Z) : Q :=
  let x := Qfloor (float_of_int n) in
  if (x <=? 0)%Z then 0%Q
  else
    let s := Z.sqrt (x * 4 ^ 53) in
    if (s * s =? x * 4 ^ 53)%Z then round64 (inject_Z s / inject_Z (2 ^ 53))
    else round64 (inject_Z (2 * s + 1) / inject_Z (2 ^ 54)).

Definition _color_match (color1 color2 : string) (tolerance : Z)
  : result bool :=
  rgb1 ← hex_to_rgb color1;
  rgb2 ← hex_to_rgb color2;
  let '(r1, g1, b1) := rgb1 in
  let '(r2, g2, b2) := rgb2 in
  let distance :=
    np_sqrt ((r1 - r2) ^ 2 + (g1 - g2) ^ 2 + (b1 - b2) ^ 2) in
  mret (Qle_bool distance (float_of_int tolerance)).

(** [format(n, 'x')] for [n >= 0]. *)
Fixpoint hex_go (fuel : nat) (n : Z) (acc : string) : string :=
  let acc := String (hex_char (n mod 16)) acc in
  if (n <? 16)%Z then acc
  else
    match fuel with
    | O => acc
    | S fuel' => hex_go fuel' (n / 16) acc
    end.

Definition hex_of (n : Z) : string := hex_go (Z.to_nat (Z.log2 n)) n "".

(** ['{:02x}'.format(n)]: at least two characters, the sign included. *)
Definition format_02x (n : Z) : string :=
  if (n <? 0)%Z then "-" +:+ hex_of (- n)
  else
    let s := hex_of n in
    if (String.length s <? 2)%nat then "0" +:+ s else s.

Definition upper_char (c : ascii) : ascii :=
  let n := N_of_ascii c in
  if ((97 <=? n) && (n <=? 122))%N then ascii_of_N (n - 32) else c.

Fixpoint upper (s : string) : string :=
  match s with
  | EmptyString => EmptyString
  | String c s' => String (upper_char c) (upper s')
  end.

(** The colour [_analyze_colors] reports for one cluster centre. *)
Definition hex_color (center : Q * Q * Q) : string :=
  let '(c0, c1, c2) := center in
  upper ("#" +:+ format_02x (int_of_float c0) +:+
                 format_02x (int_of_float c1) +:+
                 format_02x (int_of_float c2)).

(** The clustering of [_analyze_colors] is scikit-learn's: the centres of
    [KMeans(n_clusters=5, random_state=42, n_init=10)] fitted on the pixels
    of the RGB thumbnail of the image. The fit may raise, as it does on an
    image of fewer than five pixels. *)
Class Clustering := {
  cluster_centers : image -> result (list (Q * Q * Q))
}.

Definition _analyze_colors `{Clustering} (img : image)
  : result (list string) :=
  centers ← cluster_centers img;
  mret (hex_color <$> centers).

(** [any(self._color_match(color, brand_color) for color in colors_present
    for brand_color in brand_colors)], with the default tolerance of 30: the
    pairs are tried in order until one matches, and a colour that does not
    parse raises when its pair is reached. *)
Fixpoint any_brand_color (color : string) (brand_colors : list string)
  : result bool :=
  match brand_colors with
  | [] => mret false
  | brand_color :: rest =>
      found ← _color_match color brand_color 30;
      if found : bool then mret true else any_brand_color color rest
  end.

Fixpoint any_color_match (colors_present brand_colors : list string)
  : result bool :=
  match colors_present with
  | [] => mret false
  | color :: rest =>
      found ← any_brand_color color brand_colors;
      if found : bool then mret true else any_color_match rest brand_colors
  end.

End Colors.

(** *** Brand compliance

    OpenCV's template matching is a parameter. The colour sub-check runs
    [_analyze_colors] and [_color_match] as modelled above: the clustering
    may raise, and so does a colour that does not parse. *)

Class Vision := {
  array : Type;
  (** [cv2.cvtColor(np.array(img), cv2.COLOR_RGB2BGR)]. *)
  bgr_array : image -> array;
  (** The [max_val] of [cv2.minMaxLoc(cv2.matchTemplate(img, template,
      cv2.TM_CCOEFF_NORMED))]. *)
  match_template_max : array -> array -> Q
}.

(** What a path of the file system leads to. *)
Inductive file_state :=
  | NoFile
  | ImageFile (im : image)
  | OtherFile.

Definition filesystem := string -> file_state.

Record BrandConfig `{Vision} := {
  logo_template_path : option string;
  brand_colors : list string;
  min_logo_confidence : Q;
  _logo_template : option array
}.

(** Python truthiness of the optional path: [None] and [""] are false. *)
Definition path_set `{Vision} (self : BrandConfig) : option string :=
  match logo_template_path self with
  | Some p => if decide (p = "") then None else Some p
  | None => None
  end.

Definition set_logo_template `{Vision} (self : BrandConfig)
    (t : option array) : BrandConfig :=
  {| logo_template_path := logo_template_path self;
     brand_colors := brand_colors self;
     min_logo_confidence := min_logo_confidence self;
     _logo_template := t |}.

(** [load_logo_template]: the template is read once and cached in the
    configuration; a path that does not exist leaves the cache empty, and a
    file that is not an image makes [Image.open] raise. *)
Definition load_logo_template `{Vision} (fs : filesystem) (self : BrandConfig)
  : result (option array * BrandConfig) :=
  match _logo_template self, path_set self with
  | None, Some p =>
      match fs p with
      | NoFile => mret (None, self)
      | ImageFile template_img =>
          let t := Some (bgr_array template_img) in
          mret (t, set_logo_template self t)
      | OtherFile => raise (UnidentifiedImageError p)
      end
  | cached, _ => mret (cached, self)
  end.

Definition _detect_logo `{Vision} (fs : filesystem) (self : BrandConfig)
    (img : image) : result (bool * BrandConfig) :=
  match path_set self with
  | None => mret (false, self)
  | Some _ =>
      '(template, self) ← load_logo_template fs self;
      match template with
      | None => mret (false, self)
      | Some template =>
          let img_cv := bgr_array img in
          let max_val := match_template_max img_cv template in
          mret (Qle_bool (min_logo_confidence self) max_val, self)
      end
  end.

Definition check_brand_compliance `{Vision} `{Colors.Clustering}
    (fs : filesystem) (brand_config : BrandConfig) (img : image)
  : result (ComplianceResult * BrandConfig) :=
  let violations : list string := [] in
  let details_parts : list string := [] in
  '(logo_detected, brand_config) ← _detect_logo fs brand_config img;
  let logo_detected : bool := logo_detected in
  let '(violations, details_parts) :=
    match path_set brand_config with
    | Some _ =>
        if logo_detected then
          (violations, details_parts ++ ["Logo detected in image"])%list
        else
          (violations ++ ["Brand logo not detected in image"],
           details_parts ++ ["Logo detection failed"])%list
    | None => (violations, details_parts)
    end in
  '(violations, details_parts) ←
    match brand_colors brand_config with
    | _ :: _ =>
        colors_present ← Colors._analyze_colors img;
        brand_colors_found ←
          Colors.any_color_match colors_present (brand_colors brand_config);
        mret
          (if brand_colors_found : bool then
             (violations,
              details_parts ++
                ["Brand colors detected: " +:+
                   String.concat ", " (brand_colors brand_config)])%list
           else
             (violations ++
                ["Brand colors not found. Expected: " +:+
                   String.concat ", " (brand_colors brand_config)],
              details_parts ++ ["Brand color validation failed"])%list)
    | [] => mret (violations, details_parts)
    end;
  let passed := bool_decide (length violations = 0%nat) in
  let details :=
    match details_parts with
    | _ :: _ => String.concat "; " details_parts
    | [] => "No brand compliance checks configured"
    end in
  mret ({| passed := passed; details := details; violations := violations |},
        brand_config).

(** The configuration a call of [check_brand_compliance] leaves behind when
    it raises: the logo sub-check may have filled the template cache before
    the colour sub-check raised. *)
Definition config_after_raise `{Vision} (fs : filesystem)
    (brand_config : BrandConfig) (img : image) : BrandConfig :=
  match _detect_logo fs brand_config img with
  | inr (_, brand_config) => brand_config
  | inl _ => brand_config
  end.

(** *** Legal compliance

    A Python [str] is represented by its UTF-8 encoding, as the string
    literals of this file are: an ASCII character is one byte, any other
    character a lead byte followed by continuation bytes. Outside ASCII,
    [str.lower] and the word characters of [\b] follow the Unicode character
    database, which is a parameter: nothing is assumed about it. *)

Class Unicode := {
  (** [s.lower()] of a string that is not pure ASCII. *)
  unicode_lower : string -> string;
  (** [c.isalnum()] of a character outside ASCII, given by its bytes. *)
  unicode_alnum : string -> bool
}.

Record LegalConfig := {
  prohibited_words : list string;
  severity_levels : gmap string string
}.

Definition is_ascii_char (c : ascii) : bool := (N_of_ascii c <? 128)%N.

(** [s.isascii()]. *)
Fixpoint is_ascii (s : string) : bool :=
  match s with
  | EmptyString => true
  | String c s' => is_ascii_char c && is_ascii s'
  end.

Definition lower_char (c : ascii) : ascii :=
  let n := N_of_ascii c in
  if ((65 <=? n) && (n <=? 90))%N then ascii_of_N (n + 32) else c.

(** [s.lower()] of an ASCII string: [A-Z] go to [a-z]. *)
Fixpoint lower_ascii (s : string) : string :=
  match s with
  | EmptyString => EmptyString
  | String c s' => String (lower_char c) (lower_ascii s')
  end.

(** [s.lower()]. *)
Definition lower `{Unicode} (s : string) : string :=
  if is_ascii s then lower_ascii s else unicode_lower s.

(** The characters of a string, each with the bytes that encode it: a byte
    that is not a continuation byte starts a character. *)
Definition is_continuation (c : ascii) : bool :=
  let n := N_of_ascii c in ((128 <=? n) && (n <? 192))%N.

Definition starts_with_continuation (ch : string) : bool :=
  match ch with
  | EmptyString => false
  | String c _ => is_continuation c
  end.

Fixpoint chars (s : string) : list string :=
  match s with
  | EmptyString => []
  | String c s' =>
      match chars s' with
      | ch :: rest =>
          if starts_with_continuation ch then String c ch :: rest
          else String c "" :: ch :: rest
      | [] => [String c ""]
      end
  end.

(** The ASCII word characters: letters, digits and the underscore. *)
Definition is_ascii_word (c : ascii) : bool :=
  let n := N_of_ascii c in
  ((48 <=? n) && (n <=? 57) || (65 <=? n) && (n <=? 90) ||
   (97 <=? n) && (n <=? 122) || (n =? 95))%N.

(** The word characters of [\b] in a [str] pattern: the alphanumeric
    characters and the underscore. *)
Definition is_word_char `{Unicode} (ch : string) : bool :=
  match ch with
  | String c EmptyString =>
      if is_ascii_char c then is_ascii_word c else unicode_alnum ch
  | _ => unicode_alnum ch
  end.

Definition word_at `{Unicode} (ch : option string) : bool :=
  match ch with
  | Some ch => is_word_char ch
  | None => false
  end.

(** [\b] at a position, given the characters on its two sides ([None] at
    either end of the text). *)
Definition boundary `{Unicode} (before after : option string) : bool :=
  xorb (word_at before) (word_at after).

Definition head_char (s : list string) : option string :=
  match s with
  | [] => None
  | ch :: _ => Some ch
  end.

(** The escaped word matched literally at the start of [s]: the last
    character consumed and the rest of [s]. *)
Fixpoint match_literal (lit s : list string) (prev : option string)
  : option (option string * list string) :=
  match lit with
  | [] => Some (prev, s)
  | c :: lit' =>
      match s with
      | [] => None
      | d :: s' =>
          if decide (c = d) then match_literal lit' s' (Some c) else None
      end
  end.

(** The pattern [\b word \b] matched at the current position. *)
Definition match_here `{Unicode} (lit : list string) (prev : option string)
    (s : list string) : bool :=
  boundary prev (head_char s) &&
  match match_literal lit s prev with
  | Some (last_char, rest) => boundary last_char (head_char rest)
  | None => false
  end.

Fixpoint search_from `{Unicode} (lit : list string) (prev : option string)
    (s : list string) : bool :=
  match_here lit prev s ||
  match s with
  | [] => false
  | c :: s' => search_from lit (Some c) s'
  end.

(** [re.search(r'\b' + re.escape(word) + r'\b', text)] finds a match. *)
Definition re_search_word `{Unicode} (word text : string) : bool :=
  search_from (chars word) None (chars text).

Definition violation_msg (legal_config : LegalConfig) (word : string)
  : string :=
  let severity := default "warning" (severity_levels legal_config !! word) in
  "Prohibited word '" +:+ word +:+ "' found (severity: " +:+ severity +:+ ")".

(** The loop over the prohibited words, appending to [violations]. *)
Fixpoint legal_loop `{Unicode} (legal_config : LegalConfig)
    (text_lower : string) (words : list string) (violations : list string)
  : list string :=
  match words with
  | [] => violations
  | word :: rest =>
      if re_search_word (lower word) text_lower then
        legal_loop legal_config text_lower rest
                   (violations ++ [violation_msg legal_config word])%list
      else legal_loop legal_config text_lower rest violations
  end.

Definition check_legal_compliance `{Unicode} (legal_config : LegalConfig)
    (text : string) : ComplianceResult :=
  match prohibited_words legal_config with
  | [] =>
      {| passed := true;
         details := "No prohibited words configured";
         violations := [] |}
  | _ :: _ =>
      let text_lower := lower text in
      let violations :=
        legal_loop legal_config text_lower (prohibited_words legal_config) [] in
      match violations with
      | _ :: _ =>
          {| passed := false;
             details := "Found " +:+ pretty (length violations) +:+
                        " prohibited term(s)";
             violations := violations |}
      | [] =>
          {| passed := true;
             details := "No prohibited terms found (checked " +:+
                        pretty (length (prohibited_words legal_config)) +:+
                        " terms)";
             violations := violations |}
      end
  end.

(** ** Data models ([src/models.py])

    The fields have the types the dataclasses declare; an empty string is
    the false value the validations test for. *)

Module Product.

Record t := {
  product_id : string;
  name : string;
  description : option string
}.

Definition validate (self : t) : result unit :=
  if decide (product_id self = "") then
    raise (ValueError "Product product_id is required")
  else if decide (name self = "") then
    raise (ValueError "Product name is required")
  else mret ().

End Product.

Module Localization.

Record t := {
  language : string;
  region_specific_message : option string
}.

Definition validate (self : t) : result unit :=
  if decide (language self = "") then
    raise (ValueError "Localization language is required")
  else mret ().

End Localization.

Module CampaignBrief.

Record t := {
  campaign_id : string;
  products : list Product.t;
  target_region : string;
  target_audience : string;
  campaign_message : string;
  localization : option Localization.t
}.

(** The loop [for product in self.products: product.validate()]. *)
Fixpoint validate_products (products : list Product.t) : result unit :=
  match products with
  | [] => mret ()
  | product :: rest =>
      _ ← Product.validate product; validate_products rest
  end.

Definition validate (self : t) : result unit :=
  if decide (campaign_id self = "") then
    raise (ValueError "campaign_id is required")
  else if decide (products self = []) then
    raise (ValueError "At least one product is required")
  else if decide (target_region self = "") then
    raise (ValueError "target_region is required")
  else if decide (target_audience self = "") then
    raise (ValueError "target_audience is required")
  else if decide (campaign_message self = "") then
    raise (ValueError "campaign_message is required")
  else
    _ ← validate_products (products self);
    match localization self with
    | Some loc => Localization.validate loc
    | None => mret ()
    end.

End CampaignBrief.

(** ** Orchestrator ([src/orchestrator.py])

    The steps of the orchestrator that decide something about the brief,
    the overlay text and the compliance status; logging is left out. *)

Module Orchestrator.

(** [_validate_brief]: a [ValueError] of the validation is caught and
    answered [False]. *)
Definition _validate_brief (brief : CampaignBrief.t) : result bool :=
  match CampaignBrief.validate brief with
  | inr _ =>
      if decide (length (CampaignBrief.products brief) = 0%nat) then mret false
      else mret true
  | inl (ValueError _) => mret false
  | inl e => raise e
  end.

(** Step 3 of [_process_product]: the text to overlay is the campaign
    message, unless the localization carries a message that is not empty. *)
Definition overlay_message (brief : CampaignBrief.t) : string :=
  let campaign_message := CampaignBrief.campaign_message brief in
  match CampaignBrief.localization brief with
  | Some loc =>
      match Localization.region_specific_message loc with
      | Some message => if decide (message = "") then campaign_message
                        else message
      | None => campaign_message
      end
  | None => campaign_message
  end.

Record ComplianceChecker `{Vision} := {
  brand_config : BrandConfig;
  legal_config : LegalConfig
}.

(** Step 5 of [_process_product]: the compliance status of one final image.
    The brand result is completed in place with the violations of the legal
    check when that check fails; any exception leaves the status at [None].
    The checker is returned with its brand configuration, whose template
    cache the check may have filled. *)
Definition compliance_step `{Vision} `{Colors.Clustering} `{Unicode}
    (fs : filesystem) (compliance_checker : option ComplianceChecker)
    (final_image : image) (campaign_message : string)
  : option ComplianceResult * option ComplianceChecker :=
  match compliance_checker with
  | None => (None, None)
  | Some checker =>
      match check_brand_compliance fs (brand_config checker) final_image with
      | inl _ =>
          let checker :=
            {| brand_config :=
                 config_after_raise fs (brand_config checker) final_image;
               legal_config := legal_config checker |} in
          (None, Some checker)
      | inr (compliance_status, brand_config') =>
          let checker :=
            {| brand_config := brand_config';
               legal_config := legal_config checker |} in
          let legal_status :=
            check_legal_compliance (legal_config checker) campaign_message in
          let compliance_status :=
            if passed legal_status then compliance_status
            else
              {| passed := false;
                 details := details compliance_status;
                 violations := (violations compliance_status ++
                                violations legal_status)%list |} in
          (Some compliance_status, Some checker)
      end
  end.

End Orchestrator.

(** ** Asset manager ([src/managers/asset_manager.py]) *)

(** [str.replace(':', 'x')]. *)
Fixpoint replace_colon (s : string) : string :=
  match s with
  | EmptyString => EmptyString
  | String c s' =>
      String (if decide (c = ":"%char) then "x"%char else c) (replace_colon s')
  end.

Module AssetManager.

Definition _generate_filename `{Unicode} (product_id aspect_ratio : string)
  : string :=
  let normalized_ratio := lower (replace_colon aspect_ratio) in
  normalized_ratio +:+ "_" +:+ product_id +:+ ".png".

End AssetManager.

(** ** Notions used by the statements *)

(** The scaled size before truncation,
    [base_font_size * (img_height / 1000.0)]. *)
Definition scaled_font (self : ImageCompositor) (img_height : Z) : Q :=
  fmul (float_of_int (base_font_size self))
       (fdiv (float_of_int img_height) (float_lit 1000)).

(** The violations of the colour sub-check of [check_brand_compliance],
    when that sub-check returns. *)
Definition color_violations `{Vision} `{Colors.Clustering}
    (brand_config : BrandConfig) (img : image) : result (list string) :=
  match brand_colors brand_config with
  | [] => mret []
  | _ :: _ =>
      colors_present ← Colors._analyze_colors img;
      brand_colors_found ←
        Colors.any_color_match colors_present (brand_colors brand_config);
      mret (if brand_colors_found : bool then []
            else ["Brand colors not found. Expected: " +:+
                    String.concat ", " (brand_colors brand_config)])
  end.

(** The configuration with its logo path removed. *)
Definition without_logo `{Vision} (brand_config : BrandConfig) : BrandConfig :=
  {| logo_template_path := None;
     brand_colors := brand_colors brand_config;
     min_logo_confidence := min_logo_confidence brand_config;
     _logo_template := _logo_template brand_config |}.

(** The supported ratio names, and the ratio each one stands for. *)
Definition nominal_ratio (ratio_str : string) : option Q :=
  if decide (ratio_str = "1:1") then Some 1%Q
  else if decide (ratio_str = "9:16") then Some (9 # 16)%Q
  else if decide (ratio_str = "16:9") then Some (16 # 9)%Q
  else None.

(** The nominal value of a supported ratio and the float that stands for
    it in [ASPECT_RATIOS]. *)
Definition ratio_pair (Rn Rf : Q) : Prop :=
  (Rn = 1%Q /\ Rf = 1%Q) \/
  (Rn = (9 # 16)%Q /\ Rf = (9 # 16)%Q) \/
  (Rn = (16 # 9)%Q /\ Rf = (2001599834386887 # 1125899906842624)%Q).

(** The width to height ratio of a [w] by [h] image is within 1% of [Rn]. *)
Definition within_one_percent (w h : Z) (Rn : Q) : Prop :=
  (Qabs (inject_Z w / inject_Z h - Rn) <= (1 # 100) * Rn)%Q.

(** A non-empty Pillow image: its sides are positive C [int]s. *)
Definition valid_size (im : image) : Prop :=
  0 < im_width im < 2 ^ 31 /\ 0 < im_height im < 2 ^ 31.

Fixpoint last_char (prev : option string) (s : list string)
  : option string :=
  match s with
  | [] => prev
  | c :: s' => last_char (Some c) s'
  end.

(** [word] occurs in [text] as a whole word: the characters of [text] are
    [pre ++ word ++ post] with a word boundary on each side of the
    occurrence. *)
Definition whole_word_match `{Unicode} (word text : string) : Prop :=
  exists pre post : list string,
    chars text = (pre ++ chars word ++ post)%list /\
    boundary (last_char None pre) (head_char (chars word ++ post)%list) =
      true /\
    boundary (last_char None (pre ++ chars word)%list) (head_char post) =
      true.

(** A term matches a text without regard to case. *)
Definition term_matches `{Unicode} (term text : string) : Prop :=
  whole_word_match (lower term) (lower text).

(** A character database that knows ASCII only: used to run the examples,
    none of which leaves ASCII. *)
Definition ascii_only : Unicode :=
  {| unicode_lower := fun s => s; unicode_alnum := fun _ => false |}.

(** The kernel's binary64 numbers, against which [round64] is checked on
    samples: the rational a float denotes, and the float of an [int]. *)

Definition Q_of_spec_float (x : SpecFloat.spec_float) : option Q :=
  match x with
  | SpecFloat.S754_zero _ => Some 0%Q
  | SpecFloat.S754_finite s m e =>
      Some ((if s then (-1) else 1) * inject_Z (Zpos m) * pow2 e)%Q
  | _ => None
  end.

Definition Q_of_binary64 (f : PrimFloat.float) : option Q :=
  Q_of_spec_float (FloatOps.Prim2SF f).

Definition binary64_of_Z (z : Z) : PrimFloat.float :=
  PrimFloat.of_uint63 (Uint63.of_Z z).

Definition agrees (f : PrimFloat.float) (q : Q) : bool :=
  match Q_of_binary64 f with
  | Some q' => Qeq_bool q' q
  | None => false
  end.

(** The literals of the compositor and the operations it applies to one
    pixel count [n], in hardware arithmetic and in the model. *)
Definition literals_agree : bool :=
  let f := binary64_of_Z in
  agrees (PrimFloat.div (f 3) (f 10)) (float_lit (3 # 10)) &&
  agrees (PrimFloat.div (f 9) (f 10)) (float_lit (9 # 10)) &&
  agrees (PrimFloat.div (f 15) (f 100)) (float_lit (15 # 100)) &&
  agrees (PrimFloat.div (f 8) (f 10)) (float_lit (8 # 10)) &&
  agrees (PrimFloat.div (f 2) (f 10)) (float_lit (2 # 10)) &&
  agrees (PrimFloat.div (f 9) (f 16)) (round64 (9 / 16)) &&
  agrees (PrimFloat.div (f 16) (f 9)) (round64 (16 / 9)) &&
  agrees (PrimFloat.add (PrimFloat.div (f 6) (f 10)) (PrimFloat.div (f 3) (f 10)))
         (fadd (float_lit (6 # 10)) (float_lit (3 # 10))) &&
  agrees (PrimFloat.sub (PrimFloat.div (f 6) (f 10)) (PrimFloat.div (f 2) (f 10)))
         (fsub (float_lit (6 # 10)) (float_lit (2 # 10))).

Definition pixel_count_agrees (n : Z) : bool :=
  let f := binary64_of_Z in
  let r169 := PrimFloat.div (f 16) (f 9) in
  let r916 := PrimFloat.div (f 9) (f 16) in
  agrees (PrimFloat.mul (f n) r169) (fmul (float_of_int n) (round64 (16 / 9))) &&
  agrees (PrimFloat.div (f n) r169) (fdiv (float_of_int n) (round64 (16 / 9))) &&
  agrees (PrimFloat.mul (f n) r916) (fmul (float_of_int n) (round64 (9 / 16))) &&
  agrees (PrimFloat.div (f n) r916) (fdiv (float_of_int n) (round64 (9 / 16))) &&
  agrees (PrimFloat.mul (f n) (PrimFloat.div (f 3) (f 10)))
         (fmul (float_of_int n) (float_lit (3 # 10))) &&
  agrees (PrimFloat.div (f n) (f 1080)) (round64 (inject_Z n / 1080)) &&
  agrees (PrimFloat.div (f 1920) (f n)) (round64 (1920 / inject_Z n)) &&
  agrees (PrimFloat.mul (f 100) (PrimFloat.div (f n) (f 1000)))
         (fmul (float_of_int 100) (fdiv (float_of_int n) (float_lit 1000))).

(** Sample inputs. *)

Definition solid (mode : string) (w h : Z) (color : pixel) : image :=
  image_new mode (w, h) color.

Definition default_compositor : ImageCompositor :=
  {| font_family := "Arial"; base_font_size := 48; text_color := "#FFFFFF";
     text_position := "bottom"; padding := 20;
     background_opacity := float_lit (6 # 10) |}.

(** A Pillow with no font files, whose default font draws nothing. *)
Definition blank_pillow : Pillow := {|
  font := unit;
  truetype := fun _ _ => None;
  load_default := tt;
  textbbox := fun _ _ => (0, 0, 0, 0);
  multiline_textbbox := fun _ _ => (0, 0, 0, 0);
  rectangle_pixels := fun _ _ im => im_pixels im;
  multiline_text_pixels := fun _ _ _ _ im => im_pixels im;
  convert_pixels := fun _ im => im_pixels im;
  alpha_composite_pixels := fun im1 _ => im_pixels im1;
  stat_mean := fun _ => 0%Q
|}.

(** A vision back end that finds nothing. *)
Definition blind_vision : Vision := {|
  array := unit;
  bgr_array := fun _ => tt;
  match_template_max := fun _ _ => 0%Q
|}.

Definition no_files : filesystem := fun _ => NoFile.

Definition config_missing_logo : @BrandConfig blind_vision :=
  {| logo_template_path := Some "/nonexistent/logo.png";
     brand_colors := [];
     min_logo_confidence := 7 # 10;
     _logo_template := None |}.

Definition config_no_logo : @BrandConfig blind_vision :=
  {| logo_template_path := None;
     brand_colors := [];
     min_logo_confidence := 7 # 10;
     _logo_template := None |}.

Definition config_free : LegalConfig :=
  {| prohibited_words := ["free"]; severity_levels := ∅ |}.

(** Notions and samples for the further properties. *)

(** *** Text wrapping *)

(** A line of words, joined by single spaces, measures at most [max_width]
    with [textbbox]: the test [_wrap_text] applies before it extends a
    line. *)
Definition line_fits `{Pillow} (f : font) (max_width : Z)
    (line : list string) : Prop :=
  box2 (textbbox (String.concat " " line) f) -
  box0 (textbbox (String.concat " " line) f) <= max_width.

(** A line was closed only because the next word did not fit on it. *)
Definition greedy `{Pillow} (f : font) (max_width : Z)
    (lines : list (list string)) : Prop :=
  forall (i : nat) (line rest : list string) (word : string),
    lines !! i = Some line -> lines !! S i = Some (word :: rest) ->
    ~ line_fits f max_width (line ++ [word])%list.

(** A line holds a word at least, and more than one only if it fits. *)
Definition line_ok `{Pillow} (f : font) (max_width : Z)
    (line : list string) : Prop :=
  line <> [] /\ (line_fits f max_width line \/ length line = 1%nat).

(** The lines closed so far followed by the line being filled, if any. *)
Definition wrap_chain (lines : list (list string)) (current : list string)
  : list (list string) :=
  match current with
  | [] => lines
  | _ => (lines ++ [current])%list
  end.

(** No character of [s] is white space. *)
Fixpoint no_space (s : string) : bool :=
  match s with
  | EmptyString => true
  | String c s' => negb (is_space c) && no_space s'
  end.

(** The region whose brightness [add_text_overlay_with_contrast] measures:
    the text panel, clipped to the image. *)
Definition overlay_text_region `{Pillow} (self : ImageCompositor) (im : image)
    (text : string) (position : option string) : box :=
  let pos := or_default position (text_position self) in
  let img_width := im_width im in
  let img_height := im_height im in
  let scaled_font_size := _calculate_font_size self img_width img_height in
  let f := _load_font self scaled_font_size in
  let wrapped_text := _wrap_text text f (img_width - padding self * 2) in
  let bbox := multiline_textbbox wrapped_text f in
  let text_width := box2 bbox - box0 bbox in
  let text_height := box3 bbox - box1 bbox in
  let text_x := (img_width - text_width) / 2 in
  let text_y := anchor_y self pos img_height text_height in
  let bg_padding := padding self in
  (Z.max 0 (text_x - bg_padding),
   Z.max 0 (text_y - bg_padding),
   Z.min img_width (text_x + text_width + bg_padding),
   Z.min img_height (text_y + text_height + bg_padding)).

(** The compositor with another panel opacity. *)
Definition with_background_opacity (self : ImageCompositor) (opacity : Q)
  : ImageCompositor :=
  {| font_family := font_family self;
     base_font_size := base_font_size self;
     text_color := text_color self;
     text_position := text_position self;
     padding := padding self;
     background_opacity := opacity |}.

(** Some character of [s] is a word character. *)
Definition has_word_char `{Unicode} (s : string) : bool :=
  existsb is_word_char (chars s).

Definition config_percent : LegalConfig :=
  {| prohibited_words := ["100%"]; severity_levels := ∅ |}.

(** A file system with a logo image and a file that is not an image. *)
Definition sample_files : filesystem := fun path =>
  if decide (path = "/assets/logo.png")
  then ImageFile (solid "RGB" 10 10 [255; 0; 0])
  else if decide (path = "/assets/notes.txt") then OtherFile
  else NoFile.

Definition config_logo : @BrandConfig blind_vision :=
  {| logo_template_path := Some "/assets/logo.png";
     brand_colors := [];
     min_logo_confidence := 7 # 10;
     _logo_template := None |}.

Definition config_text_logo : @BrandConfig blind_vision :=
  {| logo_template_path := Some "/assets/notes.txt";
     brand_colors := [];
     min_logo_confidence := 7 # 10;
     _logo_template := None |}.

(** The 256 characters, and the checks run over all of them below. *)
Definition all_ascii : list ascii := ascii_of_nat <$> seq 0 256.

(** A literal of at most two characters denotes a number of two hexadecimal
    digits at most. *)
Definition int16_small (s : string) : bool :=
  match Colors.int16 s with
  | inr v => (-255 <=? v)%Z && (v <=? 255)%Z
  | inl _ => true
  end.

(** A byte is written with two digits that read back as the byte. *)
Definition byte_round_trip (n : Z) : bool :=
  match Colors.upper (Colors.format_02x n) with
  | String a (String b EmptyString) =>
      negb (bool_decide (a = "#"%char)) &&
      match Colors.int16 (String a (String b "")) with
      | inr v => bool_decide (v = n)
      | inl _ => false
      end
  | _ => false
  end.

(** [np.sqrt] in hardware arithmetic and in the model. *)
Definition sqrt_agrees (n : Z) : bool :=
  agrees (PrimFloat.sqrt (binary64_of_Z n)) (Colors.np_sqrt n).

(** The squared distance of two colours. *)
Definition distance2 (rgb1 rgb2 : Z * Z * Z) : Z :=
  let '(r1, g1, b1) := rgb1 in
  let '(r2, g2, b2) := rgb2 in
  (r1 - r2) ^ 2 + (g1 - g2) ^ 2 + (b1 - b2) ^ 2.

(** The components of a cluster centre, truncated by [int]. *)
Definition center_rgb (center : Q * Q * Q) : Z * Z * Z :=
  let '(c0, c1, c2) := center in
  (int_of_float c0, int_of_float c1, int_of_float c2).

(** A centre of pixel values: each component lies between 0 and 255. *)
Definition pixel_center (center : Q * Q * Q) : Prop :=
  let '(c0, c1, c2) := center in
  (0 <= c0 <= 255 /\ 0 <= c1 <= 255 /\ 0 <= c2 <= 255)%Q.

(** A clustering that always finds black, mid grey and a red. *)
Definition sample_clustering : Colors.Clustering :=
  {| Colors.cluster_centers := fun _ =>
       inr [(0, 0, 0); (127.5, 127.5, 127.5); (254.99, 0.4, 10)]%Q |}.

(** A brief is valid: what [CampaignBrief.validate] asks for. *)
Definition valid_product (product : Product.t) : Prop :=
  Product.product_id product <> "" /\ Product.name product <> "".

Definition valid_brief (brief : CampaignBrief.t) : Prop :=
  CampaignBrief.campaign_id brief <> "" /\
  CampaignBrief.products brief <> [] /\
  CampaignBrief.target_region brief <> "" /\
  CampaignBrief.target_audience brief <> "" /\
  CampaignBrief.campaign_message brief <> "" /\
  Forall valid_product (CampaignBrief.products brief) /\
  match CampaignBrief.localization brief with
  | Some loc => Localization.language loc <> ""
  | None => True
  end.

(** The messages of the validations, in the order they are tested. *)
Definition validation_messages : list string :=
  ["campaign_id is required";
   "At least one product is required";
   "target_region is required";
   "target_audience is required";
   "campaign_message is required";
   "Product product_id is required";
   "Product name is required";
   "Localization language is required"].

Definition sample_brief : CampaignBrief.t :=
  {| CampaignBrief.campaign_id := "summer_2024";
     CampaignBrief.products :=
       [{| Product.product_id := "sku_1"; Product.name := "Sparkling water";
           Product.description := None |}];
     CampaignBrief.target_region := "US";
     CampaignBrief.target_audience := "millennials";
     CampaignBrief.campaign_message := "Start your day right";
     CampaignBrief.localization :=
       Some {| Localization.language := "es";
               Localization.region_specific_message := Some "" |} |}.

(** * Properties *)

(** ** Rounding to binary64

    The facts about [round64] used below: it is monotone, it leaves numbers
    with a significand below [2^53] alone, and its relative error is at most
    [2^-53]. *)

Section Rounding.
Local Open Scope Q_scope.

Lemma pow2_pos z : 0 < pow2 z.
Proof. apply Qpower_0_lt. reflexivity. Qed.

Lemma pow2_add a b : pow2 (a + b) == pow2 a * pow2 b.
Proof. apply Qpower_plus. discriminate. Qed.

Lemma pow2_le a b : (a <= b)%Z -> pow2 a <= pow2 b.
Proof. intros H. apply Qpower_le_compat_l; [exact H | discriminate]. Qed.

Lemma pow2_lt a b : (a < b)%Z -> pow2 a < pow2 b.
Proof. intros H. apply Qpower_lt_compat_l; [exact H | reflexivity]. Qed.

Lemma pow2_lt_inv a b : pow2 a < pow2 b -> (a < b)%Z.
Proof. intros H. apply (Qpower_lt_compat_l_inv 2); [exact H | reflexivity]. Qed.

Lemma pow2_succ a : pow2 (a + 1) == 2 * pow2 a.
Proof. rewrite pow2_add. unfold pow2 at 2. simpl. ring. Qed.

Lemma pow2_Z n : (0 <= n)%Z -> pow2 n == inject_Z (2 ^ n).
Proof. intros H. unfold pow2. rewrite Zpower_Qpower by exact H. reflexivity. Qed.

Lemma pow2_sub a b : pow2 (a - b) * pow2 b == pow2 a.
Proof. rewrite <- pow2_add. replace (a - b + b)%Z with a by ring. reflexivity. Qed.

Lemma Q_as_div (a : Q) : a * inject_Z (Zpos (Qden a)) == inject_Z (Qnum a).
Proof.
  destruct a as [n d]. unfold Qeq, Qmult, inject_Z. simpl.
  rewrite Pos.mul_1_r. ring.
Qed.

Lemma ilog2_spec a : 0 < a -> pow2 (ilog2 a) <= a /\ a < pow2 (ilog2 a + 1).
Proof.
  intros Ha. unfold ilog2.
  set (n := Qnum a). set (d := Zpos (Qden a)).
  assert (Hn : (0 < n)%Z).
  { destruct a as [n' d']. unfold Qlt in Ha. simpl in *. subst n. lia. }
  assert (Hd : (0 < d)%Z) by (subst d; lia).
  pose proof (Z.log2_spec n Hn) as [Hn1 Hn2].
  pose proof (Z.log2_spec d Hd) as [Hd1 Hd2].
  pose proof (Z.log2_nonneg n) as Hln.
  pose proof (Z.log2_nonneg d) as Hld.
  set (ln := Z.log2 n) in *. set (ld := Z.log2 d) in *.
  assert (Qn1 : pow2 ln <= inject_Z n).
  { rewrite pow2_Z by lia. rewrite <- Zle_Qle. exact Hn1. }
  assert (Qn2 : inject_Z n < pow2 (ln + 1)).
  { rewrite pow2_Z by lia. rewrite <- Zlt_Qlt. exact Hn2. }
  assert (Qd1 : pow2 ld <= inject_Z d).
  { rewrite pow2_Z by lia. rewrite <- Zle_Qle. exact Hd1. }
  assert (Qd2 : inject_Z d < pow2 (ld + 1)).
  { rewrite pow2_Z by lia. rewrite <- Zlt_Qlt. exact Hd2. }
  rewrite pow2_succ in Qn2, Qd2.
  pose proof (Q_as_div a) as Hdiv. fold n d in Hdiv.
  pose proof (pow2_sub ln ld) as Ht.
  pose proof (pow2_pos (ln - ld)) as Htp.
  pose proof (pow2_pos ld) as Hldp.
  pose proof (pow2_pos ln) as Hlnp.
  assert (Hup : a < 2 * pow2 (ln - ld)).
  { apply (Qmult_lt_r _ _ (inject_Z d)); [lra|]. nra. }
  assert (Hlo : pow2 (ln - ld) < 2 * a).
  { apply (Qmult_lt_r _ _ (inject_Z d)); [lra|]. nra. }
  destruct (Qle_bool (pow2 (ln - ld)) a) eqn:E.
  - apply Qle_bool_iff in E. rewrite pow2_succ. split; lra.
  - assert (E' : a < pow2 (ln - ld)).
    { apply Qnot_le_lt. intros C. apply Qle_bool_iff in C. congruence. }
    replace (ln - ld - 1 + 1)%Z with (ln - ld)%Z by ring.
    pose proof (pow2_succ (ln - ld - 1)) as Hs.
    replace (ln - ld - 1 + 1)%Z with (ln - ld)%Z in Hs by ring.
    split; lra.
Qed.

Lemma ilog2_unique a e : pow2 e <= a -> a < pow2 (e + 1) -> ilog2 a = e.
Proof.
  intros H1 H2.
  assert (Ha : 0 < a) by (pose proof (pow2_pos e); lra).
  destruct (ilog2_spec a Ha) as [H3 H4].
  assert (e < ilog2 a + 1)%Z by (apply pow2_lt_inv; lra).
  assert (ilog2 a < e + 1)%Z by (apply pow2_lt_inv; lra).
  lia.
Qed.

Lemma ilog2_mono a b : 0 < a -> a <= b -> (ilog2 a <= ilog2 b)%Z.
Proof.
  intros Ha Hab.
  destruct (ilog2_spec a Ha) as [H1 _].
  destruct (ilog2_spec b) as [_ H2]; [lra|].
  assert (ilog2 a < ilog2 b + 1)%Z by (apply pow2_lt_inv; lra).
  lia.
Qed.

Lemma inject_Z_succ z : inject_Z (z + 1) == inject_Z z + 1.
Proof. rewrite inject_Z_plus. reflexivity. Qed.

Lemma floor_bounds q :
  inject_Z (Qfloor q) <= q /\ q < inject_Z (Qfloor q) + 1.
Proof.
  split; [apply Qfloor_le|].
  rewrite <- inject_Z_succ. apply Qlt_floor.
Qed.

Lemma round_half_even_cases q :
  (q - inject_Z (Qfloor q) < 1 # 2 /\ round_half_even q = Qfloor q) \/
  (1 # 2 < q - inject_Z (Qfloor q) /\
   round_half_even q = (Qfloor q + 1)%Z) \/
  (q - inject_Z (Qfloor q) == 1 # 2 /\
   round_half_even q =
     if Z.even (Qfloor q) then Qfloor q else (Qfloor q + 1)%Z).
Proof.
  unfold round_half_even.
  destruct (Qcompare (q - inject_Z (Qfloor q)) (1 # 2)) eqn:E.
  - right. right. apply Qeq_alt in E. split; [exact E | reflexivity].
  - left. apply Qlt_alt in E. split; [exact E | reflexivity].
  - right. left. apply Qgt_alt in E. split; [exact E | reflexivity].
Qed.

Lemma round_half_even_near q :
  inject_Z (round_half_even q) - q <= 1 # 2 /\
  q - inject_Z (round_half_even q) <= 1 # 2.
Proof.
  destruct (floor_bounds q) as [H1 H2].
  destruct (round_half_even_cases q) as [[Hc ->] | [[Hc ->] | [Hc ->]]].
  - split; lra.
  - rewrite inject_Z_succ. split; lra.
  - destruct (Z.even (Qfloor q)); [|rewrite inject_Z_succ]; split; lra.
Qed.

Lemma round_half_even_Z z : round_half_even (inject_Z z) = z.
Proof.
  destruct (round_half_even_cases (inject_Z z)) as [[Hc ->] | [[Hc ->] | [Hc ->]]];
    rewrite Qfloor_Z in *; try reflexivity; lra.
Qed.

Lemma round_half_even_mono p q :
  p <= q -> (round_half_even p <= round_half_even q)%Z.
Proof.
  intros Hpq.
  pose proof (Qfloor_resp_le _ _ Hpq) as Hf.
  destruct (floor_bounds p) as [Hp1 Hp2].
  destruct (floor_bounds q) as [Hq1 Hq2].
  destruct (Z.eq_dec (Qfloor p) (Qfloor q)) as [E | NE].
  - destruct (round_half_even_cases p) as [[Hc ->] | [[Hc ->] | [Hc ->]]];
    destruct (round_half_even_cases q) as [[Hd ->] | [[Hd ->] | [Hd ->]]];
      rewrite E in *; try destruct (Z.even (Qfloor q)); try lia; lra.
  - assert (Qfloor p + 1 <= Qfloor q)%Z by lia.
    assert (round_half_even p <= Qfloor p + 1)%Z.
    { destruct (round_half_even_cases p) as [[Hc ->] | [[Hc ->] | [Hc ->]]];
        try destruct (Z.even (Qfloor p)); lia. }
    assert (Qfloor q <= round_half_even q)%Z.
    { destruct (round_half_even_cases q) as [[Hc ->] | [[Hc ->] | [Hc ->]]];
        try destruct (Z.even (Qfloor q)); lia. }
    lia.
Qed.

Lemma round_half_even_comp p q : p == q -> round_half_even p = round_half_even q.
Proof.
  intros E. apply Z.le_antisymm; apply round_half_even_mono; rewrite E; apply Qle_refl.
Qed.

Lemma scaled_range a :
  0 < a ->
  pow2 52 <= a * pow2 (52 - ilog2 a) /\ a * pow2 (52 - ilog2 a) < pow2 53.
Proof.
  intros Ha. destruct (ilog2_spec a Ha) as [H1 H2].
  pose proof (pow2_pos (52 - ilog2 a)) as Hp.
  pose proof (pow2_add (ilog2 a) (52 - ilog2 a)) as E1.
  pose proof (pow2_add (ilog2 a + 1) (52 - ilog2 a)) as E2.
  replace (ilog2 a + (52 - ilog2 a))%Z with 52%Z in E1 by ring.
  replace (ilog2 a + 1 + (52 - ilog2 a))%Z with 53%Z in E2 by ring.
  rewrite E1, E2. split.
  - apply Qmult_le_compat_r; lra.
  - apply Qmult_lt_compat_r; lra.
Qed.

Lemma round_pos_mantissa a :
  0 < a ->
  (2 ^ 52 <= round_half_even (a * pow2 (52 - ilog2 a)) <= 2 ^ 53)%Z.
Proof.
  intros Ha. destruct (scaled_range a Ha) as [H1 H2].
  pose proof (pow2_Z 52 ltac:(lia)) as E52.
  pose proof (pow2_Z 53 ltac:(lia)) as E53.
  split.
  - rewrite <- (round_half_even_Z (2 ^ 52)). apply round_half_even_mono. lra.
  - rewrite <- (round_half_even_Z (2 ^ 53)). apply round_half_even_mono. lra.
Qed.

Lemma round_pos_bounds a :
  0 < a ->
  pow2 (ilog2 a) <= round_pos a /\ round_pos a <= pow2 (ilog2 a + 1).
Proof.
  intros Ha. destruct (round_pos_mantissa a Ha) as [H1 H2].
  unfold round_pos.
  set (k := round_half_even (a * pow2 (52 - ilog2 a))) in *.
  pose proof (pow2_pos (ilog2 a - 52)) as Hp.
  pose proof (pow2_add 52 (ilog2 a - 52)) as E1.
  pose proof (pow2_add 53 (ilog2 a - 52)) as E2.
  replace (52 + (ilog2 a - 52))%Z with (ilog2 a) in E1 by ring.
  replace (53 + (ilog2 a - 52))%Z with (ilog2 a + 1)%Z in E2 by ring.
  rewrite E1, E2.
  pose proof (pow2_Z 52 ltac:(lia)) as E52.
  pose proof (pow2_Z 53 ltac:(lia)) as E53.
  rewrite E52, E53.
  split; apply Qmult_le_compat_r; try lra; rewrite <- Zle_Qle; assumption.
Qed.

Lemma round_pos_near a :
  0 < a ->
  round_pos a - a <= pow2 (ilog2 a - 53) /\
  a - round_pos a <= pow2 (ilog2 a - 53).
Proof.
  intros Ha. unfold round_pos.
  set (s := a * pow2 (52 - ilog2 a)).
  destruct (round_half_even_near s) as [H1 H2].
  set (k := inject_Z (round_half_even s)) in *.
  pose proof (pow2_pos (ilog2 a - 52)) as Hp.
  pose proof (pow2_succ (ilog2 a - 53)) as E1.
  replace (ilog2 a - 53 + 1)%Z with (ilog2 a - 52)%Z in E1 by ring.
  pose proof (pow2_add (52 - ilog2 a) (ilog2 a - 52)) as E2.
  replace (52 - ilog2 a + (ilog2 a - 52))%Z with 0%Z in E2 by ring.
  change (pow2 0) with 1 in E2.
  assert (Es : a == s * pow2 (ilog2 a - 52)).
  { unfold s. rewrite <- Qmult_assoc, <- E2. ring. }
  pose proof (pow2_pos (ilog2 a - 53)) as Hq.
  split.
  - assert ((k - s) * pow2 (ilog2 a - 52) <= (1 # 2) * pow2 (ilog2 a - 52)).
    { apply Qmult_le_compat_r; lra. }
    rewrite Es at 2. lra.
  - assert ((s - k) * pow2 (ilog2 a - 52) <= (1 # 2) * pow2 (ilog2 a - 52)).
    { apply Qmult_le_compat_r; lra. }
    rewrite Es at 1. lra.
Qed.

Lemma round_pos_comp a b : 0 < a -> a == b -> round_pos a == round_pos b.
Proof.
  intros Ha E. unfold round_pos.
  assert (El : ilog2 a = ilog2 b).
  { destruct (ilog2_spec a Ha) as [H1 H2].
    symmetry. apply ilog2_unique; rewrite <- E; assumption. }
  rewrite El.
  rewrite (round_half_even_comp (a * pow2 (52 - ilog2 b))
                                (b * pow2 (52 - ilog2 b))).
  - reflexivity.
  - rewrite E. reflexivity.
Qed.

Lemma round_pos_mono a b : 0 < a -> a <= b -> round_pos a <= round_pos b.
Proof.
  intros Ha Hab.
  assert (Hb : 0 < b) by lra.
  pose proof (ilog2_mono a b Ha Hab) as Hl.
  destruct (Z.eq_dec (ilog2 a) (ilog2 b)) as [E | NE].
  - unfold round_pos. rewrite E.
    apply Qmult_le_compat_r; [|pose proof (pow2_pos (ilog2 b - 52)); lra].
    rewrite <- Zle_Qle. apply round_half_even_mono.
    apply Qmult_le_compat_r; [exact Hab|].
    pose proof (pow2_pos (52 - ilog2 b)); lra.
  - destruct (round_pos_bounds a Ha) as [_ H1].
    destruct (round_pos_bounds b Hb) as [H2 _].
    assert (pow2 (ilog2 a + 1) <= pow2 (ilog2 b)) by (apply pow2_le; lia).
    lra.
Qed.

Lemma round_pos_exact a m j :
  (0 < m < 2 ^ 53)%Z -> a == inject_Z m * pow2 j -> round_pos a == a.
Proof.
  intros Hm Ea.
  assert (Hmq : 0 < inject_Z m) by (rewrite <- (Zlt_Qlt 0); lia).
  assert (Hmq2 : inject_Z m < pow2 53).
  { rewrite pow2_Z by lia. rewrite <- Zlt_Qlt. lia. }
  pose proof (pow2_pos j) as Hj.
  assert (Ha : 0 < a).
  { rewrite Ea. apply Qmult_lt_0_compat; assumption. }
  destruct (ilog2_spec a Ha) as [H1 H2].
  set (e := ilog2 a) in *.
  assert (He : (e < 53 + j)%Z).
  { apply pow2_lt_inv. rewrite pow2_add.
    assert (inject_Z m * pow2 j < pow2 53 * pow2 j)
      by (apply Qmult_lt_compat_r; assumption).
    lra. }
  set (n := (j + 52 - e)%Z).
  assert (Hn : (0 <= n)%Z) by (subst n; lia).
  assert (Es : a * pow2 (52 - e) == inject_Z (m * 2 ^ n)).
  { rewrite Ea, inject_Z_mult, <- pow2_Z by exact Hn.
    rewrite <- Qmult_assoc, <- pow2_add.
    replace (j + (52 - e))%Z with n by (subst n; ring). reflexivity. }
  unfold round_pos. fold e.
  rewrite (round_half_even_comp _ _ Es), round_half_even_Z.
  rewrite inject_Z_mult, <- pow2_Z by exact Hn.
  rewrite <- Qmult_assoc, <- pow2_add.
  replace (n + (e - 52))%Z with j by (subst n; ring).
  symmetry. exact Ea.
Qed.

Lemma round64_pos x : 0 < x -> round64 x == round_pos x.
Proof.
  intros H. unfold round64. destruct (Qcompare x 0) eqn:C.
  - apply Qeq_alt in C. lra.
  - apply Qlt_alt in C. lra.
  - apply Qred_correct.
Qed.

Lemma round64_neg x : x < 0 -> round64 x == - round_pos (- x).
Proof.
  intros H. unfold round64. destruct (Qcompare x 0) eqn:C.
  - apply Qeq_alt in C. lra.
  - apply Qred_correct.
  - apply Qgt_alt in C. lra.
Qed.

Lemma round64_0 x : x == 0 -> round64 x = 0.
Proof.
  intros H. unfold round64. destruct (Qcompare x 0) eqn:C.
  - reflexivity.
  - apply Qlt_alt in C. lra.
  - apply Qgt_alt in C. lra.
Qed.

Lemma round64_comp x y : x == y -> round64 x = round64 y.
Proof.
  intros E. unfold round64.
  assert (Ec : Qcompare x 0 = Qcompare y 0) by (rewrite E; reflexivity).
  rewrite <- Ec. destruct (Qcompare x 0) eqn:C.
  - reflexivity.
  - apply Qred_complete. apply Qlt_alt in C.
    assert (E' : - x == - y) by (rewrite E; reflexivity).
    rewrite (round_pos_comp (- x) (- y)); [reflexivity | lra | exact E'].
  - apply Qred_complete. apply Qgt_alt in C.
    apply round_pos_comp; [lra | exact E].
Qed.

Lemma round_pos_pos a : 0 < a -> 0 < round_pos a.
Proof.
  intros Ha. destruct (round_pos_bounds a Ha) as [H _].
  pose proof (pow2_pos (ilog2 a)). lra.
Qed.

Lemma round64_mono x y : x <= y -> round64 x <= round64 y.
Proof.
  intros Hxy.
  destruct (Q_dec x 0) as [[Hx | Hx] | Hx];
  destruct (Q_dec y 0) as [[Hy | Hy] | Hy];
    try rewrite (round64_neg x Hx); try rewrite (round64_pos x Hx); try rewrite (round64_0 x Hx);
    try rewrite (round64_neg y Hy); try rewrite (round64_pos y Hy); try rewrite (round64_0 y Hy);
    try lra.
  - assert (round_pos (- y) <= round_pos (- x)) by (apply round_pos_mono; lra).
    lra.
  - pose proof (round_pos_pos (- x) ltac:(lra)).
    pose proof (round_pos_pos y ltac:(lra)). lra.
  - pose proof (round_pos_pos (- x) ltac:(lra)). lra.
  - apply round_pos_mono; lra.
  - pose proof (round_pos_pos y ltac:(lra)). lra.
Qed.

Lemma round64_exact x m j :
  (Z.abs m < 2 ^ 53)%Z -> x == inject_Z m * pow2 j -> round64 x == x.
Proof.
  intros Hm Ex. pose proof (pow2_pos j) as Hj.
  destruct (Z.lt_trichotomy m 0) as [Hneg | [Hz | Hpos]].
  - assert (inject_Z m < 0)
      by (change 0 with (inject_Z 0); rewrite <- Zlt_Qlt; exact Hneg).
    assert (Hx : x < 0) by (rewrite Ex; nra).
    rewrite (round64_neg x Hx).
    rewrite (round_pos_exact (- x) (- m) j); [ring | lia |].
    rewrite Ex, inject_Z_opp. ring.
  - subst m. assert (Hx : x == 0) by (rewrite Ex; ring).
    rewrite (round64_0 x Hx). symmetry. exact Hx.
  - assert (0 < inject_Z m)
      by (change 0 with (inject_Z 0); rewrite <- Zlt_Qlt; exact Hpos).
    assert (Hx : 0 < x) by (rewrite Ex; nra).
    rewrite (round64_pos x Hx). apply (round_pos_exact x m j); [lia | exact Ex].
Qed.

Lemma round64_Z z : (Z.abs z < 2 ^ 53)%Z -> round64 (inject_Z z) == inject_Z z.
Proof.
  intros Hz. apply (round64_exact _ z 0 Hz). change (pow2 0) with 1. ring.
Qed.

Lemma round64_near x :
  0 <= x -> x * (1 - eps64) <= round64 x /\ round64 x <= x * (1 + eps64).
Proof.
  intros Hx. destruct (Qle_lt_or_eq _ _ Hx) as [Hp | Hz].
  - rewrite (round64_pos x Hp).
    destruct (round_pos_near x Hp) as [H1 H2].
    destruct (ilog2_spec x Hp) as [H3 _].
    pose proof (pow2_add (ilog2 x) (-53)) as E.
    replace (ilog2 x + -53)%Z with (ilog2 x - 53)%Z in E by ring.
    fold eps64 in E. rewrite E in H1, H2.
    assert (0 < eps64) by apply pow2_pos.
    assert (pow2 (ilog2 x) * eps64 <= x * eps64)
      by (apply Qmult_le_compat_r; lra).
    split; lra.
  - symmetry in Hz. rewrite (round64_0 x Hz). rewrite Hz. split; lra.
Qed.

Lemma round64_nonneg x : 0 <= x -> 0 <= round64 x.
Proof. intros H. rewrite <- (round64_0 0) by reflexivity. apply round64_mono, H. Qed.

Lemma round64_gt_0 x : 0 < x -> 0 < round64 x.
Proof. intros H. rewrite (round64_pos x H). apply round_pos_pos, H. Qed.

End Rounding.

(** On the literals of the compositor, and on the products and quotients it
    forms with every pixel count up to 1024, [round64] gives the result of
    the kernel's IEEE 754 binary64 arithmetic. *)
Example round64_agrees_on_literals : literals_agree = true.
Proof. vm_compute. reflexivity. Qed.

Example round64_agrees_on_pixel_counts :
  forallb pixel_count_agrees (seqZ 1 1024) = true.
Proof. vm_compute. reflexivity. Qed.

(** The product [100 * (290 / 1000.0)] falls just short of 29. *)
Example float_product_below_29 :
  int_of_float (fmul (float_of_int 100)
                     (fdiv (float_of_int 290) (float_lit 1000))) = 28.
Proof. vm_compute. reflexivity. Qed.

(** ** Cropping *)

Lemma ratio_1_1 : float_lit 1 = 1%Q.
Proof. vm_compute. reflexivity. Qed.

Lemma ratio_9_16 : round64 (9 / 16) = (9 # 16)%Q.
Proof. vm_compute. reflexivity. Qed.

Lemma ratio_16_9 :
  round64 (16 / 9) = (2001599834386887 # 1125899906842624)%Q.
Proof. vm_compute. reflexivity. Qed.

Lemma aspect_ratio_cases ratio_str R :
  dict_get ASPECT_RATIOS ratio_str = Some R ->
  (ratio_str = "1:1" /\ R = 1%Q) \/
  (ratio_str = "9:16" /\ R = (9 # 16)%Q) \/
  (ratio_str = "16:9" /\ R = (2001599834386887 # 1125899906842624)%Q).
Proof.
  unfold ASPECT_RATIOS. cbn [dict_get].
  rewrite ratio_1_1, ratio_9_16, ratio_16_9.
  repeat case_decide; intros E; simplify_eq; auto.
Qed.

Lemma aspect_ratio_unsupported ratio_str :
  dict_get ASPECT_RATIOS ratio_str = None <->
  ratio_str ∉ ["1:1"; "9:16"; "16:9"].
Proof.
  unfold ASPECT_RATIOS. cbn [dict_get].
  rewrite !not_elem_of_cons.
  pose proof (not_elem_of_nil ratio_str).
  repeat case_decide; intuition (congruence || discriminate).
Qed.

Lemma aspect_ratio_nonzero ratio_str R :
  dict_get ASPECT_RATIOS ratio_str = Some R -> ~ (R == 0)%Q.
Proof.
  intros E. destruct (aspect_ratio_cases _ _ E) as [[_ ->] | [[_ ->] | [_ ->]]];
    discriminate.
Qed.

Lemma smart_crop_dims_total (img : image) (R : Q) :
  im_height img <> 0 -> ~ (R == 0)%Q ->
  exists nw nh, _smart_crop_dims img R = inr (nw, nh).
Proof.
  intros Hh HR. unfold _smart_crop_dims, int_truediv.
  destruct (decide (im_height img = 0)) as [E | _]; [contradiction|].
  cbn. destruct (Qlt_le_dec _ _).
  - eauto.
  - unfold float_truediv. destruct (Qeq_bool R 0) eqn:E.
    + apply Qeq_bool_iff in E. contradiction.
    + cbn. eauto.
Qed.

Lemma smart_crop_box_total (img : image) (R : Q) (ratio_str : string) :
  im_height img <> 0 -> ~ (R == 0)%Q ->
  exists b, _smart_crop_box img R ratio_str = inr b.
Proof.
  intros Hh HR. destruct (smart_crop_dims_total img R Hh HR) as (nw & nh & E).
  unfold _smart_crop_box. rewrite E. cbn.
  repeat case_decide; eexists; reflexivity.
Qed.

Lemma smart_crop_total (img : image) (R : Q) (ratio_str : string) :
  im_height img <> 0 -> ~ (R == 0)%Q ->
  exists b, _smart_crop img R ratio_str = inr (crop img b) /\
            _smart_crop_box img R ratio_str = inr b.
Proof.
  intros Hh HR.
  destruct (smart_crop_box_total img R ratio_str Hh HR) as (b & E).
  exists b. split; [|exact E]. unfold _smart_crop. rewrite E. reflexivity.
Qed.

Lemma create_variants_loop_unsupported (img : image) (ratios : list string) :
  im_height img <> 0 ->
  (exists r, r ∈ ratios /\ (r ∉ ["1:1"; "9:16"; "16:9"])) ->
  forall variants,
  exists pre r post,
    ratios = (pre ++ r :: post)%list /\
    (forall r', r' ∈ pre -> r' ∈ ["1:1"; "9:16"; "16:9"]) /\
    (r ∉ ["1:1"; "9:16"; "16:9"]) /\
    create_variants_loop img ratios variants =
      inl (ValueError ("Unsupported aspect ratio: " +:+ r)).
Proof.
  intros Hh. induction ratios as [| r0 rest IH]; intros (r & Hin & Hr) variants.
  - inversion Hin.
  - cbn [create_variants_loop].
    destruct (dict_get ASPECT_RATIOS r0) as [R |] eqn:E.
    + assert (Hr0 : r0 <> r).
      { intros ->. apply aspect_ratio_unsupported in Hr. congruence. }
      assert (Hs0 : r0 ∈ ["1:1"; "9:16"; "16:9"]).
      { destruct (decide (r0 ∈ ["1:1"; "9:16"; "16:9"])) as [Hs | Hs];
          [exact Hs|].
        apply aspect_ratio_unsupported in Hs. congruence. }
      destruct (smart_crop_total img R r0 Hh (aspect_ratio_nonzero _ _ E))
        as (b & -> & _).
      cbn.
      assert (Hrest : exists r, r ∈ rest /\ (r ∉ ["1:1"; "9:16"; "16:9"])).
      { exists r. split; [|exact Hr].
        apply elem_of_cons in Hin as [-> | Hin]; [congruence | exact Hin]. }
      destruct (IH Hrest (<[r0 := crop img b]> variants))
        as (pre & r' & post & -> & Hpre & Hr' & ->).
      exists (r0 :: pre), r', post. repeat split; [| exact Hr'].
      intros r'' Hin''. apply elem_of_cons in Hin'' as [-> | Hin''];
        [exact Hs0 | apply Hpre, Hin''].
    + exists [], r0, rest. apply aspect_ratio_unsupported in E.
      repeat split; [| exact E]. intros r' Hin'. inversion Hin'.
Qed.

Lemma create_variants_loop_raises (img : image) (ratios : list string) :
  (exists r, r ∈ ratios /\ (r ∉ ["1:1"; "9:16"; "16:9"])) ->
  forall variants, exists e, create_variants_loop img ratios variants = inl e.
Proof.
  induction ratios as [| r0 rest IH]; intros (r & Hin & Hr) variants.
  - inversion Hin.
  - cbn [create_variants_loop].
    destruct (dict_get ASPECT_RATIOS r0) as [R |] eqn:E; [|eexists; reflexivity].
    destruct (_smart_crop img R r0) as [e | cropped]; [exists e; reflexivity|].
    cbn. apply IH. exists r. split; [|exact Hr].
    apply elem_of_cons in Hin as [-> | Hin]; [|exact Hin].
    apply aspect_ratio_unsupported in Hr. congruence.
Qed.

(** C2. When the requested list holds a name outside "1:1", "9:16" and
    "16:9", [create_variants] raises: the caller receives an exception and
    no mapping of variants, partial or not. On a non-empty image (its
    contract) the exception is the [ValueError] whose message names the
    first name of the list that is not supported. *)
Theorem create_variants_unsupported (img : image) (ratios : list string) :
  (exists r, r ∈ ratios /\ (r ∉ ["1:1"; "9:16"; "16:9"])) ->
  (exists e, create_variants img (Some ratios) = inl e) /\
  (im_height img <> 0 ->
   exists pre r post,
     ratios = (pre ++ r :: post)%list /\
     (forall r', r' ∈ pre -> r' ∈ ["1:1"; "9:16"; "16:9"]) /\
     (r ∉ ["1:1"; "9:16"; "16:9"]) /\
     create_variants img (Some ratios) =
       inl (ValueError ("Unsupported aspect ratio: " +:+ r))).
Proof.
  intros Hex. unfold create_variants. split.
  - apply create_variants_loop_raises, Hex.
  - intros Hh. apply create_variants_loop_unsupported; assumption.
Qed.

Lemma create_variants_unsupported_witness :
  let img := solid "RGB" 1000 1000 [0; 0; 255] in
  let ratios := ["1:1"; "4:3"] in
  (exists e, create_variants img (Some ratios) = inl e) /\
  (im_height img <> 0 ->
   exists pre r post,
     ratios = (pre ++ r :: post)%list /\
     (forall r', r' ∈ pre -> r' ∈ ["1:1"; "9:16"; "16:9"]) /\
     (r ∉ ["1:1"; "9:16"; "16:9"]) /\
     create_variants img (Some ratios) =
       inl (ValueError ("Unsupported aspect ratio: " +:+ r))).
Proof.
  intros img ratios. apply (create_variants_unsupported img ratios).
  exists "4:3". split.
  - apply elem_of_cons; right; apply elem_of_cons; left; reflexivity.
  - rewrite !not_elem_of_cons. repeat split; try discriminate.
    apply not_elem_of_nil.
Defined.

Lemma smart_crop_box_shape (img : image) (target_ratio : Q)
    (ratio_str : string) :
  im_height img <> 0 -> ~ (target_ratio == 0)%Q ->
  exists new_width new_height c_left c_top,
    _smart_crop_dims img target_ratio = inr (new_width, new_height) /\
    _smart_crop_box img target_ratio ratio_str =
      inr (c_left, c_top, c_left + new_width, c_top + new_height) /\
    c_left = (im_width img - new_width) / 2 /\
    c_top =
      if decide (ratio_str = "9:16") then
        int_of_float (fmul (float_of_int (im_height img - new_height))
                           (float_lit (3 # 10)))
      else (im_height img - new_height) / 2.
Proof.
  intros Hh HR.
  destruct (smart_crop_dims_total img target_ratio Hh HR) as (nw & nh & E).
  exists nw, nh. unfold _smart_crop_box. rewrite E. cbn.
  destruct (decide (ratio_str = "1:1")) as [-> | H1].
  { eexists _, _. repeat split. }
  destruct (decide (ratio_str = "9:16")) as [-> | H2].
  { eexists _, _. repeat split. }
  destruct (decide (ratio_str = "16:9")) as [-> | H3];
    eexists _, _; repeat split.
Qed.

(** C5. The anchor of the crop box: the box is centred horizontally for
    every ratio name; its top is [int((height - new_height) * 0.3)] for
    "9:16" and the vertical centre for "1:1", "16:9" and any other name. *)
Theorem smart_crop_anchor (img : image) (target_ratio : Q) (ratio_str : string) :
  im_height img <> 0 -> ~ (target_ratio == 0)%Q ->
  exists new_width new_height c_left c_top,
    _smart_crop_dims img target_ratio = inr (new_width, new_height) /\
    _smart_crop_box img target_ratio ratio_str =
      inr (c_left, c_top, c_left + new_width, c_top + new_height) /\
    c_left = (im_width img - new_width) / 2 /\
    c_top =
      if decide (ratio_str = "9:16") then
        int_of_float (fmul (float_of_int (im_height img - new_height))
                           (float_lit (3 # 10)))
      else (im_height img - new_height) / 2.
Proof. apply smart_crop_box_shape. Qed.

Lemma smart_crop_anchor_witness :
  exists new_width new_height c_left c_top,
    _smart_crop_dims (solid "RGB" 1000 1000 [0; 0; 255]) (9 # 16) =
      inr (new_width, new_height) /\
    _smart_crop_box (solid "RGB" 1000 1000 [0; 0; 255]) (9 # 16) "9:16" =
      inr (c_left, c_top, c_left + new_width, c_top + new_height) /\
    c_left = (1000 - new_width) / 2 /\
    c_top =
      int_of_float (fmul (float_of_int (1000 - new_height))
                         (float_lit (3 # 10))).
Proof.
  apply (smart_crop_anchor (solid "RGB" 1000 1000 [0; 0; 255]) (9 # 16) "9:16").
  - vm_compute. discriminate.
  - vm_compute. discriminate.
Defined.

(** ** Contrast adaptation *)

Lemma py_min_spec (x y : Q) : (py_min x y == Qmin x y)%Q.
Proof.
  unfold py_min. destruct (Qlt_le_dec y x).
  - symmetry. apply Q.min_r. lra.
  - symmetry. apply Q.min_l. exact q.
Qed.

Lemma py_max_spec (x y : Q) : (py_max x y == Qmax x y)%Q.
Proof.
  unfold py_max. destruct (Qlt_le_dec x y).
  - symmetry. apply Q.max_r. lra.
  - symmetry. apply Q.max_l. exact q.
Qed.

(** C9. The opacity chosen for a panel of mean brightness [v] and base
    opacity [b]: [min(b + 0.3, 0.9)] above 180, [min(b + 0.15, 0.8)] in
    (120, 180], [max(b - 0.2, 0.3)] below 60, and [b] itself on [60, 120];
    [min] and [max] are the lesser and the greater of their arguments. When
    the brightness cannot be measured, the exception of the measurement is
    that of [_ensure_contrast]. *)
Theorem ensure_contrast_cases `{Pillow} (self : ImageCompositor) (img : image)
    (text_region : box) :
  let b := background_opacity self in
  match region_brightness img text_region with
  | inr v =>
      ((180 < v)%Q ->
         _ensure_contrast self img text_region =
           inr (py_min (fadd b (float_lit (3 # 10))) (float_lit (9 # 10)))) /\
      ((120 < v)%Q /\ (v <= 180)%Q ->
         _ensure_contrast self img text_region =
           inr (py_min (fadd b (float_lit (15 # 100))) (float_lit (8 # 10)))) /\
      ((v < 60)%Q ->
         _ensure_contrast self img text_region =
           inr (py_max (fsub b (float_lit (2 # 10))) (float_lit (3 # 10)))) /\
      ((60 <= v)%Q /\ (v <= 120)%Q ->
         _ensure_contrast self img text_region = inr b)
  | inl e => _ensure_contrast self img text_region = inl e
  end /\
  (forall x y, py_min x y == Qmin x y /\ py_max x y == Qmax x y)%Q.
Proof.
  intros b. unfold _ensure_contrast. fold b.
  split; [|split; [apply py_min_spec | apply py_max_spec]].
  destruct (region_brightness img text_region) as [e | v]; [reflexivity|].
  cbn. repeat split.
  - intros Hv. destruct (Qlt_le_dec 180 v); [reflexivity | lra].
  - intros [Hv1 Hv2]. destruct (Qlt_le_dec 180 v); [lra|].
    destruct (Qlt_le_dec 120 v); [reflexivity | lra].
  - intros Hv. destruct (Qlt_le_dec 180 v); [lra|].
    destruct (Qlt_le_dec 120 v); [lra|].
    destruct (Qlt_le_dec v 60); [reflexivity | lra].
  - intros [Hv1 Hv2]. destruct (Qlt_le_dec 180 v); [lra|].
    destruct (Qlt_le_dec 120 v); [lra|].
    destruct (Qlt_le_dec v 60); [lra | reflexivity].
Qed.

(** With the default base opacity 0.6: 0.8999999999999999 on a bright
    panel, 0.75 on a moderately bright one, 0.39999999999999997 on a dark
    one. *)
Example ensure_contrast_default_opacities :
  py_min (fadd (float_lit (6 # 10)) (float_lit (3 # 10))) (float_lit (9 # 10)) =
    (2026619832316723 # 2251799813685248)%Q /\
  py_min (fadd (float_lit (6 # 10)) (float_lit (15 # 100)))
         (float_lit (8 # 10)) = (3 # 4)%Q /\
  py_max (fsub (float_lit (6 # 10)) (float_lit (2 # 10)))
         (float_lit (3 # 10)) = (7205759403792793 # 18014398509481984)%Q.
Proof. vm_compute. repeat split. Qed.

(** ** Font sizing *)

Lemma int_of_float_mono (x y : Q) :
  (x <= y)%Q -> int_of_float x <= int_of_float y.
Proof.
  intros Hxy. unfold int_of_float.
  destruct (Qle_bool 0 x) eqn:Ex; destruct (Qle_bool 0 y) eqn:Ey.
  - apply Qfloor_resp_le, Hxy.
  - apply Qle_bool_iff in Ex.
    assert (~ (0 <= y)%Q) by (rewrite <- Qle_bool_iff; congruence). lra.
  - assert (Hx : ~ (0 <= x)%Q) by (rewrite <- Qle_bool_iff; congruence).
    apply Qle_bool_iff in Ey.
    assert (Qceiling x <= 0).
    { change 0 with (Qceiling 0). apply Qceiling_resp_le. lra. }
    assert (0 <= Qfloor y).
    { change 0 with (Qfloor 0). apply Qfloor_resp_le, Ey. }
    lia.
  - apply Qceiling_resp_le, Hxy.
Qed.

Lemma int_of_float_nonpos (x : Q) : (x <= 0)%Q -> int_of_float x <= 0.
Proof.
  intros Hx. change 0 with (int_of_float 0). apply int_of_float_mono, Hx.
Qed.

Lemma int_of_float_nonneg (x : Q) : (0 <= x)%Q -> 0 <= int_of_float x.
Proof.
  intros Hx. change 0 with (int_of_float 0). apply int_of_float_mono, Hx.
Qed.

Lemma float_of_int_mono (a b : Z) : a <= b -> (float_of_int a <= float_of_int b)%Q.
Proof.
  intros Hab. apply round64_mono. rewrite <- Zle_Qle. exact Hab.
Qed.

Lemma float_of_int_nonneg (a : Z) : 0 <= a -> (0 <= float_of_int a)%Q.
Proof.
  intros Ha. apply round64_nonneg. change 0%Q with (inject_Z 0).
  rewrite <- Zle_Qle. exact Ha.
Qed.

Lemma float_of_int_exact (a : Z) :
  Z.abs a < 2 ^ 53 -> (float_of_int a == inject_Z a)%Q.
Proof. apply round64_Z. Qed.

Lemma float_lit_1000 : float_lit 1000 = 1000%Q.
Proof. vm_compute. reflexivity. Qed.

Lemma scale_factor_mono (h1 h2 : Z) :
  h1 <= h2 ->
  (fdiv (float_of_int h1) (float_lit 1000) <=
   fdiv (float_of_int h2) (float_lit 1000))%Q.
Proof.
  intros H. rewrite float_lit_1000. unfold fdiv. apply round64_mono.
  pose proof (float_of_int_mono h1 h2 H).
  unfold Qdiv. apply Qmult_le_compat_r; [assumption | discriminate].
Qed.

Lemma scale_factor_nonneg (h : Z) :
  0 <= h -> (0 <= fdiv (float_of_int h) (float_lit 1000))%Q.
Proof.
  intros H. rewrite float_lit_1000. unfold fdiv. apply round64_nonneg.
  pose proof (float_of_int_nonneg h H).
  apply Qle_shift_div_l; [reflexivity | lra].
Qed.

Lemma font_size_clamped (self : ImageCompositor) (w h : Z) :
  20 <= _calculate_font_size self w h <= 120.
Proof. unfold _calculate_font_size. lia. Qed.

Lemma font_size_monotone (self : ImageCompositor) (w1 w2 h1 h2 : Z) :
  0 <= h1 -> h1 <= h2 ->
  _calculate_font_size self w1 h1 <= _calculate_font_size self w2 h2.
Proof.
  intros H0 H12. unfold _calculate_font_size.
  set (s1 := fdiv (float_of_int h1) (float_lit 1000)).
  set (s2 := fdiv (float_of_int h2) (float_lit 1000)).
  set (b := float_of_int (base_font_size self)).
  assert (Hs : (s1 <= s2)%Q) by (apply scale_factor_mono; exact H12).
  assert (Hs1 : (0 <= s1)%Q) by (apply scale_factor_nonneg; exact H0).
  destruct (Qlt_le_dec b 0) as [Hb | Hb].
  - (* a negative base size: both sides are clamped to 20 *)
    assert (int_of_float (fmul b s1) <= 0).
    { apply int_of_float_nonpos. unfold fmul.
      rewrite <- (round64_0 0) by reflexivity. apply round64_mono. nra. }
    assert (int_of_float (fmul b s2) <= 0).
    { apply int_of_float_nonpos. unfold fmul.
      rewrite <- (round64_0 0) by reflexivity. apply round64_mono. nra. }
    lia.
  - assert (int_of_float (fmul b s1) <= int_of_float (fmul b s2)).
    { apply int_of_float_mono. unfold fmul. apply round64_mono. nra. }
    lia.
Qed.

Lemma scaled_font_accuracy (self : ImageCompositor) (h : Z) :
  0 <= base_font_size self < 2 ^ 53 -> 0 <= h < 2 ^ 53 ->
  let exact := (inject_Z (base_font_size self) * inject_Z h / 1000)%Q in
  (exact * (1 - eps64) * (1 - eps64) <= scaled_font self h /\
   scaled_font self h <= exact * (1 + eps64) * (1 + eps64))%Q.
Proof.
  intros Hb Hh exact. unfold scaled_font.
  pose proof (float_of_int_exact (base_font_size self) ltac:(lia)) as Eb.
  pose proof (float_of_int_exact h ltac:(lia)) as Eh.
  assert (Hbq : (0 <= inject_Z (base_font_size self))%Q).
  { change 0%Q with (inject_Z 0). rewrite <- Zle_Qle. lia. }
  assert (Hhq : (0 <= inject_Z h)%Q).
  { change 0%Q with (inject_Z 0). rewrite <- Zle_Qle. lia. }
  rewrite float_lit_1000.
  set (B := inject_Z (base_font_size self)) in *.
  set (Hq := inject_Z h) in *.
  assert (He : (0 < eps64 /\ eps64 < 1)%Q) by (split; reflexivity).
  assert (Ed : (fdiv (float_of_int h) 1000 = round64 (Hq / 1000))%Q).
  { unfold fdiv. apply round64_comp. rewrite Eh. reflexivity. }
  rewrite Ed.
  assert (Hd0 : (0 <= Hq / 1000)%Q) by (apply Qle_shift_div_l; [reflexivity | lra]).
  destruct (round64_near (Hq / 1000) Hd0) as [D1 D2].
  set (d := round64 (Hq / 1000)) in *.
  assert (Hdn : (0 <= d)%Q) by (apply round64_nonneg; exact Hd0).
  assert (Em : fmul (float_of_int (base_font_size self)) d = round64 (B * d)).
  { unfold fmul. apply round64_comp. rewrite Eb. reflexivity. }
  rewrite Em.
  assert (Hm0 : (0 <= B * d)%Q) by nra.
  destruct (round64_near (B * d) Hm0) as [M1 M2].
  assert (Ex : (exact == B * (Hq / 1000))%Q) by (unfold exact; field).
  rewrite Ex.
  set (X := (Hq / 1000)%Q) in *.
  set (r := round64 (B * d)) in *.
  destruct He as [He0 He1]. generalize dependent eps64. intros e He0 He1 D1 D2 M1 M2.
  assert (P1 : (B * (X * (1 - e)) <= B * d)%Q) by nra.
  assert (P2 : (B * d <= B * (X * (1 + e)))%Q) by nra.
  split.
  - apply Qle_trans with (B * d * (1 - e))%Q; [|exact M1]. nra.
  - apply Qle_trans with (B * d * (1 + e))%Q; [exact M2|]. nra.
Qed.

(** C6. The font size lies in [20, 120]; it is the truncated product
    [base_font_size * (img_height / 1000.0)] clamped to that interval, the
    product being [base_font_size * img_height / 1000] up to two roundings;
    it does not decrease when the image height grows, whatever the widths. *)
Theorem font_size_range_monotone (self : ImageCompositor) (w1 w2 h1 h2 : Z) :
  0 <= h1 -> h1 <= h2 ->
  20 <= _calculate_font_size self w1 h1 <= 120 /\
  20 <= _calculate_font_size self w2 h2 <= 120 /\
  _calculate_font_size self w1 h1 =
    Z.max 20 (Z.min (int_of_float (scaled_font self h1)) 120) /\
  (0 <= base_font_size self < 2 ^ 53 -> h1 < 2 ^ 53 ->
   let exact := (inject_Z (base_font_size self) * inject_Z h1 / 1000)%Q in
   (exact * (1 - eps64) * (1 - eps64) <= scaled_font self h1 /\
    scaled_font self h1 <= exact * (1 + eps64) * (1 + eps64))%Q) /\
  _calculate_font_size self w1 h1 <= _calculate_font_size self w2 h2.
Proof.
  intros H0 H12. split; [apply font_size_clamped|].
  split; [apply font_size_clamped|].
  split; [reflexivity|].
  split.
  - intros Hb Hh. apply scaled_font_accuracy; lia.
  - apply font_size_monotone; assumption.
Qed.

Lemma font_size_range_monotone_witness :
  20 <= _calculate_font_size default_compositor 1000 500 <= 120 /\
  20 <= _calculate_font_size default_compositor 500 1000 <= 120 /\
  _calculate_font_size default_compositor 1000 500 <=
    _calculate_font_size default_compositor 500 1000.
Proof.
  destruct (font_size_range_monotone default_compositor 1000 500 500 1000)
    as (B1 & B2 & _ & _ & M); [lia | lia |].
  exact (conj B1 (conj B2 M)).
Defined.

(** ** Legal compliance *)

Lemma append_nil_l (s : string) : "" +:+ s = s.
Proof. reflexivity. Qed.

Lemma append_cons (c : ascii) (s t : string) :
  String c s +:+ t = String c (s +:+ t).
Proof. reflexivity. Qed.

Section Legal.
Context `{Unicode}.

Lemma match_literal_spec (lit s : list string) (prev last : option string)
    (rest : list string) :
  match_literal lit s prev = Some (last, rest) <->
  s = (lit ++ rest)%list /\ last = last_char prev lit.
Proof.
  revert s prev. induction lit as [| c lit IH]; intros s prev; cbn.
  - split.
    + intros E. injection E as -> ->. auto.
    + intros [-> ->]. reflexivity.
  - destruct s as [| d s];
      [split; [discriminate | intros [E _]; discriminate]|].
    destruct (decide (c = d)) as [-> | NE].
    + rewrite IH. split.
      * intros [-> ->]. auto.
      * intros [E ->]. injection E as ->. auto.
    + split; [discriminate|]. intros [E _]. injection E as E _. congruence.
Qed.

Lemma match_here_spec (lit s : list string) (prev : option string) :
  match_here lit prev s = true <->
  exists post, s = (lit ++ post)%list /\
    boundary prev (head_char s) = true /\
    boundary (last_char prev lit) (head_char post) = true.
Proof.
  unfold match_here. rewrite andb_true_iff. split.
  - intros [Hb Hm].
    destruct (match_literal lit s prev) as [[last rest] |] eqn:E;
      [|discriminate].
    apply match_literal_spec in E as [-> ->]. eauto.
  - intros (post & Es & Hb & He). split; [exact Hb|].
    assert (E : match_literal lit s prev = Some (last_char prev lit, post))
      by (apply match_literal_spec; auto).
    rewrite E. exact He.
Qed.

Lemma last_char_app (prev : option string) (s t : list string) :
  last_char prev (s ++ t)%list = last_char (last_char prev s) t.
Proof.
  revert prev. induction s as [| c s IH]; intros prev; [reflexivity|].
  cbn. apply IH.
Qed.

Lemma search_from_spec (lit s : list string) (prev : option string) :
  search_from lit prev s = true <->
  exists pre post, s = (pre ++ lit ++ post)%list /\
    boundary (last_char prev pre) (head_char (lit ++ post)%list) = true /\
    boundary (last_char prev (pre ++ lit)%list) (head_char post) = true.
Proof.
  revert prev. induction s as [| c s IH]; intros prev.
  - cbn [search_from]. rewrite orb_false_r, match_here_spec. split.
    + intros (post & E & Hb & He). exists [], post.
      cbn [app last_char]. rewrite <- E. auto.
    + intros (pre & post & E & Hb & He).
      destruct pre; [|discriminate]. cbn [app last_char] in *.
      exists post. rewrite E. auto.
  - cbn [search_from]. rewrite orb_true_iff, match_here_spec, IH. split.
    + intros [(post & E & Hb & He) | (pre & post & E & Hb & He)].
      * exists [], post. cbn [app last_char]. rewrite <- E. auto.
      * exists (c :: pre), post. cbn [app last_char]. rewrite E. auto.
    + intros (pre & post & E & Hb & He). destruct pre as [| c' pre].
      * left. cbn [app last_char] in *. exists post. rewrite E. auto.
      * right. cbn [app last_char] in *. injection E as <- ->.
        exists pre, post. auto.
Qed.

Lemma re_search_word_spec (word text : string) :
  re_search_word word text = true <-> whole_word_match word text.
Proof. apply search_from_spec. Qed.

Lemma legal_loop_spec (legal_config : LegalConfig) (text_lower : string)
    (words violations : list string) :
  legal_loop legal_config text_lower words violations =
  (violations ++
     (violation_msg legal_config <$>
        filter (fun w => re_search_word (lower w) text_lower = true) words))%list.
Proof.
  revert violations. induction words as [| w rest IH]; intros violations.
  - cbn. rewrite app_nil_r. reflexivity.
  - cbn [legal_loop]. rewrite filter_cons.
    destruct (re_search_word (lower w) text_lower) eqn:E.
    + rewrite IH. rewrite decide_True by reflexivity.
      rewrite fmap_cons, <- app_assoc. reflexivity.
    + rewrite IH. rewrite decide_False by discriminate. reflexivity.
Qed.

Lemma legal_violations (legal_config : LegalConfig) (text : string) :
  violations (check_legal_compliance legal_config text) =
  violation_msg legal_config <$>
    filter (fun w => re_search_word (lower w) (lower text) = true)
           (prohibited_words legal_config).
Proof.
  unfold check_legal_compliance.
  destruct (prohibited_words legal_config) as [| w0 rest] eqn:Ew; [reflexivity|].
  rewrite legal_loop_spec. cbn [app].
  destruct (violation_msg legal_config <$> _); reflexivity.
Qed.

Lemma legal_passed (legal_config : LegalConfig) (text : string) :
  passed (check_legal_compliance legal_config text) =
  bool_decide (violations (check_legal_compliance legal_config text) = []).
Proof.
  unfold check_legal_compliance.
  destruct (prohibited_words legal_config) as [| w0 rest]; [reflexivity|].
  destruct (legal_loop _ _ _ _); reflexivity.
Qed.

(** A character outside ASCII is one character to the search, a word
    character when the database says so: "caf" ends inside a word in
    "un café" exactly when "é" is alphanumeric. *)
Lemma search_accented (b : bool) :
  unicode_alnum "é" = b ->
  re_search_word "caf" "un café" = negb b /\
  re_search_word "café" "un café" = b.
Proof.
  intros Hb. unfold re_search_word.
  vm_compute. unfold unicode_alnum in Hb. rewrite !Hb.
  destruct b; split; reflexivity.
Qed.

(** C8. The legal check passes exactly when no prohibited term occurs in the
    text as a whole word, case being ignored; "free" is found in
    "This is free" and not in "Freedom is important", and it is found
    whether the text spells it "FREE", "Free" or "free". *)
Theorem legal_passed_iff_no_match :
  (forall (legal_config : LegalConfig) (text : string),
     passed (check_legal_compliance legal_config text) = true <->
     forall term, term ∈ prohibited_words legal_config ->
                  ~ term_matches term text) /\
  passed (check_legal_compliance config_free "This is free") = false /\
  passed (check_legal_compliance config_free "Freedom is important") = true /\
  passed (check_legal_compliance config_free "FREE") = false /\
  passed (check_legal_compliance config_free "Free") = false /\
  passed (check_legal_compliance config_free "free") = false /\
  term_matches "free" "This is free" /\
  ~ term_matches "free" "Freedom is important" /\
  term_matches "free" "FREE offer" /\
  term_matches "FREE" "a free offer" /\
  (unicode_lower "un café" = "un café" -> unicode_alnum "é" = true ->
   ~ term_matches "caf" "un café") /\
  (unicode_lower "un café" = "un café" -> unicode_lower "café" = "café" ->
   unicode_alnum "é" = true -> term_matches "café" "un café").
Proof.
  split.
  { intros legal_config text.
    rewrite legal_passed, bool_decide_eq_true, legal_violations.
    unfold term_matches. split.
    + intros E term Hin Hm. apply fmap_nil_inv in E.
      apply re_search_word_spec in Hm.
      exact (filter_nil_not_elem_of _ _ _ E Hm Hin).
    + intros Hno.
      destruct (filter _ (prohibited_words legal_config)) as [| w l] eqn:E;
        [reflexivity|].
      assert (Hf : w ∈ filter
                (fun w => re_search_word (lower w) (lower text) = true)
                (prohibited_words legal_config))
        by (rewrite E; apply elem_of_cons; left; reflexivity).
      apply list_elem_of_filter in Hf as [Hm Hin].
      apply re_search_word_spec in Hm. destruct (Hno w Hin Hm). }
  do 5 (split; [vm_compute; reflexivity|]).
  unfold term_matches.
  split; [apply re_search_word_spec; vm_compute; reflexivity|].
  split.
  { intros Hm. apply re_search_word_spec in Hm. vm_compute in Hm.
    discriminate. }
  split; [apply re_search_word_spec; vm_compute; reflexivity|].
  split; [apply re_search_word_spec; vm_compute; reflexivity|].
  split.
  - intros El Ea. rewrite <- re_search_word_spec.
    replace (lower "un café") with "un café" by (symmetry; exact El).
    change (lower "caf") with "caf".
    destruct (search_accented true Ea) as [E _]. rewrite E. discriminate.
  - intros El El' Ea. rewrite <- re_search_word_spec.
    replace (lower "un café") with "un café" by (symmetry; exact El).
    replace (lower "café") with "café" by (symmetry; exact El').
    destruct (search_accented true Ea) as [_ E]. exact E.
Qed.

(** C10. Each configured term yields at most one message, however often it
    occurs: the violations are the messages of the terms that match, in
    configuration order, so there are no more of them than terms. *)
Theorem legal_violations_in_order (legal_config : LegalConfig) (text : string) :
  violations (check_legal_compliance legal_config text) =
    violation_msg legal_config <$>
      filter (fun term => re_search_word (lower term) (lower text) = true)
             (prohibited_words legal_config) /\
  (length (violations (check_legal_compliance legal_config text)) <=
   length (prohibited_words legal_config))%nat /\
  violations (check_legal_compliance config_free "free, free and FREE again") =
    ["Prohibited word 'free' found (severity: warning)"].
Proof.
  split; [apply legal_violations|]. split.
  - rewrite legal_violations, length_fmap. apply length_filter.
  - vm_compute. reflexivity.
Qed.

End Legal.

(** ** Brand compliance *)

Section Brand.
Context `{Vision} `{Colors.Clustering}.

Lemma brand_check_result (fs : filesystem) (brand_config : BrandConfig)
    (img : image) (logo_detected : bool) :
  _detect_logo fs brand_config img = inr (logo_detected, brand_config) ->
  match color_violations brand_config img with
  | inr colors =>
      exists res,
        check_brand_compliance fs brand_config img = inr (res, brand_config) /\
        violations res =
          ((match path_set brand_config with
            | Some _ =>
                if logo_detected then []
                else ["Brand logo not detected in image"]
            | None => []
            end) ++ colors)%list /\
        passed res = bool_decide (violations res = [])
  | inl e => check_brand_compliance fs brand_config img = inl e
  end.
Proof.
  intros E. unfold check_brand_compliance, color_violations. rewrite E. cbn.
  destruct (brand_colors brand_config) as [| c cs].
  - cbn. destruct (path_set brand_config), logo_detected; cbn;
      eexists; repeat split.
  - destruct (Colors._analyze_colors img) as [e | colors_present];
      [destruct (path_set brand_config), logo_detected; reflexivity|].
    cbn.
    destruct (Colors.any_color_match colors_present (c :: cs))
      as [e | found];
      [destruct (path_set brand_config), logo_detected; reflexivity|].
    cbn. destruct (path_set brand_config), logo_detected, found; cbn;
      eexists; repeat split.
Qed.

(** C1, as the code has it. A logo path that is set while its file is
    absent (and nothing is cached) does not switch the logo sub-check off:
    detection fails, and whenever the check returns, the violation "Brand
    logo not detected in image" comes first in the list and the check does
    not pass, where the same configuration with the path removed yields the
    colour violations alone. The check returns exactly when the colour
    sub-check does: its exception (a clustering that fails, a colour that
    does not parse) is raised with or without the logo path. *)
Theorem missing_logo_file_is_a_violation (fs : filesystem)
    (brand_config : BrandConfig) (img : image) (p : string) :
  logo_template_path brand_config = Some p -> p <> "" ->
  _logo_template brand_config = None ->
  fs p = NoFile ->
  _detect_logo fs brand_config img = inr (false, brand_config) /\
  match color_violations brand_config img with
  | inr colors =>
      (exists res,
         check_brand_compliance fs brand_config img =
           inr (res, brand_config) /\
         passed res = false /\
         violations res = "Brand logo not detected in image" :: colors) /\
      (exists res,
         check_brand_compliance fs (without_logo brand_config) img =
           inr (res, without_logo brand_config) /\
         passed res = bool_decide (colors = []) /\
         violations res = colors)
  | inl e =>
      check_brand_compliance fs brand_config img = inl e /\
      check_brand_compliance fs (without_logo brand_config) img = inl e
  end.
Proof.
  intros Hp Hne Hcache Hfs.
  assert (Hset : path_set brand_config = Some p).
  { unfold path_set. rewrite Hp. rewrite decide_False by exact Hne.
    reflexivity. }
  assert (E : _detect_logo fs brand_config img = inr (false, brand_config)).
  { unfold _detect_logo, load_logo_template.
    rewrite Hset, Hcache, Hfs. reflexivity. }
  assert (E' : _detect_logo fs (without_logo brand_config) img =
               inr (false, without_logo brand_config)) by reflexivity.
  split; [exact E|].
  pose proof (brand_check_result fs brand_config img false E) as R.
  pose proof (brand_check_result fs (without_logo brand_config) img false E')
    as R'.
  change (color_violations (without_logo brand_config) img)
    with (color_violations brand_config img) in R'.
  change (path_set (without_logo brand_config)) with (@None string) in R'.
  rewrite Hset in R.
  destruct (color_violations brand_config img) as [e | colors];
    [split; assumption|].
  destruct R as (res & Er & Ev & Ep). destruct R' as (res' & Er' & Ev' & Ep').
  split.
  - exists res. repeat split; [exact Er | | exact Ev].
    rewrite Ep, Ev. reflexivity.
  - exists res'. repeat split; [exact Er' | | exact Ev'].
    rewrite Ep', Ev'. reflexivity.
Qed.

End Brand.

Lemma missing_logo_file_is_a_violation_witness :
  let img := solid "RGB" 100 100 [255; 0; 0] in
  @_detect_logo blind_vision no_files config_missing_logo img =
    inr (false, config_missing_logo) /\
  (exists res,
     @check_brand_compliance blind_vision sample_clustering no_files
       config_missing_logo img = inr (res, config_missing_logo) /\
     passed res = false /\
     violations res = ["Brand logo not detected in image"]) /\
  (exists res,
     @check_brand_compliance blind_vision sample_clustering no_files
       (without_logo config_missing_logo) img =
       inr (res, without_logo config_missing_logo) /\
     passed res = true /\
     violations res = []).
Proof.
  intros img.
  destruct (@missing_logo_file_is_a_violation blind_vision sample_clustering
              no_files config_missing_logo img "/nonexistent/logo.png")
    as [D R].
  - reflexivity.
  - discriminate.
  - reflexivity.
  - reflexivity.
  - split; [exact D | exact R].
Defined.

(** C1 as stated does not hold: with the file of the configured logo absent,
    the check fails with a logo violation, where the configuration without a
    logo passes with none. *)
Lemma missing_logo_file_not_skipped :
  @check_brand_compliance blind_vision sample_clustering no_files
    config_missing_logo (solid "RGB" 100 100 [255; 0; 0]) =
    inr ({| passed := false;
            details := "Logo detection failed";
            violations := ["Brand logo not detected in image"] |},
         config_missing_logo) /\
  @check_brand_compliance blind_vision sample_clustering no_files
    config_no_logo (solid "RGB" 100 100 [255; 0; 0]) =
    inr ({| passed := true;
            details := "No brand compliance checks configured";
            violations := [] |},
         config_no_logo).
Proof. split; reflexivity. Qed.

(** ** Text overlay *)

Section Overlay.
Context `{Pillow}.

Lemma bind_run {A B} (m : M A) (f : A -> M B) (h h' : heap) (x : A) :
  m h = (inr x, h') -> (m ≫= f) h = f x h'.
Proof. intros E. unfold mbind, M_bind. rewrite E. reflexivity. Qed.

Lemma deref_run (r : ref) (im : image) (h : heap) :
  h !! r = Some im -> deref r h = (inr im, h).
Proof. intros E. unfold deref. rewrite E. reflexivity. Qed.








End Overlay.



(** ** Crop arithmetic *)

Lemma ratio_pair_round (Rn Rf : Q) : ratio_pair Rn Rf -> Rf = round64 Rn.
Proof.
  intros [[-> ->] | [[-> ->] | [-> ->]]]; vm_compute; reflexivity.
Qed.

Lemma aspect_ratio_pair (ratio_str : string) (R : Q) :
  dict_get ASPECT_RATIOS ratio_str = Some R ->
  exists Rn, nominal_ratio ratio_str = Some Rn /\ ratio_pair Rn R.
Proof.
  intros E. unfold ratio_pair.
  destruct (aspect_ratio_cases _ _ E) as [[-> ->] | [[-> ->] | [-> ->]]];
    eexists; (split; [reflexivity|]); auto.
Qed.

Section CropArithmetic.
Local Open Scope Q_scope.

Lemma Qlt_div_mul (a b c : Q) : 0 < c -> a < b / c -> a * c < b.
Proof.
  intros Hc Hlt. assert (E : b / c * c == b) by (field; lra).
  rewrite <- E. apply Qmult_lt_compat_r; assumption.
Qed.

Lemma Qle_div_mul (a b c : Q) : 0 < c -> b / c <= a -> b <= a * c.
Proof.
  intros Hc Hle. assert (E : b / c * c == b) by (field; lra).
  rewrite <- E. apply Qmult_le_compat_r; lra.
Qed.

Variables W H : Z.
Hypothesis HW : (0 < W < 2 ^ 31)%Z.
Hypothesis HH : (0 < H < 2 ^ 31)%Z.

Let Wq : Q := inject_Z W.
Let Hq : Q := inject_Z H.

Lemma Wq_range : 1 <= Wq /\ Wq <= 2147483647.
Proof.
  unfold Wq. split.
  - change 1 with (inject_Z 1). rewrite <- Zle_Qle. lia.
  - change 2147483647 with (inject_Z 2147483647). rewrite <- Zle_Qle. lia.
Qed.

Lemma Hq_range : 1 <= Hq /\ Hq <= 2147483647.
Proof.
  unfold Hq. split.
  - change 1 with (inject_Z 1). rewrite <- Zle_Qle. lia.
  - change 2147483647 with (inject_Z 2147483647). rewrite <- Zle_Qle. lia.
Qed.

Lemma float_W : float_of_int W == Wq.
Proof. apply float_of_int_exact. lia. Qed.

Lemma float_H : float_of_int H == Hq.
Proof. apply float_of_int_exact. lia. Qed.

(** Two integers in the proportion of a ratio [p / q] are at least [1 / q]
    apart from it. *)
Lemma ratio_gap (Rn Rf : Q) :
  ratio_pair Rn Rf -> Rn < Wq / Hq -> Hq * Rn + (1 # 16) <= Wq.
Proof.
  intros HR Hlt. destruct Hq_range as [Hh1 Hh2]. destruct Wq_range as [Hw1 Hw2].
  apply Qlt_div_mul in Hlt; [|lra].
  destruct HR as [[-> _] | [[-> _] | [-> _]]].
  - assert (H + 1 <= W)%Z.
    { apply Z.le_succ_l. rewrite Zlt_Qlt. fold Wq Hq. lra. }
    assert (Hq + 1 <= Wq).
    { unfold Wq, Hq. rewrite <- inject_Z_succ, <- Zle_Qle. assumption. }
    lra.
  - assert (9 * H + 1 <= 16 * W)%Z.
    { apply Z.le_succ_l. rewrite Zlt_Qlt, !inject_Z_mult. fold Wq Hq.
      change (inject_Z 9) with 9. change (inject_Z 16) with 16. lra. }
    assert (9 * Hq + 1 <= 16 * Wq).
    { unfold Wq, Hq. change 9 with (inject_Z 9). change 16 with (inject_Z 16).
      rewrite <- !inject_Z_mult, <- inject_Z_succ, <- Zle_Qle. assumption. }
    lra.
  - assert (16 * H + 1 <= 9 * W)%Z.
    { apply Z.le_succ_l. rewrite Zlt_Qlt, !inject_Z_mult. fold Wq Hq.
      change (inject_Z 9) with 9. change (inject_Z 16) with 16. lra. }
    assert (16 * Hq + 1 <= 9 * Wq).
    { unfold Wq, Hq. change 9 with (inject_Z 9). change 16 with (inject_Z 16).
      rewrite <- !inject_Z_mult, <- inject_Z_succ, <- Zle_Qle. assumption. }
    lra.
Qed.

Lemma eps64_value : eps64 = 1 # 9007199254740992.
Proof. reflexivity. Qed.

(** The float that stands for a ratio is within one rounding of it. *)
Lemma ratio_pair_near (Rn Rf : Q) :
  ratio_pair Rn Rf ->
  0 < Rn /\ 0 < Rf /\ Rn * (1 - eps64) <= Rf /\ Rf <= Rn * (1 + eps64).
Proof.
  rewrite eps64_value.
  intros [[-> ->] | [[-> ->] | [-> ->]]]; repeat split; lra.
Qed.

(** [int(x)] of a rounded non-negative number. *)
Lemma int_of_round64 (x : Q) :
  0 <= x ->
  let p := round64 x in
  let n := int_of_float p in
  (0 <= n)%Z /\ inject_Z n <= p /\ p < inject_Z n + 1 /\
  x * (1 - eps64) <= p /\ p <= x * (1 + eps64).
Proof.
  intros Hx p n. assert (Hp : 0 <= p) by (apply round64_nonneg, Hx).
  destruct (round64_near x Hx) as [N1 N2].
  assert (En : n = Qfloor p).
  { unfold n, int_of_float. apply Qle_bool_iff in Hp. rewrite Hp. reflexivity. }
  destruct (floor_bounds p) as [F1 F2]. rewrite <- En in F1, F2.
  repeat split; try assumption.
  apply int_of_float_nonneg, Hp.
Qed.

(** The branch taken by [_smart_crop]: the rounded source ratio exceeds the
    float of the target exactly when the source ratio exceeds the nominal
    target. *)
Lemma wider_iff (Rn Rf : Q) :
  ratio_pair Rn Rf -> (Rf < round64 (Wq / Hq) <-> Rn < Wq / Hq).
Proof.
  intros HR. destruct Hq_range as [Hh1 Hh2]. destruct Wq_range as [Hw1 Hw2].
  split.
  - intros Hlt. apply Qnot_le_lt. intros Hle.
    apply round64_mono in Hle. rewrite <- (ratio_pair_round Rn Rf HR) in Hle.
    lra.
  - intros Hlt. pose proof (ratio_gap Rn Rf HR Hlt) as Hgap.
    set (q := Wq / Hq) in *.
    assert (Eq : q * Hq == Wq) by (unfold q; field; lra).
    assert (Hq0 : 0 <= q) by (destruct (ratio_pair_near Rn Rf HR); lra).
    destruct (round64_near q Hq0) as [N1 _].
    assert (Hsep : Rn + (1 # 34359738368) <= q).
    { assert ((q - Rn) * Hq >= 1 # 16) by lra.
      assert ((q - Rn) * Hq <= (q - Rn) * 2147483647) by nra.
      lra. }
    rewrite eps64_value in N1.
    destruct HR as [[-> ->] | [[-> ->] | [-> ->]]]; lra.
Qed.

(** The crop width of the wide branch. *)
Lemma wide_crop_width (Rn Rf : Q) :
  ratio_pair Rn Rf -> Rn < Wq / Hq ->
  let p := round64 (Hq * Rf) in
  let nw := int_of_float (fmul (float_of_int H) Rf) in
  (0 <= nw <= W)%Z /\ inject_Z nw <= p /\ p < inject_Z nw + 1 /\
  Hq * Rf * (1 - eps64) <= p /\ p <= Hq * Rf * (1 + eps64).
Proof.
  intros HR Hlt p nw. destruct Hq_range as [Hh1 Hh2].
  destruct Wq_range as [Hw1 Hw2].
  pose proof (ratio_gap Rn Rf HR Hlt) as Hgap.
  destruct (ratio_pair_near Rn Rf HR) as (Hn0 & Hf0 & Hf1 & Hf2).
  assert (Ep : fmul (float_of_int H) Rf = p).
  { unfold fmul, p. apply round64_comp. rewrite float_H. reflexivity. }
  unfold nw. rewrite Ep.
  assert (Hx : 0 <= Hq * Rf) by nra.
  destruct (int_of_round64 (Hq * Rf) Hx) as (I0 & I1 & I2 & I3 & I4).
  fold p in I0, I1, I2, I3, I4.
  assert (HpW : p <= Wq).
  { assert (E : round64 Wq == Wq) by (apply round64_Z; lia).
    rewrite <- E. apply round64_mono.
    rewrite eps64_value in *.
    destruct HR as [[-> ->] | [[-> ->] | [-> ->]]]; lra. }
  repeat split; try assumption.
  rewrite Zle_Qle. fold Wq. lra.
Qed.

(** The crop height of the tall branch. *)
Lemma tall_crop_height (Rn Rf : Q) :
  ratio_pair Rn Rf -> Wq / Hq <= Rn ->
  let p := round64 (Wq / Rf) in
  let nh := int_of_float (fdiv (float_of_int W) Rf) in
  (0 <= nh <= H)%Z /\ inject_Z nh <= p /\ p < inject_Z nh + 1 /\
  Wq / Rf * (1 - eps64) <= p /\ p <= Wq / Rf * (1 + eps64).
Proof.
  intros HR Hle. destruct Hq_range as [Hh1 Hh2].
  destruct Wq_range as [Hw1 Hw2].
  apply Qle_div_mul in Hle; [|lra].
  destruct (ratio_pair_near Rn Rf HR) as (Hn0 & Hf0 & Hf1 & Hf2).
  assert (Ep : fdiv (float_of_int W) Rf = round64 (Wq / Rf)).
  { unfold fdiv. apply round64_comp. rewrite float_W. reflexivity. }
  cbv zeta. rewrite Ep.
  assert (Ex : Wq / Rf * Rf == Wq) by (field; lra).
  set (x := Wq / Rf) in *.
  assert (Hx : 0 <= x).
  { unfold x. apply Qle_shift_div_l; [exact Hf0 | rewrite Qmult_0_l; lra]. }
  destruct (int_of_round64 x Hx) as (I0 & I1 & I2 & I3 & I4).
  set (p := round64 x) in *. clearbody p x.
  assert (HpH : p < Hq + 1).
  { rewrite eps64_value in *.
    destruct HR as [[-> ->] | [[-> ->] | [-> ->]]]; lra. }
  repeat split; try assumption.
  assert (nh' : (int_of_float p < H + 1)%Z).
  { rewrite Zlt_Qlt, inject_Z_succ. fold Hq. lra. }
  lia.
Qed.

End CropArithmetic.

(** The vertical offset of the "9:16" policy stays within the margin. *)
Lemma top_offset_bounds (d : Z) :
  0 <= d < 2 ^ 31 ->
  0 <= int_of_float (fmul (float_of_int d) (float_lit (3 # 10))) <= d.
Proof.
  intros Hd.
  assert (Hdq : (0 <= inject_Z d)%Q).
  { change 0%Q with (inject_Z 0). rewrite <- Zle_Qle. lia. }
  assert (Ed : (float_of_int d == inject_Z d)%Q)
    by (apply float_of_int_exact; lia).
  assert (Ec : float_lit (3 # 10) = (5404319552844595 # 18014398509481984)%Q)
    by (vm_compute; reflexivity).
  rewrite Ec.
  set (c := (5404319552844595 # 18014398509481984)%Q).
  assert (Ep : fmul (float_of_int d) c = round64 (inject_Z d * c)).
  { unfold fmul. apply round64_comp. rewrite Ed. reflexivity. }
  rewrite Ep.
  assert (Hx : (0 <= inject_Z d * c)%Q) by (unfold c; lra).
  split; [apply int_of_float_nonneg, round64_nonneg, Hx|].
  assert (Hle : (round64 (inject_Z d * c) <= inject_Z d)%Q).
  { assert (E : (round64 (inject_Z d) == inject_Z d)%Q)
      by (apply round64_Z; lia).
    rewrite <- E at 2. apply round64_mono. unfold c. lra. }
  destruct (int_of_round64 (inject_Z d * c) Hx) as (_ & I1 & _).
  rewrite Zle_Qle. lra.
Qed.

(** The variants of a request made of supported names. *)
Lemma create_variants_loop_lookup (img : image) (ratios : list string) :
  im_height img <> 0 ->
  (forall r, r ∈ ratios -> r ∈ ["1:1"; "9:16"; "16:9"]) ->
  forall variants,
  exists m,
    create_variants_loop img ratios variants = inr m /\
    forall name,
      (name ∈ ratios ->
       exists R b, dict_get ASPECT_RATIOS name = Some R /\
                   _smart_crop_box img R name = inr b /\
                   m !! name = Some (crop img b)) /\
      (name ∉ ratios -> m !! name = variants !! name).
Proof.
  intros Hh. induction ratios as [| r0 rest IH]; intros Hsup variants.
  - exists variants. split; [reflexivity|]. intros name. split.
    + intros Hin. inversion Hin.
    + reflexivity.
  - cbn [create_variants_loop].
    destruct (dict_get ASPECT_RATIOS r0) as [R0 |] eqn:E0; cycle 1.
    { apply aspect_ratio_unsupported in E0. destruct E0. apply Hsup.
      apply elem_of_cons. left. reflexivity. }
    destruct (smart_crop_total img R0 r0 Hh (aspect_ratio_nonzero _ _ E0))
      as (b0 & -> & Eb0).
    destruct (IH (fun r Hr => Hsup r (proj2 (elem_of_cons _ _ _) (or_intror Hr)))
                 (<[r0 := crop img b0]> variants)) as (m & Em & Hm).
    exists m. split; [exact Em|]. intros name. split.
    + intros Hin. destruct (decide (name ∈ rest)) as [Hr | Hr].
      * apply (Hm name), Hr.
      * apply elem_of_cons in Hin as [-> | Hin]; [|contradiction].
        exists R0, b0. repeat split; [exact E0 | exact Eb0 |].
        rewrite (proj2 (Hm r0) Hr). apply lookup_insert_eq.
    + intros Hnot. apply not_elem_of_cons in Hnot as [Hne Hnot].
      rewrite (proj2 (Hm name) Hnot). apply lookup_insert_ne. congruence.
Qed.

Lemma create_variants_lookup (img : image) (ratios : list string)
    (name : string) :
  im_height img <> 0 ->
  (forall r, r ∈ ratios -> r ∈ ["1:1"; "9:16"; "16:9"]) ->
  name ∈ ratios ->
  exists m R b,
    create_variants img (Some ratios) = inr m /\
    dict_get ASPECT_RATIOS name = Some R /\
    _smart_crop_box img R name = inr b /\
    m !! name = Some (crop img b).
Proof.
  intros Hh Hsup Hin.
  destruct (create_variants_loop_lookup img ratios Hh Hsup ∅) as (m & Em & Hm).
  destruct (proj1 (Hm name) Hin) as (R & b & ER & Eb & El).
  exists m, R, b. auto.
Qed.

(** The crop dimensions of a supported ratio, branch by branch. *)
Lemma smart_crop_dims_supported (img : image) (Rn Rf : Q) :
  valid_size img -> ratio_pair Rn Rf ->
  let W := im_width img in
  let H := im_height img in
  exists nw nh,
    _smart_crop_dims img Rf = inr (nw, nh) /\
    ((Rn < inject_Z W / inject_Z H)%Q ->
     nw = int_of_float (fmul (float_of_int H) Rf) /\ nh = H) /\
    ((inject_Z W / inject_Z H <= Rn)%Q ->
     nw = W /\ nh = int_of_float (fdiv (float_of_int W) Rf)) /\
    0 <= nw <= W /\ 0 <= nh <= H.
Proof.
  intros [HW HH] HR W H. fold W in HW. fold H in HH.
  destruct (ratio_pair_near Rn Rf HR) as (Hn0 & Hf0 & _).
  unfold _smart_crop_dims, int_truediv. fold W H.
  rewrite decide_False by lia. cbn.
  destruct (Qlt_le_dec Rf (round64 (inject_Z W / inject_Z H))) as [Hlt | Hle].
  - apply (wider_iff W H HW HH Rn Rf HR) in Hlt.
    destruct (wide_crop_width W H HW HH Rn Rf HR Hlt) as (Hb & _).
    eexists _, _. split; [reflexivity|].
    split; [intros _; split; reflexivity|].
    split; [intros Hc; lra|]. lia.
  - assert (Hle' : (inject_Z W / inject_Z H <= Rn)%Q).
    { apply Qnot_lt_le. intros Hc.
      apply (wider_iff W H HW HH Rn Rf HR) in Hc. lra. }
    destruct (tall_crop_height W H HW HH Rn Rf HR Hle') as (Hb & _).
    unfold float_truediv.
    destruct (Qeq_bool Rf 0) eqn:Ez; [apply Qeq_bool_iff in Ez; lra|].
    cbn. eexists _, _. split; [reflexivity|].
    split; [intros Hc; lra|].
    split; [intros _; split; reflexivity|]. lia.
Qed.

Lemma within_one_percent_intro (w h : Z) (Rn : Q) :
  0 < h ->
  ((99 # 100) * Rn * inject_Z h <= inject_Z w)%Q ->
  (inject_Z w <= (101 # 100) * Rn * inject_Z h)%Q ->
  within_one_percent w h Rn.
Proof.
  intros Hh Hlo Hhi. unfold within_one_percent.
  assert (Hhq : (0 < inject_Z h)%Q).
  { change 0%Q with (inject_Z 0). rewrite <- Zlt_Qlt. exact Hh. }
  apply Qabs_Qle_condition. split.
  - assert (((99 # 100) * Rn <= inject_Z w / inject_Z h)%Q)
      by (apply Qle_shift_div_l; assumption).
    lra.
  - assert ((inject_Z w / inject_Z h <= (101 # 100) * Rn)%Q)
      by (apply Qle_shift_div_r; assumption).
    lra.
Qed.

Section Tolerance.
Local Open Scope Q_scope.

Variables W H : Z.
Hypothesis HW : (0 < W < 2 ^ 31)%Z.
Hypothesis HH : (0 < H < 2 ^ 31)%Z.

Lemma wide_tolerance (Rn Rf : Q) :
  ratio_pair Rn Rf -> Rn < inject_Z W / inject_Z H ->
  let nw := int_of_float (fmul (float_of_int H) Rf) in
  (100 <= nw)%Z -> within_one_percent nw H Rn.
Proof.
  intros HR Hlt nw Hnw.
  destruct (wide_crop_width W H HW HH Rn Rf HR Hlt) as (_ & I1 & I2 & I3 & I4).
  fold nw in I1, I2.
  assert (Hn : 100 <= inject_Z nw).
  { change 100 with (inject_Z 100). rewrite <- Zle_Qle. exact Hnw. }
  set (p := round64 (inject_Z H * Rf)) in *. clearbody p.
  rewrite eps64_value in *.
  apply within_one_percent_intro; [lia | |];
    destruct HR as [[-> ->] | [[-> ->] | [-> ->]]]; lra.
Qed.

Lemma tall_tolerance (Rn Rf : Q) :
  ratio_pair Rn Rf -> inject_Z W / inject_Z H <= Rn ->
  let nh := int_of_float (fdiv (float_of_int W) Rf) in
  (100 <= nh)%Z -> within_one_percent W nh Rn.
Proof.
  intros HR Hle nh Hnh.
  destruct (tall_crop_height W H HW HH Rn Rf HR Hle) as (_ & I1 & I2 & I3 & I4).
  fold nh in I1, I2.
  assert (Hn : 100 <= inject_Z nh).
  { change 100 with (inject_Z 100). rewrite <- Zle_Qle. exact Hnh. }
  set (p := round64 (inject_Z W / Rf)) in *. clearbody p.
  assert (Ex : inject_Z W / Rf * Rf == inject_Z W).
  { field. destruct (ratio_pair_near Rn Rf HR) as (_ & Hf0 & _). lra. }
  set (x := inject_Z W / Rf) in *. clearbody x.
  rewrite eps64_value in *.
  apply within_one_percent_intro; [lia | |].
  - destruct HR as [[-> ->] | [[-> ->] | [-> ->]]]; lra.
  - destruct (Z.eq_dec nh 100) as [E100 | N100].
    + (* one hundred rows: the width is an integer below the bound *)
      rewrite E100 in *. change (inject_Z 100) with 100 in *.
      destruct HR as [[-> ->] | [[-> ->] | [-> ->]]].
      * assert (W <= 101)%Z.
        { apply Z.lt_succ_r. rewrite Zlt_Qlt. change (inject_Z (Z.succ 101)) with 102. lra. }
        assert (inject_Z W <= 101).
        { change 101 with (inject_Z 101). rewrite <- Zle_Qle. assumption. }
        lra.
      * assert (W <= 56)%Z.
        { apply Z.lt_succ_r. rewrite Zlt_Qlt. change (inject_Z (Z.succ 56)) with 57. lra. }
        assert (inject_Z W <= 56).
        { change 56 with (inject_Z 56). rewrite <- Zle_Qle. assumption. }
        lra.
      * assert (W <= 179)%Z.
        { apply Z.lt_succ_r. rewrite Zlt_Qlt. change (inject_Z (Z.succ 179)) with 180. lra. }
        assert (inject_Z W <= 179).
        { change 179 with (inject_Z 179). rewrite <- Zle_Qle. assumption. }
        lra.
    + assert (Hn' : 101 <= inject_Z nh).
      { change 101 with (inject_Z 101). rewrite <- Zle_Qle. lia. }
      destruct HR as [[-> ->] | [[-> ->] | [-> ->]]]; lra.
Qed.

End Tolerance.

(** [Image.crop] does not refuse the box of a supported ratio: its right
    and lower edges are its left and upper ones plus dimensions that are not
    negative, so that [_smart_crop] returns the crop. *)
Lemma smart_crop_box_accepted (img : image) (name : string) (R : Q) :
  valid_size img -> dict_get ASPECT_RATIOS name = Some R ->
  exists b,
    _smart_crop_box img R name = inr b /\
    image_crop img b = inr (crop img b) /\
    _smart_crop img R name = inr (crop img b).
Proof.
  intros Hv ER. pose proof Hv as [HW HH].
  assert (Hh : im_height img <> 0) by lia.
  destruct (aspect_ratio_pair name R ER) as (Rn & _ & HR).
  destruct (smart_crop_dims_supported img Rn R Hv HR)
    as (nw & nh & Ed & _ & _ & Hnw & Hnh).
  destruct (smart_crop_box_shape img R name Hh (aspect_ratio_nonzero _ _ ER))
    as (nw' & nh' & l & t & Ed' & Eb & _ & _).
  rewrite Ed in Ed'. injection Ed' as <- <-.
  exists (l, t, l + nw, t + nh). split; [exact Eb|]. split.
  - unfold image_crop, box0, box1, box2, box3. cbn [fst snd].
    rewrite !decide_False by lia. reflexivity.
  - unfold _smart_crop. rewrite Eb. reflexivity.
Qed.

(** C4. The crop box of a supported ratio lies within the source: its
    left and top are not negative and its right and bottom do not pass the
    width and the height; every pixel of the variant is therefore a pixel
    of the source, the blank filling of [crop] being never used. *)
Theorem crop_box_within_bounds (img : image) (ratios : list string)
    (name : string) :
  valid_size img ->
  (forall r, r ∈ ratios -> r ∈ ["1:1"; "9:16"; "16:9"]) ->
  name ∈ ratios ->
  exists m R new_width new_height c_left c_top,
    create_variants img (Some ratios) = inr m /\
    dict_get ASPECT_RATIOS name = Some R /\
    _smart_crop_dims img R = inr (new_width, new_height) /\
    _smart_crop_box img R name =
      inr (c_left, c_top, c_left + new_width, c_top + new_height) /\
    m !! name =
      Some (crop img (c_left, c_top, c_left + new_width, c_top + new_height)) /\
    0 <= c_left /\ 0 <= c_top /\
    c_left + new_width <= im_width img /\
    c_top + new_height <= im_height img /\
    (forall x y, 0 <= x < new_width -> 0 <= y < new_height ->
       im_pixels
         (crop img (c_left, c_top, c_left + new_width, c_top + new_height))
         x y =
       im_pixels img (c_left + x) (c_top + y)).
Proof.
  intros Hv Hsup Hin. pose proof Hv as [HW HH].
  assert (Hh : im_height img <> 0) by lia.
  destruct (create_variants_lookup img ratios name Hh Hsup Hin)
    as (m & R & b & Em & ER & Eb & El).
  destruct (aspect_ratio_pair name R ER) as (Rn & _ & HR).
  destruct (smart_crop_dims_supported img Rn R Hv HR)
    as (nw & nh & Ed & _ & _ & Hnw & Hnh).
  destruct (smart_crop_box_shape img R name Hh (aspect_ratio_nonzero _ _ ER))
    as (nw' & nh' & l & t & Ed' & Eb' & El' & Et').
  rewrite Ed in Ed'. injection Ed' as <- <-.
  rewrite Eb in Eb'. injection Eb' as ->.
  assert (Hl : 0 <= l /\ l + nw <= im_width img).
  { subst l. split; [apply Z.div_pos; lia|].
    pose proof (Z.mul_div_le (im_width img - nw) 2 ltac:(lia)). lia. }
  assert (Ht : 0 <= t /\ t + nh <= im_height img).
  { destruct (decide (name = "9:16")).
    - pose proof (top_offset_bounds (im_height img - nh) ltac:(lia)). lia.
    - subst t. split; [apply Z.div_pos; lia|].
      pose proof (Z.mul_div_le (im_height img - nh) 2 ltac:(lia)). lia. }
  exists m, R, nw, nh, l, t. repeat split; try tauto.
  intros x y Hx Hy. cbn. rewrite decide_True by lia. reflexivity.
Qed.

Lemma crop_box_within_bounds_witness :
  exists m R new_width new_height c_left c_top,
    create_variants (solid "RGB" 1000 1000 [0; 0; 255])
      (Some ["1:1"; "9:16"; "16:9"]) = inr m /\
    dict_get ASPECT_RATIOS "9:16" = Some R /\
    _smart_crop_dims (solid "RGB" 1000 1000 [0; 0; 255]) R =
      inr (new_width, new_height) /\
    _smart_crop_box (solid "RGB" 1000 1000 [0; 0; 255]) R "9:16" =
      inr (c_left, c_top, c_left + new_width, c_top + new_height) /\
    m !! "9:16" =
      Some (crop (solid "RGB" 1000 1000 [0; 0; 255])
                 (c_left, c_top, c_left + new_width, c_top + new_height)) /\
    0 <= c_left /\ 0 <= c_top /\
    c_left + new_width <= 1000 /\
    c_top + new_height <= 1000 /\
    (forall x y, 0 <= x < new_width -> 0 <= y < new_height ->
       im_pixels
         (crop (solid "RGB" 1000 1000 [0; 0; 255])
               (c_left, c_top, c_left + new_width, c_top + new_height))
         x y =
       im_pixels (solid "RGB" 1000 1000 [0; 0; 255]) (c_left + x) (c_top + y)).
Proof.
  apply (crop_box_within_bounds (solid "RGB" 1000 1000 [0; 0; 255])
           ["1:1"; "9:16"; "16:9"] "9:16").
  - unfold valid_size. cbn. lia.
  - intros r Hr. exact Hr.
  - apply elem_of_cons. right. apply elem_of_cons. left. reflexivity.
Defined.

(** C3, as the code has it. The crop of a supported ratio keeps the full
    height and takes [int(height * R)] columns when the source is wider
    than the nominal ratio, and keeps the full width and takes
    [int(width / R)] rows otherwise; the variant has these dimensions, and
    its ratio is within 1% of the nominal one once both of its sides are at
    least 100 pixels. *)
Theorem crop_dimensions_and_ratio (img : image) (ratios : list string)
    (name : string) :
  valid_size img ->
  (forall r, r ∈ ratios -> r ∈ ["1:1"; "9:16"; "16:9"]) ->
  name ∈ ratios ->
  let W := im_width img in
  let H := im_height img in
  exists Rn R new_width new_height m v,
    nominal_ratio name = Some Rn /\
    dict_get ASPECT_RATIOS name = Some R /\
    _smart_crop_dims img R = inr (new_width, new_height) /\
    ((Rn < inject_Z W / inject_Z H)%Q ->
     new_width = int_of_float (fmul (float_of_int H) R) /\ new_height = H) /\
    ((inject_Z W / inject_Z H <= Rn)%Q ->
     new_width = W /\ new_height = int_of_float (fdiv (float_of_int W) R)) /\
    create_variants img (Some ratios) = inr m /\
    m !! name = Some v /\
    im_width v = new_width /\ im_height v = new_height /\
    (100 <= new_width -> 100 <= new_height ->
     within_one_percent (im_width v) (im_height v) Rn).
Proof.
  intros Hv Hsup Hin W H. pose proof Hv as [HW HH]. fold W in HW. fold H in HH.
  assert (Hh : im_height img <> 0) by (fold H; lia).
  destruct (create_variants_lookup img ratios name Hh Hsup Hin)
    as (m & R & b & Em & ER & Eb & El).
  destruct (aspect_ratio_pair name R ER) as (Rn & En & HR).
  destruct (smart_crop_dims_supported img Rn R Hv HR)
    as (nw & nh & Ed & Hwide & Htall & Hnw & Hnh).
  fold W H in Hwide, Htall, Hnw, Hnh.
  destruct (smart_crop_box_shape img R name Hh (aspect_ratio_nonzero _ _ ER))
    as (nw' & nh' & l & t & Ed' & Eb' & _ & _).
  rewrite Ed in Ed'. injection Ed' as <- <-.
  rewrite Eb in Eb'. injection Eb' as ->.
  exists Rn, R, nw, nh, m, (crop img (l, t, l + nw, t + nh)).
  assert (Ew : im_width (crop img (l, t, l + nw, t + nh)) = nw)
    by (cbn; lia).
  assert (Eh : im_height (crop img (l, t, l + nw, t + nh)) = nh)
    by (cbn; lia).
  repeat split; try assumption; try tauto.
  rewrite Ew, Eh. intros Hw100 Hh100.
  destruct (Qlt_le_dec Rn (inject_Z W / inject_Z H)) as [Hlt | Hle].
  - destruct (Hwide Hlt) as [-> ->].
    apply (wide_tolerance W H HW HH Rn R HR Hlt Hw100).
  - destruct (Htall Hle) as [-> ->].
    apply (tall_tolerance W H HW HH Rn R HR Hle Hh100).
Qed.

Lemma crop_dimensions_and_ratio_witness :
  exists Rn R new_width new_height m v,
    nominal_ratio "16:9" = Some Rn /\
    dict_get ASPECT_RATIOS "16:9" = Some R /\
    _smart_crop_dims (solid "RGB" 1920 1080 [0; 0; 255]) R =
      inr (new_width, new_height) /\
    ((Rn < inject_Z 1920 / inject_Z 1080)%Q ->
     new_width = int_of_float (fmul (float_of_int 1080) R) /\
     new_height = 1080) /\
    ((inject_Z 1920 / inject_Z 1080 <= Rn)%Q ->
     new_width = 1920 /\
     new_height = int_of_float (fdiv (float_of_int 1920) R)) /\
    create_variants (solid "RGB" 1920 1080 [0; 0; 255]) (Some ["16:9"]) =
      inr m /\
    m !! "16:9" = Some v /\
    im_width v = new_width /\ im_height v = new_height /\
    (100 <= new_width -> 100 <= new_height ->
     within_one_percent (im_width v) (im_height v) Rn).
Proof.
  apply (crop_dimensions_and_ratio (solid "RGB" 1920 1080 [0; 0; 255])
           ["16:9"] "16:9").
  - unfold valid_size. cbn. lia.
  - intros r Hr. apply elem_of_cons in Hr as [-> | Hr]; [|inversion Hr].
    apply elem_of_cons. right. apply elem_of_cons. right.
    apply elem_of_cons. left. reflexivity.
  - apply elem_of_cons. left. reflexivity.
Defined.

(** C3 as stated does not hold: the "9:16" variant of a 10 x 10 image is
    5 x 10, and 5/10 is more than 1% away from 9/16 (by 1/16, which is more
    than 0.01 as well). *)
Lemma small_image_ratio_off :
  exists m v,
    create_variants (solid "RGB" 10 10 [0; 0; 255]) (Some ["9:16"]) = inr m /\
    m !! "9:16" = Some v /\
    im_width v = 5 /\ im_height v = 10 /\
    ~ within_one_percent (im_width v) (im_height v) (9 # 16) /\
    ~ (Qabs (inject_Z (im_width v) / inject_Z (im_height v) - (9 # 16)) <=
       1 # 100)%Q.
Proof.
  exists {["9:16" := crop (solid "RGB" 10 10 [0; 0; 255]) (2, 0, 7, 10)]},
    (crop (solid "RGB" 10 10 [0; 0; 255]) (2, 0, 7, 10)).
  split; [vm_compute; reflexivity|].
  split; [apply lookup_singleton_eq|].
  split; [reflexivity|]. split; [reflexivity|].
  split; vm_compute; intros Hc; apply Hc; reflexivity.
Qed.

(** ** Scenarios of the test suite *)

Example variants_of_a_square_image :
  (m ← create_variants (solid "RGB" 1000 1000 [0; 0; 255]) None;
   mret (im_size <$> m)) =
  inr {["1:1" := (1000, 1000); "9:16" := (562, 1000);
        "16:9" := (1000, 562)]}.
Proof. vm_compute. reflexivity. Qed.

Example smart_crop_wider_image :
  (im ← _smart_crop (solid "RGB" 2000 1000 [0; 0; 255]) 1 "1:1";
   mret (im_size im)) = inr (1000, 1000).
Proof. vm_compute. reflexivity. Qed.

Example smart_crop_taller_image :
  (im ← _smart_crop (solid "RGB" 1000 2000 [0; 0; 255]) 1 "1:1";
   mret (im_size im)) = inr (1000, 1000).
Proof. vm_compute. reflexivity. Qed.

Example font_size_scaling :
  _calculate_font_size default_compositor 200 200 = 20 /\
  _calculate_font_size default_compositor 1000 1000 = 48 /\
  _calculate_font_size default_compositor 2000 2000 = 96 /\
  _calculate_font_size default_compositor 4000 4000 = 120.
Proof. vm_compute. repeat split. Qed.

Example legal_severity_levels `{Unicode} :
  check_legal_compliance
    {| prohibited_words := ["guarantee"; "free"];
       severity_levels := {["guarantee" := "blocking"; "free" := "warning"]} |}
    "Get it for free and guarantee success" =
  {| passed := false;
     details := "Found 2 prohibited term(s)";
     violations :=
       ["Prohibited word 'guarantee' found (severity: blocking)";
        "Prohibited word 'free' found (severity: warning)"] |}.
Proof. vm_compute. reflexivity. Qed.

Example legal_no_configuration `{Unicode} (text : string) :
  check_legal_compliance {| prohibited_words := []; severity_levels := ∅ |} text =
  {| passed := true;
     details := "No prohibited words configured";
     violations := [] |}.
Proof. reflexivity. Qed.

(** * Further properties of the code *)

(** ** Text wrapping *)

Lemma append_nil_r (s : string) : s +:+ "" = s.
Proof.
  induction s as [| c s IH]; [reflexivity|].
  rewrite append_cons, IH. reflexivity.
Qed.

Lemma append_assoc (s t u : string) : (s +:+ t) +:+ u = s +:+ t +:+ u.
Proof.
  induction s as [| c s IH]; [reflexivity|].
  rewrite !append_cons, IH. reflexivity.
Qed.

(** [split] cuts at a white-space character. *)
Lemma split_ws_sep (a b cur : string) (c : ascii) :
  is_space c = true ->
  split_ws (a +:+ String c b) cur = (split_ws a cur ++ split_ws b "")%list.
Proof.
  intros Hc. revert cur. induction a as [| d a IH]; intros cur.
  - rewrite append_nil_l. cbn. rewrite Hc.
    destruct (decide (cur = "")); reflexivity.
  - rewrite append_cons. cbn. destruct (is_space d).
    + destruct (decide (cur = "")); rewrite IH; reflexivity.
    + apply IH.
Qed.

Lemma split_ws_word (w cur : string) :
  no_space w = true ->
  split_ws w cur = if decide (cur +:+ w = "") then [] else [cur +:+ w].
Proof.
  revert cur. induction w as [| d w IH]; intros cur Hw.
  - cbn. rewrite append_nil_r. reflexivity.
  - cbn in Hw. apply andb_true_iff in Hw as [Hd Hw].
    apply negb_true_iff in Hd. cbn. rewrite Hd, (IH _ Hw).
    rewrite append_assoc, append_cons, append_nil_l. reflexivity.
Qed.

Lemma no_space_snoc (cur : string) (d : ascii) :
  no_space cur = true -> is_space d = false ->
  no_space (cur +:+ String d "") = true.
Proof.
  intros Hcur Hd. induction cur as [| e cur IHc].
  - rewrite append_nil_l. cbn. rewrite Hd. reflexivity.
  - rewrite append_cons. cbn in *. apply andb_true_iff in Hcur as [He Hc].
    rewrite He, (IHc Hc). reflexivity.
Qed.

(** The words [split] returns are not empty and hold no white space. *)
Lemma split_ws_words (s cur : string) :
  no_space cur = true ->
  Forall (fun w => w <> "" /\ no_space w = true) (split_ws s cur).
Proof.
  revert cur. induction s as [| d s IH]; intros cur Hcur.
  - cbn. destruct (decide (cur = "")); repeat constructor; assumption.
  - cbn. destruct (is_space d) eqn:Hd.
    + destruct (decide (cur = "")); [apply IH; reflexivity|].
      constructor; [split; assumption | apply IH; reflexivity].
    + apply IH, no_space_snoc; assumption.
Qed.

Lemma py_split_concat (c : ascii) (ls : list string) :
  is_space c = true ->
  py_split (String.concat (String c "") ls) = mjoin (py_split <$> ls).
Proof.
  intros Hc. induction ls as [| x [| y r] IH]; [reflexivity | |].
  - cbn. rewrite app_nil_r. reflexivity.
  - change (String.concat (String c "") (x :: y :: r))
      with (x +:+ String c "" +:+ String.concat (String c "") (y :: r)).
    rewrite append_cons, append_nil_l. unfold py_split in *.
    rewrite split_ws_sep by exact Hc. rewrite IH. reflexivity.
Qed.

Lemma py_split_words (g : list string) :
  Forall (fun w => w <> "" /\ no_space w = true) g ->
  mjoin (py_split <$> g) = g.
Proof.
  induction 1 as [| w g [Hne Hw] _ IH]; [reflexivity|].
  change (mjoin (py_split <$> w :: g))
    with (py_split w ++ mjoin (py_split <$> g))%list.
  rewrite IH. unfold py_split. rewrite (split_ws_word _ _ Hw).
  rewrite append_nil_l. rewrite decide_False by exact Hne. reflexivity.
Qed.

Lemma join_split_lines (lines : list (list string)) :
  Forall (fun w => w <> "" /\ no_space w = true) (mjoin lines) ->
  mjoin (py_split <$> (String.concat " " <$> lines)) = mjoin lines.
Proof.
  induction lines as [| g lines IH]; intros Hw; [reflexivity|].
  change (mjoin (g :: lines)) with (g ++ mjoin lines)%list in *.
  apply Forall_app in Hw as [Hg Hw].
  change (mjoin (py_split <$> (String.concat " " <$> g :: lines)))
    with (py_split (String.concat " " g) ++
          mjoin (py_split <$> (String.concat " " <$> lines)))%list.
  rewrite (IH Hw). f_equal.
  rewrite (py_split_concat " ") by reflexivity.
  apply py_split_words, Hg.
Qed.

Section Wrapping.
Context `{Pillow}.
Variable f : font.
Variable max_width : Z.

Lemma greedy_extend (lines : list (list string)) (current : list string)
    (word : string) :
  current <> [] -> greedy f max_width (lines ++ [current])%list ->
  greedy f max_width (lines ++ [current ++ [word]])%list.
Proof.
  intros Hne Hg i g rest w Hi Hsi.
  destruct current as [| c0 current]; [contradiction|].
  destruct (decide (S i < length lines)%nat) as [Hlt | Hge].
  - apply (Hg i g rest w).
    + rewrite lookup_app_l by lia. rewrite lookup_app_l in Hi by lia. exact Hi.
    + rewrite lookup_app_l by lia.
      rewrite lookup_app_l in Hsi by lia. exact Hsi.
  - destruct (decide (S i = length lines)) as [He | Hne'].
    + rewrite lookup_app_r in Hsi by lia.
      replace (S i - length lines)%nat with 0%nat in Hsi by lia.
      cbn in Hsi. injection Hsi as <- <-.
      apply (Hg i g current c0).
      * rewrite lookup_app_l by lia.
        rewrite lookup_app_l in Hi by lia. exact Hi.
      * rewrite lookup_app_r by lia.
        replace (S i - length lines)%nat with 0%nat by lia. reflexivity.
    + apply lookup_lt_Some in Hsi. rewrite length_app in Hsi. cbn in Hsi. lia.
Qed.

Lemma greedy_close (lines : list (list string)) (current : list string)
    (word : string) :
  (current = [] -> lines = []) ->
  greedy f max_width (wrap_chain lines current) ->
  ~ line_fits f max_width (current ++ [word])%list ->
  greedy f max_width (wrap_chain lines current ++ [[word]])%list.
Proof.
  intros Hemp Hg Hnf i g rest w Hi Hsi.
  set (L := wrap_chain lines current) in *.
  destruct (decide (S i < length L)%nat) as [Hlt | Hge].
  - apply (Hg i g rest w).
    + rewrite lookup_app_l in Hi by lia. exact Hi.
    + rewrite lookup_app_l in Hsi by lia. exact Hsi.
  - destruct (decide (S i = length L)) as [He | Hne'].
    + rewrite lookup_app_r in Hsi by lia.
      replace (S i - length L)%nat with 0%nat in Hsi by lia.
      cbn in Hsi. injection Hsi as <- <-.
      rewrite lookup_app_l in Hi by lia.
      unfold L, wrap_chain in Hi, He. destruct current as [| c0 current].
      * rewrite (Hemp eq_refl) in He. discriminate.
      * rewrite length_app in He. cbn in He.
        rewrite lookup_app_r in Hi by lia.
        replace (i - length lines)%nat with 0%nat in Hi by lia.
        cbn in Hi. injection Hi as <-. exact Hnf.
    + apply lookup_lt_Some in Hsi. rewrite length_app in Hsi. cbn in Hsi. lia.
Qed.

(** The loop of [_wrap_text] keeps the words in order, closes a line only
    when the next word does not fit, and never leaves a line empty. *)
Lemma wrap_loop_groups (words : list string) :
  forall (lines : list (list string)) (current : list string),
    Forall (line_ok f max_width) lines ->
    (current = [] \/ line_ok f max_width current) ->
    (current = [] -> lines = []) ->
    greedy f max_width (wrap_chain lines current) ->
    exists lines' current',
      wrap_loop f max_width words (String.concat " " <$> lines) current =
        (String.concat " " <$> lines', current') /\
      Forall (line_ok f max_width) lines' /\
      (current' = [] \/ line_ok f max_width current') /\
      greedy f max_width (wrap_chain lines' current') /\
      (mjoin lines' ++ current' = mjoin lines ++ current ++ words)%list.
Proof.
  induction words as [| word rest IH]; intros lines current Hl Hc Hemp Hg.
  - exists lines, current. rewrite app_nil_r. repeat split; assumption.
  - cbn [wrap_loop]. cbv zeta.
    set (test_line := String.concat " " (current ++ [word])).
    destruct (decide (box2 (textbbox test_line f) -
                      box0 (textbbox test_line f) <= max_width))
      as [Hfit | Hnofit].
    + destruct (IH lines (current ++ [word])%list)
        as (l' & c' & E & ? & ? & ? & Ej).
      * exact Hl.
      * right. split; [destruct current; discriminate | left; exact Hfit].
      * intros Ec. destruct current; discriminate.
      * destruct current as [| c0 current].
        -- rewrite (Hemp eq_refl). intros i g r w Hi Hsi.
           destruct i; discriminate.
        -- apply greedy_extend; [discriminate | exact Hg].
      * exists l', c'. repeat split; try assumption.
        rewrite Ej, <- !app_assoc. reflexivity.
    + assert (El : match current with
                   | [] => String.concat " " <$> lines
                   | _ :: _ => ((String.concat " " <$> lines) ++
                                [String.concat " " current])%list
                   end = String.concat " " <$> wrap_chain lines current).
      { destruct current; [reflexivity|]. unfold wrap_chain.
        rewrite fmap_app. reflexivity. }
      rewrite El.
      destruct (IH (wrap_chain lines current) [word])
        as (l' & c' & E & ? & ? & ? & Ej).
      * unfold wrap_chain. destruct current as [| c0 current]; [exact Hl|].
        apply Forall_app. split; [exact Hl|]. constructor; [|constructor].
        destruct Hc as [Hc | Hc]; [discriminate | exact Hc].
      * right. split; [discriminate | right; reflexivity].
      * discriminate.
      * apply greedy_close; assumption.
      * exists l', c'. repeat split; try assumption.
        rewrite Ej. unfold wrap_chain. destruct current as [| c0 current].
        -- reflexivity.
        -- rewrite join_app. cbn. rewrite app_nil_r, <- !app_assoc. reflexivity.
Qed.

(** The text [_wrap_text] returns, line by line. *)
Lemma wrap_text_groups (text : string) :
  exists lines : list (list string),
    _wrap_text text f max_width =
      String.concat newline (String.concat " " <$> lines) /\
    mjoin lines = py_split text /\
    Forall (line_ok f max_width) lines /\
    greedy f max_width lines.
Proof.
  unfold _wrap_text.
  destruct (wrap_loop_groups (py_split text) [] [])
    as (l' & c' & E & Hl & Hc & Hg & Ej).
  - constructor.
  - left. reflexivity.
  - reflexivity.
  - intros i g r w Hi. destruct i; discriminate.
  - change (String.concat " " <$> []) with (@nil string) in E. rewrite E.
    exists (wrap_chain l' c'). split; [|split; [|split]].
    + unfold wrap_chain. destruct c'; [reflexivity|].
      rewrite fmap_app. reflexivity.
    + cbn in Ej. rewrite <- Ej. unfold wrap_chain. destruct c'.
      * rewrite app_nil_r. reflexivity.
      * rewrite join_app. cbn. rewrite app_nil_r. reflexivity.
    + unfold wrap_chain. destruct c' as [| c0 c']; [exact Hl|].
      apply Forall_app. split; [exact Hl|]. constructor; [|constructor].
      destruct Hc as [Hc | Hc]; [discriminate | exact Hc].
    + exact Hg.
Qed.

End Wrapping.

(** X1. Wrapping only changes the white space of a text: the words of the
    wrapped text, in order, are the words of the text, so that wrapping a
    wrapped text again returns it unchanged. *)
Theorem wrap_text_keeps_words `{Pillow} (text : string) (f : font)
    (max_width : Z) :
  py_split (_wrap_text text f max_width) = py_split text /\
  _wrap_text (_wrap_text text f max_width) f max_width =
    _wrap_text text f max_width.
Proof.
  assert (E : py_split (_wrap_text text f max_width) = py_split text).
  { destruct (wrap_text_groups f max_width text) as (lines & -> & Ej & _ & _).
    rewrite (py_split_concat (ascii_of_nat 10)) by reflexivity.
    rewrite <- Ej. apply join_split_lines.
    rewrite Ej. apply split_ws_words. reflexivity. }
  split; [exact E|]. unfold _wrap_text at 1 3. rewrite E. reflexivity.
Qed.


(** ** More on the variants *)

Lemma smart_crop_of_box (img : image) (R : Q) (name : string) (b : box) :
  _smart_crop_box img R name = inr b ->
  _smart_crop img R name = inr (crop img b).
Proof. intros E. unfold _smart_crop. rewrite E. reflexivity. Qed.

(** X3. A request of supported names yields one variant for each name
    requested and none for any other name; the variant of a name is the one
    a request for that name alone yields, wherever and however often the
    name occurs in the list. No list at all stands for the three supported
    names. *)
Theorem create_variants_keys (img : image) (ratios : list string) :
  im_height img <> 0 ->
  (forall r, r ∈ ratios -> r ∈ ["1:1"; "9:16"; "16:9"]) ->
  (exists m,
     create_variants img (Some ratios) = inr m /\
     forall name,
       (name ∈ ratios ->
        exists v, create_variants img (Some [name]) = inr {[name := v]} /\
                  m !! name = Some v) /\
       (name ∉ ratios -> m !! name = None)) /\
  create_variants img None = create_variants img (Some ["1:1"; "9:16"; "16:9"]).
Proof.
  intros Hh Hsup. split; [|reflexivity].
  destruct (create_variants_loop_lookup img ratios Hh Hsup ∅) as (m & Em & Hm).
  exists m. split; [exact Em|]. intros name. split.
  - intros Hin. destruct (proj1 (Hm name) Hin) as (R & b & ER & Eb & El).
    exists (crop img b). split; [|exact El].
    unfold create_variants. cbn [create_variants_loop]. rewrite ER.
    rewrite (smart_crop_of_box _ _ _ _ Eb). cbn. rewrite insert_empty.
    reflexivity.
  - intros Hnot. rewrite (proj2 (Hm name) Hnot). apply lookup_empty.
Qed.

Lemma create_variants_keys_witness :
  let img := solid "RGB" 1000 1000 [0; 0; 255] in
  let ratios := ["16:9"; "1:1"; "16:9"] in
  (exists m,
     create_variants img (Some ratios) = inr m /\
     forall name,
       (name ∈ ratios ->
        exists v, create_variants img (Some [name]) = inr {[name := v]} /\
                  m !! name = Some v) /\
       (name ∉ ratios -> m !! name = None)) /\
  create_variants img None = create_variants img (Some ["1:1"; "9:16"; "16:9"]).
Proof.
  intros img ratios. apply (create_variants_keys img ratios).
  - cbn. discriminate.
  - intros r Hr. unfold ratios in Hr. rewrite !elem_of_cons in *.
    rewrite elem_of_nil in Hr. tauto.
Defined.

Lemma ratio_pair_le (Rn Rf : Q) : ratio_pair Rn Rf -> (0 < Rf /\ Rf <= Rn)%Q.
Proof. intros [[-> ->] | [[-> ->] | [-> ->]]]; split; lra. Qed.

Section ExactRatio.
Local Open Scope Q_scope.

Variables W H : Z.
Hypothesis HW : (0 < W < 2 ^ 31)%Z.
Hypothesis HH : (0 < H < 2 ^ 31)%Z.

(** A source in the proportion of the target keeps its height. *)
Lemma exact_ratio_height (Rn Rf : Q) :
  ratio_pair Rn Rf -> inject_Z W / inject_Z H == Rn ->
  int_of_float (fdiv (float_of_int W) Rf) = H.
Proof.
  intros HR E.
  assert (Hle : inject_Z W / inject_Z H <= Rn) by (rewrite E; apply Qle_refl).
  destruct (tall_crop_height W H HW HH Rn Rf HR Hle) as (Hb & I1 & I2 & _).
  destruct (ratio_pair_le Rn Rf HR) as [Hf0 Hfn].
  destruct (Hq_range H HH) as [Hh1 Hh2].
  assert (EW : inject_Z W == Rn * inject_Z H).
  { rewrite <- E. field. lra. }
  assert (Hx : inject_Z H <= inject_Z W / Rf).
  { apply Qle_shift_div_l; [exact Hf0|]. rewrite EW. nra. }
  apply round64_mono in Hx.
  rewrite (round64_Z H) in Hx by lia.
  assert (H < int_of_float (fdiv (float_of_int W) Rf) + 1)%Z.
  { rewrite Zlt_Qlt, inject_Z_succ. lra. }
  lia.
Qed.

(** The crop of a source of two pixels or more each way is not empty. *)
Lemma wide_crop_width_pos (Rn Rf : Q) :
  ratio_pair Rn Rf -> Rn < inject_Z W / inject_Z H -> (2 <= H)%Z ->
  (1 <= int_of_float (fmul (float_of_int H) Rf))%Z.
Proof.
  intros HR Hlt H2.
  destruct (wide_crop_width W H HW HH Rn Rf HR Hlt) as (_ & _ & I2 & I3 & _).
  assert (Hh : 2 <= inject_Z H).
  { change 2 with (inject_Z 2). rewrite <- Zle_Qle. exact H2. }
  set (p := round64 (inject_Z H * Rf)) in *. clearbody p.
  rewrite eps64_value in *.
  assert (0 < int_of_float (fmul (float_of_int H) Rf))%Z; [|lia].
  rewrite Zlt_Qlt. change (inject_Z 0) with 0.
  destruct HR as [[-> ->] | [[-> ->] | [-> ->]]]; lra.
Qed.

Lemma tall_crop_height_pos (Rn Rf : Q) :
  ratio_pair Rn Rf -> inject_Z W / inject_Z H <= Rn -> (2 <= W)%Z ->
  (1 <= int_of_float (fdiv (float_of_int W) Rf))%Z.
Proof.
  intros HR Hle W2.
  destruct (tall_crop_height W H HW HH Rn Rf HR Hle) as (_ & _ & I2 & I3 & _).
  assert (Hw : 2 <= inject_Z W).
  { change 2 with (inject_Z 2). rewrite <- Zle_Qle. exact W2. }
  destruct (ratio_pair_le Rn Rf HR) as [Hf0 Hfn].
  assert (Ex : inject_Z W / Rf * Rf == inject_Z W) by (field; lra).
  set (x := inject_Z W / Rf) in *.
  set (p := round64 x) in *. clearbody p x.
  rewrite eps64_value in *.
  assert (0 < int_of_float (fdiv (float_of_int W) Rf))%Z; [|lia].
  rewrite Zlt_Qlt. change (inject_Z 0) with 0.
  destruct HR as [[-> ->] | [[-> ->] | [-> ->]]]; nra.
Qed.

End ExactRatio.

(** X4. A source image already in the proportion of the requested ratio is
    not cropped: its variant has the mode, the size and every pixel of the
    source. *)
Theorem exact_ratio_uncropped (img : image) (ratios : list string)
    (name : string) (Rn : Q) :
  valid_size img ->
  (forall r, r ∈ ratios -> r ∈ ["1:1"; "9:16"; "16:9"]) ->
  name ∈ ratios ->
  nominal_ratio name = Some Rn ->
  (inject_Z (im_width img) / inject_Z (im_height img) == Rn)%Q ->
  exists m v,
    create_variants img (Some ratios) = inr m /\
    m !! name = Some v /\
    v = crop img (0, 0, im_width img, im_height img) /\
    im_mode v = im_mode img /\
    im_width v = im_width img /\ im_height v = im_height img /\
    (forall x y, 0 <= x < im_width img -> 0 <= y < im_height img ->
       im_pixels v x y = im_pixels img x y).
Proof.
  intros Hv Hsup Hin En E. pose proof Hv as [HW HH].
  assert (Hh : im_height img <> 0) by lia.
  destruct (create_variants_lookup img ratios name Hh Hsup Hin)
    as (m & R & b & Em & ER & Eb & El).
  destruct (aspect_ratio_pair name R ER) as (Rn' & En' & HR).
  rewrite En in En'. injection En' as <-.
  destruct (smart_crop_dims_supported img Rn R Hv HR)
    as (nw & nh & Ed & _ & Htall & _).
  destruct Htall as [-> ->]; [rewrite E; apply Qle_refl|].
  rewrite (exact_ratio_height _ _ HW HH Rn R HR E) in Ed.
  destruct (smart_crop_box_shape img R name Hh (aspect_ratio_nonzero _ _ ER))
    as (nw' & nh' & l & t & Ed' & Eb' & El' & Et').
  rewrite Ed in Ed'. injection Ed' as <- <-.
  rewrite Eb in Eb'. injection Eb' as ->.
  rewrite Z.sub_diag in El', Et'.
  assert (l = 0) as -> by (subst l; reflexivity).
  assert (t = 0) as ->.
  { subst t. destruct (decide (name = "9:16")); vm_compute; reflexivity. }
  exists m, (crop img (0, 0, im_width img, im_height img)).
  split; [exact Em|]. split; [exact El|]. split; [reflexivity|].
  split; [reflexivity|]. split; [cbn; lia|]. split; [cbn; lia|].
  intros x y Hx Hy. cbn. rewrite decide_True by lia. reflexivity.
Qed.

Lemma exact_ratio_uncropped_witness :
  let img := solid "RGB" 1920 1080 [0; 0; 255] in
  exists m v,
    create_variants img (Some ["16:9"]) = inr m /\
    m !! "16:9" = Some v /\
    v = crop img (0, 0, im_width img, im_height img) /\
    im_mode v = im_mode img /\
    im_width v = im_width img /\ im_height v = im_height img /\
    (forall x y, 0 <= x < im_width img -> 0 <= y < im_height img ->
       im_pixels v x y = im_pixels img x y).
Proof.
  intros img.
  apply (exact_ratio_uncropped img ["16:9"] "16:9" (16 # 9)).
  - unfold valid_size. cbn. lia.
  - intros r Hr. rewrite !elem_of_cons in *. rewrite elem_of_nil in Hr. tauto.
  - apply elem_of_cons. left. reflexivity.
  - reflexivity.
  - reflexivity.
Defined.

(** X5. The variants of a source of at least two pixels each way are not
    empty: both sides of every variant are at least one pixel. Two pixels
    are needed: the "9:16" variant of a one-pixel image has no column, and
    its "16:9" variant no row. *)
Theorem variants_not_empty (img : image) (ratios : list string)
    (name : string) :
  valid_size img -> 2 <= im_width img -> 2 <= im_height img ->
  (forall r, r ∈ ratios -> r ∈ ["1:1"; "9:16"; "16:9"]) ->
  name ∈ ratios ->
  (exists m v,
     create_variants img (Some ratios) = inr m /\
     m !! name = Some v /\
     1 <= im_width v <= im_width img /\
     1 <= im_height v <= im_height img) /\
  (m ← create_variants (solid "RGB" 1 1 [0; 0; 255]) (Some ["9:16"; "16:9"]);
   mret (im_size <$> m)) =
    inr {["9:16" := (0, 1); "16:9" := (1, 0)]}.
Proof.
  intros Hv W2 H2 Hsup Hin. split; [|vm_compute; reflexivity].
  pose proof Hv as [HW HH].
  assert (Hh : im_height img <> 0) by lia.
  destruct (create_variants_lookup img ratios name Hh Hsup Hin)
    as (m & R & b & Em & ER & Eb & El).
  destruct (aspect_ratio_pair name R ER) as (Rn & _ & HR).
  destruct (smart_crop_dims_supported img Rn R Hv HR)
    as (nw & nh & Ed & Hwide & Htall & Hnw & Hnh).
  destruct (smart_crop_box_shape img R name Hh (aspect_ratio_nonzero _ _ ER))
    as (nw' & nh' & l & t & Ed' & Eb' & _ & _).
  rewrite Ed in Ed'. injection Ed' as <- <-.
  rewrite Eb in Eb'. injection Eb' as ->.
  exists m, (crop img (l, t, l + nw, t + nh)).
  split; [exact Em|]. split; [exact El|]. cbn.
  replace (l + nw - l) with nw by lia. replace (t + nh - t) with nh by lia.
  destruct (Qlt_le_dec Rn (inject_Z (im_width img) / inject_Z (im_height img)))
    as [Hlt | Hle].
  - destruct (Hwide Hlt) as [-> ->].
    pose proof (wide_crop_width_pos _ _ HW HH Rn R HR Hlt H2). lia.
  - destruct (Htall Hle) as [-> ->].
    pose proof (tall_crop_height_pos _ _ HW HH Rn R HR Hle W2). lia.
Qed.

Lemma variants_not_empty_witness :
  let img := solid "RGB" 2 2 [0; 0; 255] in
  (exists m v,
     create_variants img (Some ["9:16"]) = inr m /\
     m !! "9:16" = Some v /\
     1 <= im_width v <= im_width img /\
     1 <= im_height v <= im_height img) /\
  (m ← create_variants (solid "RGB" 1 1 [0; 0; 255]) (Some ["9:16"; "16:9"]);
   mret (im_size <$> m)) =
    inr {["9:16" := (0, 1); "16:9" := (1, 0)]}.
Proof.
  intros img. apply (variants_not_empty img ["9:16"] "9:16").
  - unfold valid_size. cbn. lia.
  - cbn. lia.
  - cbn. lia.
  - intros r Hr. rewrite !elem_of_cons in *. rewrite elem_of_nil in Hr. tauto.
  - apply elem_of_cons. left. reflexivity.
Defined.

(** ** Degenerate sources *)

(** X6. An image of height 0 cannot be cropped: the ratio of its sides is
    a division by zero. A request whose first name is supported raises
    [ZeroDivisionError], one whose first name is not supported raises the
    [ValueError] of that name, and only the empty request returns, with the
    empty mapping. *)
Theorem zero_height_source (img : image) :
  im_height img = 0 ->
  create_variants img (Some []) = inr ∅ /\
  forall name rest,
    create_variants img (Some (name :: rest)) =
      inl (if decide (name ∈ ["1:1"; "9:16"; "16:9"]) then ZeroDivisionError
           else ValueError ("Unsupported aspect ratio: " +:+ name)).
Proof.
  intros Hh. split; [reflexivity|]. intros name rest.
  unfold create_variants. cbn [create_variants_loop].
  destruct (decide (name ∈ ["1:1"; "9:16"; "16:9"])) as [Hin | Hnot].
  - destruct (dict_get ASPECT_RATIOS name) as [R |] eqn:E.
    + unfold _smart_crop, _smart_crop_box, _smart_crop_dims, int_truediv.
      rewrite decide_True by exact Hh. reflexivity.
    + apply aspect_ratio_unsupported in E. contradiction.
  - apply aspect_ratio_unsupported in Hnot. rewrite Hnot. reflexivity.
Qed.

Lemma zero_height_source_witness :
  let img := solid "RGB" 10 0 [0; 0; 255] in
  create_variants img (Some []) = inr ∅ /\
  forall name rest,
    create_variants img (Some (name :: rest)) =
      inl (if decide (name ∈ ["1:1"; "9:16"; "16:9"]) then ZeroDivisionError
           else ValueError ("Unsupported aspect ratio: " +:+ name)).
Proof.
  intros img. apply (zero_height_source img). reflexivity.
Defined.

(** ** More on the overlay *)

Lemma float_255 : float_of_int 255 = 255%Q.
Proof. vm_compute. reflexivity. Qed.

(** [int(opacity * 255)] of an opacity between 0 and 1 is a channel value. *)
Lemma alpha_channel (a : Q) :
  (0 <= a <= 1)%Q -> 0 <= int_of_float (fmul a (float_of_int 255)) <= 255.
Proof.
  intros [Ha0 Ha1]. rewrite float_255. unfold fmul. split.
  - apply int_of_float_nonneg, round64_nonneg. lra.
  - assert (Hle : (round64 (a * 255) <= round64 255)%Q)
      by (apply round64_mono; lra).
    apply int_of_float_mono in Hle.
    replace (int_of_float (round64 255)) with 255 in Hle
      by (vm_compute; reflexivity).
    exact Hle.
Qed.

Lemma adjusted_opacity_in_range (b v : Q) :
  (0 <= b <= 1)%Q ->
  (0 <= (if Qlt_le_dec 180 v then
           py_min (fadd b (float_lit (3 # 10))) (float_lit (9 # 10))
         else if Qlt_le_dec 120 v then
           py_min (fadd b (float_lit (15 # 100))) (float_lit (8 # 10))
         else if Qlt_le_dec v 60 then
           py_max (fsub b (float_lit (2 # 10))) (float_lit (3 # 10))
         else b) <= 1)%Q.
Proof.
  intros Hb.
  assert (E1 : (round64 1 == 1)%Q) by (vm_compute; reflexivity).
  assert (E0 : (round64 0 == 0)%Q) by (vm_compute; reflexivity).
  destruct (Qlt_le_dec 180 _); [|destruct (Qlt_le_dec 120 _);
    [|destruct (Qlt_le_dec _ 60)]].
  - pose proof (py_min_spec (fadd b (float_lit (3 # 10)))
                            (float_lit (9 # 10))) as E. rewrite E.
    assert (N : (0 <= fadd b (float_lit (3 # 10)))%Q).
    { apply round64_nonneg.
      replace (float_lit (3 # 10))
        with (5404319552844595 # 18014398509481984)%Q
        by (vm_compute; reflexivity). lra. }
    replace (float_lit (9 # 10))
      with (8106479329266893 # 9007199254740992)%Q in *
      by (vm_compute; reflexivity).
    split.
    + apply Q.min_glb; [exact N | lra].
    + pose proof (Q.le_min_r (fadd b (float_lit (3 # 10)))
                   (8106479329266893 # 9007199254740992)). lra.
  - pose proof (py_min_spec (fadd b (float_lit (15 # 100)))
                            (float_lit (8 # 10))) as E. rewrite E.
    assert (N : (0 <= fadd b (float_lit (15 # 100)))%Q).
    { apply round64_nonneg.
      replace (float_lit (15 # 100))
        with (5404319552844595 # 36028797018963968)%Q
        by (vm_compute; reflexivity). lra. }
    replace (float_lit (8 # 10))
      with (3602879701896397 # 4503599627370496)%Q in *
      by (vm_compute; reflexivity).
    split.
    + apply Q.min_glb; [exact N | lra].
    + pose proof (Q.le_min_r (fadd b (float_lit (15 # 100)))
                   (3602879701896397 # 4503599627370496)). lra.
  - pose proof (py_max_spec (fsub b (float_lit (2 # 10)))
                            (float_lit (3 # 10))) as E. rewrite E.
    assert (N : (fsub b (float_lit (2 # 10)) <= 1)%Q).
    { rewrite <- E1. apply round64_mono.
      replace (float_lit (2 # 10))
        with (3602879701896397 # 18014398509481984)%Q
        by (vm_compute; reflexivity). lra. }
    replace (float_lit (3 # 10))
      with (5404319552844595 # 18014398509481984)%Q in *
      by (vm_compute; reflexivity).
    split.
    + pose proof (Q.le_max_r (fsub b (float_lit (2 # 10)))
                   (5404319552844595 # 18014398509481984)). lra.
    + apply Q.max_lub; [exact N | lra].
  - exact Hb.
Qed.

(** X7. With a base opacity between 0 and 1, the contrast analysis returns
    an opacity whenever the brightness of the region is measured, that
    opacity is between 0 and 1 as well, whatever the brightness, and the
    alpha of the panel, [int(opacity * 255)], is a channel value between 0
    and 255 in both overlay operations. *)
Theorem contrast_opacity_in_range `{Pillow} (self : ImageCompositor)
    (img : image) (text_region : box) :
  (0 <= background_opacity self <= 1)%Q ->
  (forall v, region_brightness img text_region = inr v ->
     exists opacity, _ensure_contrast self img text_region = inr opacity) /\
  (forall opacity, _ensure_contrast self img text_region = inr opacity ->
     (0 <= opacity <= 1)%Q /\
     0 <= int_of_float (fmul opacity (float_of_int 255)) <= 255) /\
  0 <= int_of_float (fmul (background_opacity self) (float_of_int 255)) <= 255.
Proof.
  intros Hb. split; [|split].
  - intros v E. unfold _ensure_contrast. rewrite E. cbn. eauto.
  - intros opacity E. unfold _ensure_contrast in E.
    destruct (region_brightness img text_region) as [e | v];
      [discriminate|].
    cbn in E. injection E as <-.
    pose proof (adjusted_opacity_in_range (background_opacity self) v Hb)
      as Ha.
    split; [exact Ha | apply alpha_channel; exact Ha].
  - apply alpha_channel; assumption.
Qed.

Lemma contrast_opacity_in_range_witness :
  let img := solid "RGB" 100 100 [0; 0; 0] in
  let region : box := (0, 0, 100, 100) in
  exists opacity,
    @_ensure_contrast blank_pillow default_compositor img region =
      inr opacity /\
    (0 <= opacity <= 1)%Q /\
    0 <= int_of_float (fmul opacity (float_of_int 255)) <= 255 /\
    0 <= int_of_float (fmul (background_opacity default_compositor)
                            (float_of_int 255)) <= 255.
Proof.
  intros img region.
  destruct (@contrast_opacity_in_range blank_pillow default_compositor
              img region) as (T & P & A).
  { vm_compute. split; discriminate. }
  destruct (T 0%Q) as (opacity & E); [vm_compute; reflexivity|].
  exists opacity. split; [exact E|].
  destruct (P opacity E) as [P1 P2]. auto.
Defined.

Section OverlayRelations.
Context `{Pillow}.

Lemma image_copy_run (h : heap) (input : ref) (im : image) :
  h !! input = Some im ->
  image_copy input h = (inr (fresh (dom h)), <[fresh (dom h) := im]> h).
Proof.
  intros Hin. unfold image_copy.
  rewrite (bind_run _ _ h h im) by (apply deref_run, Hin). reflexivity.
Qed.

(** X8. The contrast-adaptive overlay is the plain overlay run with the
    opacity the contrast analysis returns for its text region, which lies
    within the image: nothing else differs. When the brightness measured
    there lies between 60 and 120, both operations return the same image.
    When the analysis raises, so does the adaptive overlay. *)
Theorem contrast_overlay_is_plain_overlay (self : ImageCompositor) (h : heap)
    (input : ref) (im : image) (text : string) (position : option string) :
  h !! input = Some im ->
  let region := overlay_text_region self im text position in
  (0 <= box0 region /\ 0 <= box1 region /\
   box2 region <= im_width im /\ box3 region <= im_height im) /\
  match _ensure_contrast self im region with
  | inr opacity =>
      add_text_overlay_with_contrast self input text position h =
        add_text_overlay (with_background_opacity self opacity)
          input text position h
  | inl e =>
      (add_text_overlay_with_contrast self input text position h).1 = inl e
  end /\
  (forall v, region_brightness im region = inr v -> (60 <= v <= 120)%Q ->
     add_text_overlay_with_contrast self input text position h =
       add_text_overlay self input text position h).
Proof.
  intros Hin region.
  set (r1 := fresh (dom h)). set (h1 := <[r1 := im]> h).
  assert (L1 : h1 !! r1 = Some im) by apply lookup_insert_eq.
  assert (Hc : forall k : ref -> image -> M ref,
             ((image_copy input ≫= fun c => deref c ≫= k c) : M ref) h =
             k r1 im h1).
  { intros k. rewrite (bind_run _ _ h h1 r1) by (apply image_copy_run, Hin).
    rewrite (bind_run _ _ h1 h1 im) by (apply deref_run, L1). reflexivity. }
  unfold add_text_overlay_with_contrast, add_text_overlay.
  rewrite !Hc. cbv zeta.
  change (_ensure_contrast self im _)
    with (_ensure_contrast self im region).
  split; [|split].
  - unfold region, overlay_text_region, box0, box1, box2, box3.
    cbn [fst snd]. repeat split; lia.
  - destruct (_ensure_contrast self im region) as [e | opacity];
      [reflexivity|].
    rewrite Hc. reflexivity.
  - intros v Ev [Hlo Hhi].
    assert (E : _ensure_contrast self im region =
                inr (background_opacity self)).
    { unfold _ensure_contrast. rewrite Ev. cbn.
      destruct (Qlt_le_dec 180 _); [lra|].
      destruct (Qlt_le_dec 120 _); [lra|].
      destruct (Qlt_le_dec _ 60); [lra|]. reflexivity. }
    rewrite E. reflexivity.
Qed.

(** The rest of an overlay operation depends on the position through
    [or_default] and [anchor_y] only. *)
Lemma anchor_y_other (self : ImageCompositor) (pos : string) (ih th : Z) :
  pos <> "bottom" -> pos <> "top" ->
  anchor_y self pos ih th = anchor_y self "center" ih th.
Proof.
  intros Hb Ht. unfold anchor_y.
  rewrite !(decide_False (P := pos = _)) by assumption. reflexivity.
Qed.

(** X9. A position override that is empty stands for the configured
    position, and a position name other than "bottom" and "top" is laid out
    as "center", in both overlay operations. *)
Theorem overlay_position_fallback (self : ImageCompositor) (h : heap)
    (input : ref) (text : string) :
  add_text_overlay self input text (Some "") h =
    add_text_overlay self input text None h /\
  add_text_overlay_with_contrast self input text (Some "") h =
    add_text_overlay_with_contrast self input text None h /\
  forall pos, pos <> "" -> pos <> "bottom" -> pos <> "top" ->
    add_text_overlay self input text (Some pos) h =
      add_text_overlay self input text (Some "center") h /\
    add_text_overlay_with_contrast self input text (Some pos) h =
      add_text_overlay_with_contrast self input text (Some "center") h.
Proof.
  split; [reflexivity|]. split; [reflexivity|].
  intros pos Hne Hb Ht.
  assert (Ep : forall d, or_default (Some pos) d = pos).
  { intros d. unfold or_default. rewrite decide_False by exact Hne.
    reflexivity. }
  assert (Ec : forall d, or_default (Some "center") d = "center")
    by reflexivity.
  unfold add_text_overlay, add_text_overlay_with_contrast.
  unfold mbind, M_bind.
  destruct (image_copy input h) as [[e | r] h1]; [split; reflexivity|].
  destruct (deref r h1) as [[e | im] h2]; [split; reflexivity|].
  cbv zeta. rewrite !Ep, !Ec.
  rewrite !(anchor_y_other self pos) by assumption.
  split; reflexivity.
Qed.

(** X10. The font of the overlay: the configured family when it loads,
    otherwise the first of the five common font files that loads, otherwise
    Pillow's built-in font. *)
Theorem load_font_fallback (self : ImageCompositor) (font_size : Z) :
  let candidates := font_family self :: common_fonts in
  ((forall path, path ∈ candidates -> truetype path font_size = None) ->
   _load_font self font_size = load_default) /\
  (forall before path after fnt,
     candidates = (before ++ path :: after)%list ->
     (forall p, p ∈ before -> truetype p font_size = None) ->
     truetype path font_size = Some fnt ->
     _load_font self font_size = fnt).
Proof.
  intros candidates.
  assert (E : _load_font self font_size =
              default load_default (first_truetype candidates font_size)).
  { unfold _load_font, candidates. cbn [first_truetype].
    destruct (truetype (font_family self) font_size); [reflexivity|].
    destruct (first_truetype common_fonts font_size); reflexivity. }
  rewrite E. clear E. generalize candidates. clear candidates.
  intros candidates. split.
  - intros Hnone. induction candidates as [| p ps IH]; [reflexivity|].
    cbn [first_truetype]. rewrite (Hnone p) by (apply elem_of_cons; auto).
    apply IH. intros q Hq. apply Hnone, elem_of_cons. auto.
  - intros before path after fnt -> Hbefore Hpath.
    induction before as [| p ps IH].
    + cbn [app first_truetype]. rewrite Hpath. reflexivity.
    + cbn [app first_truetype].
      rewrite (Hbefore p) by (apply elem_of_cons; auto).
      apply IH. intros q Hq. apply Hbefore, elem_of_cons. auto.
Qed.

End OverlayRelations.

Lemma contrast_overlay_is_plain_overlay_witness :
  let im := solid "RGB" 1000 1000 [0; 0; 255] in
  let h : heap := {[1%positive := im]} in
  let region :=
    @overlay_text_region blank_pillow default_compositor im
      "Start your day right" None in
  (0 <= box0 region /\ 0 <= box1 region /\
   box2 region <= im_width im /\ box3 region <= im_height im) /\
  match @_ensure_contrast blank_pillow default_compositor im region with
  | inr opacity =>
      @add_text_overlay_with_contrast blank_pillow default_compositor
        1%positive "Start your day right" None h =
        @add_text_overlay blank_pillow
          (with_background_opacity default_compositor opacity)
          1%positive "Start your day right" None h
  | inl e =>
      (@add_text_overlay_with_contrast blank_pillow default_compositor
         1%positive "Start your day right" None h).1 = inl e
  end /\
  (forall v, @region_brightness blank_pillow im region = inr v ->
     (60 <= v <= 120)%Q ->
     @add_text_overlay_with_contrast blank_pillow default_compositor
       1%positive "Start your day right" None h =
       @add_text_overlay blank_pillow default_compositor
         1%positive "Start your day right" None h).
Proof.
  intros im h.
  apply (@contrast_overlay_is_plain_overlay blank_pillow default_compositor h
           1%positive im "Start your day right" None).
  apply lookup_singleton_eq.
Defined.

(** ** The image an overlay returns *)

Section OverlayResult.
Context `{Pillow}.



End OverlayResult.


(** ** More on brand compliance *)

Section BrandMore.
Context `{Vision} `{Colors.Clustering}.

(** What [_detect_logo] may change in the configuration is the cache. *)
Lemma detect_logo_config (fs : filesystem) (brand_config cfg' : BrandConfig)
    (img : image) (d : bool) :
  _detect_logo fs brand_config img = inr (d, cfg') ->
  logo_template_path cfg' = logo_template_path brand_config /\
  brand_colors cfg' = brand_colors brand_config /\
  min_logo_confidence cfg' = min_logo_confidence brand_config.
Proof.
  unfold _detect_logo, load_logo_template.
  destruct (path_set brand_config) as [p |]; cycle 1.
  { intros E. injection E as <- <-. auto. }
  destruct (_logo_template brand_config) as [t |].
  { cbn. intros E. injection E as <- <-. auto. }
  destruct (fs p) as [| template_img |]; cbn; intros E;
    try discriminate; injection E as <- <-; auto.
Qed.

(** X12. The logo template is read once: after a call of
    [load_logo_template] that returned a template, every later call returns
    that template whatever the file system holds by then, without touching
    the configuration. A call that found no template leaves the
    configuration as it was, so that the file is looked for again. *)
Theorem logo_template_cached (fs : filesystem) (brand_config cfg' : BrandConfig)
    (t : option array) :
  load_logo_template fs brand_config = inr (t, cfg') ->
  (forall template, t = Some template ->
     forall fs', load_logo_template fs' cfg' = inr (Some template, cfg')) /\
  (t = None -> cfg' = brand_config).
Proof.
  unfold load_logo_template.
  destruct (_logo_template brand_config) as [t0 |] eqn:Ec.
  - intros E. injection E as <- <-. split; [|discriminate].
    intros template E fs'. injection E as <-. rewrite Ec. reflexivity.
  - destruct (path_set brand_config) as [p |].
    + destruct (fs p) as [| template_img |]; cbn; intros E;
        try discriminate; injection E as <- <-.
      * split; [discriminate | reflexivity].
      * split; [|discriminate].
        intros template E fs'. injection E as <-. reflexivity.
    + intros E. injection E as <- <-. split; [discriminate | reflexivity].
Qed.

(** X13. A logo file that exists but is not an image makes the brand check
    raise: [Image.open] fails in [load_logo_template] and nothing catches
    the exception, so that no result is returned. *)
Theorem unreadable_logo_raises (fs : filesystem) (brand_config : BrandConfig)
    (img : image) (p : string) :
  logo_template_path brand_config = Some p -> p <> "" ->
  _logo_template brand_config = None ->
  fs p = OtherFile ->
  load_logo_template fs brand_config = inl (UnidentifiedImageError p) /\
  _detect_logo fs brand_config img = inl (UnidentifiedImageError p) /\
  check_brand_compliance fs brand_config img =
    inl (UnidentifiedImageError p).
Proof.
  intros Hp Hne Hcache Hfs.
  assert (Hset : path_set brand_config = Some p).
  { unfold path_set. rewrite Hp. rewrite decide_False by exact Hne.
    reflexivity. }
  assert (El : load_logo_template fs brand_config =
               inl (UnidentifiedImageError p)).
  { unfold load_logo_template. rewrite Hcache, Hset, Hfs. reflexivity. }
  assert (Ed : _detect_logo fs brand_config img =
               inl (UnidentifiedImageError p)).
  { unfold _detect_logo. rewrite Hset, El. reflexivity. }
  repeat split; [exact El | exact Ed |].
  unfold check_brand_compliance. rewrite Ed. reflexivity.
Qed.

(** X14. Whenever the brand check returns, the colour sub-check has
    returned and the verdict agrees with the list: [passed] holds exactly
    when there is no violation; there are at most two violations, the logo
    one first; the configuration comes back with the same path, colours and
    threshold; and with neither a logo path nor brand colours configured
    the check passes, saying so. *)
Theorem brand_check_consistent (fs : filesystem)
    (brand_config cfg' : BrandConfig) (img : image) (res : ComplianceResult) :
  check_brand_compliance fs brand_config img = inr (res, cfg') ->
  passed res = bool_decide (violations res = []) /\
  (exists logo colors : list string,
     color_violations brand_config img = inr colors /\
     violations res = (logo ++ colors)%list /\
     (logo = [] \/ logo = ["Brand logo not detected in image"]) /\
     (path_set brand_config = None -> logo = [])) /\
  (length (violations res) <= 2)%nat /\
  logo_template_path cfg' = logo_template_path brand_config /\
  brand_colors cfg' = brand_colors brand_config /\
  min_logo_confidence cfg' = min_logo_confidence brand_config /\
  (path_set brand_config = None -> brand_colors brand_config = [] ->
   res = {| passed := true;
            details := "No brand compliance checks configured";
            violations := [] |}).
Proof.
  unfold check_brand_compliance.
  destruct (_detect_logo fs brand_config img) as [e | [d cfg'']] eqn:Ed;
    [discriminate|].
  destruct (detect_logo_config _ _ _ _ _ Ed) as (Ep & Ec & Em).
  assert (Eps : path_set cfg'' = path_set brand_config)
    by (unfold path_set; rewrite Ep; reflexivity).
  cbn. rewrite Eps. unfold color_violations. rewrite Ec.
  assert (Hend : forall (logo colors : list string) details,
    (logo = [] \/ logo = ["Brand logo not detected in image"]) ->
    (path_set brand_config = None -> logo = []) ->
    (length colors <= 1)%nat ->
    (path_set brand_config = None -> brand_colors brand_config = [] ->
     logo = [] /\ colors = [] /\
     details = "No brand compliance checks configured") ->
    let res := {| passed := bool_decide (length (logo ++ colors) = 0%nat);
                  details := details;
                  violations := (logo ++ colors)%list |} in
    passed res = bool_decide (violations res = []) /\
    (exists logo' colors' : list string,
       @inr exn _ colors = inr colors' /\
       violations res = (logo' ++ colors')%list /\
       (logo' = [] \/ logo' = ["Brand logo not detected in image"]) /\
       (path_set brand_config = None -> logo' = [])) /\
    (length (violations res) <= 2)%nat /\
    logo_template_path cfg'' = logo_template_path brand_config /\
    brand_colors cfg'' = brand_colors brand_config /\
    min_logo_confidence cfg'' = min_logo_confidence brand_config /\
    (path_set brand_config = None -> brand_colors brand_config = [] ->
     res = {| passed := true;
              details := "No brand compliance checks configured";
              violations := [] |})).
  { intros logo colors details Hl Hn Hcol Hfree res0. subst res0. cbn.
    split.
    { destruct (logo ++ colors)%list; reflexivity. }
    split; [exists logo, colors; auto|].
    split.
    { rewrite length_app. destruct Hl as [-> | ->]; cbn; lia. }
    repeat (split; [assumption|]).
    intros Hp Hb. destruct (Hfree Hp Hb) as (-> & -> & ->). reflexivity. }
  destruct (brand_colors brand_config) as [| c cs].
  - destruct (path_set brand_config) as [p |], d; cbn;
      intros E; injection E as <- <-.
    + apply (Hend [] []); auto; discriminate.
    + apply (Hend ["Brand logo not detected in image"] []); auto;
        discriminate.
    + apply (Hend [] []); auto.
    + apply (Hend [] []); auto.
  - destruct (Colors._analyze_colors img) as [e | colors_present];
      [destruct (path_set brand_config), d; discriminate|].
    cbn.
    destruct (Colors.any_color_match colors_present (c :: cs))
      as [e | found];
      [destruct (path_set brand_config), d; discriminate|].
    cbn. destruct (path_set brand_config) as [p |], d, found; cbn;
      intros E; injection E as <- <-.
    + apply (Hend [] []); auto; discriminate.
    + apply (Hend [] [_]); auto; discriminate.
    + apply (Hend ["Brand logo not detected in image"] []); auto;
        discriminate.
    + apply (Hend ["Brand logo not detected in image"] [_]); auto;
        discriminate.
    + apply (Hend [] []); auto; discriminate.
    + apply (Hend [] [_]); auto; discriminate.
    + apply (Hend [] []); auto; discriminate.
    + apply (Hend [] [_]); auto; discriminate.
Qed.

End BrandMore.

Lemma logo_template_cached_witness :
  (forall template, Some tt = Some template ->
     forall fs',
       @load_logo_template blind_vision fs'
         (set_logo_template config_logo (Some tt)) =
       inr (Some template, set_logo_template config_logo (Some tt))) /\
  (Some tt = None -> set_logo_template config_logo (Some tt) = config_logo).
Proof.
  apply (@logo_template_cached blind_vision sample_files config_logo
           (set_logo_template config_logo (Some tt)) (Some tt)).
  reflexivity.
Defined.

Lemma unreadable_logo_raises_witness :
  let img := solid "RGB" 100 100 [255; 0; 0] in
  @load_logo_template blind_vision sample_files config_text_logo =
    inl (UnidentifiedImageError "/assets/notes.txt") /\
  @_detect_logo blind_vision sample_files config_text_logo img =
    inl (UnidentifiedImageError "/assets/notes.txt") /\
  @check_brand_compliance blind_vision sample_clustering sample_files
    config_text_logo img =
    inl (UnidentifiedImageError "/assets/notes.txt").
Proof.
  intros img.
  apply (@unreadable_logo_raises blind_vision sample_clustering sample_files
           config_text_logo img "/assets/notes.txt").
  - reflexivity.
  - discriminate.
  - reflexivity.
  - reflexivity.
Defined.

Lemma brand_check_consistent_witness :
  let res := {| passed := false;
                details := "Logo detection failed";
                violations := ["Brand logo not detected in image"] |} in
  passed res = bool_decide (violations res = []) /\
  (exists logo colors : list string,
     @color_violations blind_vision sample_clustering config_missing_logo
       (solid "RGB" 100 100 [255; 0; 0]) = inr colors /\
     violations res = (logo ++ colors)%list /\
     (logo = [] \/ logo = ["Brand logo not detected in image"]) /\
     (path_set config_missing_logo = None -> logo = [])) /\
  (length (violations res) <= 2)%nat /\
  logo_template_path config_missing_logo =
    logo_template_path config_missing_logo /\
  brand_colors config_missing_logo = brand_colors config_missing_logo /\
  min_logo_confidence config_missing_logo =
    min_logo_confidence config_missing_logo /\
  (path_set config_missing_logo = None ->
   brand_colors config_missing_logo = [] ->
   res = {| passed := true;
            details := "No brand compliance checks configured";
            violations := [] |}).
Proof.
  intros res.
  apply (@brand_check_consistent blind_vision sample_clustering no_files
           config_missing_logo config_missing_logo
           (solid "RGB" 100 100 [255; 0; 0]) res).
  reflexivity.
Defined.

(** ** More on legal compliance *)

Section LegalMore.
Context `{Unicode}.

Lemma search_from_no_word (lit s : list string) (prev : option string) :
  existsb is_word_char s = false -> word_at prev = false ->
  search_from lit prev s = false.
Proof.
  revert prev. induction s as [| c s IH]; intros prev Hs Hp.
  - cbn. unfold match_here, boundary. rewrite Hp. reflexivity.
  - cbn in Hs. apply orb_false_iff in Hs as [Hc Hs].
    cbn [search_from]. rewrite (IH (Some c) Hs Hc), orb_false_r.
    unfold match_here, boundary. cbn. rewrite Hp, Hc. reflexivity.
Qed.

(** On ASCII, the model is Python's ASCII behaviour: every character is one
    byte, and lowering keeps the word characters. *)
Lemma lower_char_ascii (c : ascii) :
  is_ascii_char c = true ->
  is_ascii_char (lower_char c) = true /\
  is_ascii_word (lower_char c) = is_ascii_word c.
Proof.
  destruct c as [[] [] [] [] [] [] [] []]; vm_compute; intros E;
    try discriminate; split; reflexivity.
Qed.

Lemma ascii_not_continuation (c : ascii) :
  is_ascii_char c = true -> is_continuation c = false.
Proof.
  destruct c as [[] [] [] [] [] [] [] []]; vm_compute; intros E;
    try discriminate; reflexivity.
Qed.

Lemma chars_ascii (s : string) :
  is_ascii s = true ->
  chars s = (fun c => String c "") <$> String.list_ascii_of_string s.
Proof.
  induction s as [| c s IH]; [reflexivity|].
  cbn [is_ascii]. intros E. apply andb_true_iff in E as [Hc Hs].
  cbn [chars String.list_ascii_of_string fmap list_fmap]. rewrite (IH Hs).
  destruct s as [| d s]; [reflexivity|].
  cbn [is_ascii] in Hs. apply andb_true_iff in Hs as [Hd _].
  cbn [String.list_ascii_of_string fmap list_fmap starts_with_continuation].
  rewrite (ascii_not_continuation d Hd). reflexivity.
Qed.

Lemma lower_ascii_is_ascii (s : string) :
  is_ascii s = true -> is_ascii (lower_ascii s) = true.
Proof.
  induction s as [| c s IH]; [reflexivity|].
  cbn [is_ascii lower_ascii]. intros E.
  apply andb_true_iff in E as [Hc Hs].
  destruct (lower_char_ascii c Hc) as [-> _]. rewrite (IH Hs). reflexivity.
Qed.

Lemma has_word_char_lower (s : string) :
  is_ascii s = true -> has_word_char (lower s) = has_word_char s.
Proof.
  intros Hs. unfold lower, has_word_char. rewrite Hs.
  rewrite (chars_ascii _ (lower_ascii_is_ascii s Hs)), (chars_ascii s Hs).
  clear -Hs. induction s as [| c s IH]; [reflexivity|].
  cbn [is_ascii] in Hs. apply andb_true_iff in Hs as [Hc Hs].
  cbn [lower_ascii String.list_ascii_of_string fmap list_fmap existsb].
  rewrite (IH Hs). f_equal.
  destruct (lower_char_ascii c Hc) as [Ha Hw].
  cbn [is_word_char]. rewrite Ha, Hc. exact Hw.
Qed.

(** X15. A message that, lowercased, holds no word character (the empty
    message, punctuation, white space) passes the legal check with no
    violation, whatever the prohibited terms are. For an ASCII message the
    word characters are the letters, the digits and the underscore, and
    lowercasing keeps them. *)
Theorem legal_text_without_words (legal_config : LegalConfig) (text : string) :
  has_word_char (lower text) = false ->
  passed (check_legal_compliance legal_config text) = true /\
  violations (check_legal_compliance legal_config text) = [] /\
  (is_ascii text = true -> has_word_char (lower text) = has_word_char text).
Proof.
  intros Hw.
  assert (Ev : violations (check_legal_compliance legal_config text) = []).
  { rewrite legal_violations.
    induction (prohibited_words legal_config) as [| w ws IH]; [reflexivity|].
    rewrite filter_cons. rewrite decide_False; [exact IH|].
    unfold re_search_word. rewrite search_from_no_word;
      [discriminate | exact Hw | reflexivity]. }
  split; [|split; [exact Ev | apply has_word_char_lower]].
  rewrite legal_passed, Ev. reflexivity.
Qed.

Lemma last_char_nonempty (p q : option string) (s : list string) :
  s <> [] -> last_char p s = last_char q s.
Proof. destruct s; [contradiction | reflexivity]. Qed.

(** X16. A prohibited term that ends with a character that is no word
    character is found only where a word character follows it at once: the
    closing [\b] needs one. The term "100%" is thus not found in
    "Save 100% today" and found in "Save 100%now". *)
Theorem legal_term_ending_in_punctuation :
  (forall (term text c : string),
     last_char None (chars (lower term)) = Some c -> is_word_char c = false ->
     term_matches term text ->
     exists (pre : list string) (d : string) (post : list string),
       chars (lower text) = (pre ++ chars (lower term) ++ d :: post)%list /\
       is_word_char d = true) /\
  check_legal_compliance config_percent "Save 100% today" =
    {| passed := true;
       details := "No prohibited terms found (checked 1 terms)";
       violations := [] |} /\
  violations (check_legal_compliance config_percent "Save 100%now") =
    ["Prohibited word '100%' found (severity: warning)"].
Proof.
  split; [|split; vm_compute; reflexivity].
  intros term text c Hlast Hc (pre & post & E & _ & Hb).
  assert (Hne : chars (lower term) <> []).
  { intros E0. rewrite E0 in Hlast. discriminate. }
  rewrite last_char_app in Hb.
  rewrite (last_char_nonempty _ None _ Hne), Hlast in Hb.
  unfold boundary in Hb. cbn [word_at] in Hb. rewrite Hc in Hb.
  destruct post as [| d post]; [discriminate|].
  exists pre, d, post. split; [exact E | exact Hb].
Qed.

End LegalMore.

Lemma legal_text_without_words_witness :
  let text := "!!! ... ???" in
  passed (@check_legal_compliance ascii_only config_free text) = true /\
  violations (@check_legal_compliance ascii_only config_free text) = [] /\
  (is_ascii text = true ->
   @has_word_char ascii_only (@lower ascii_only text) =
   @has_word_char ascii_only text).
Proof.
  intros text.
  apply (@legal_text_without_words ascii_only config_free text). reflexivity.
Defined.

Section LegalLists.
Context `{Unicode}.

(** X17. The violations of a list of terms are those of its parts, one
    after the other, and the check passes when it passes for each part. *)
Theorem legal_check_of_append (words1 words2 : list string)
    (levels : gmap string string) (text : string) :
  let check words :=
    check_legal_compliance
      {| prohibited_words := words; severity_levels := levels |} text in
  violations (check (words1 ++ words2)%list) =
    (violations (check words1) ++ violations (check words2))%list /\
  passed (check (words1 ++ words2)%list) =
    passed (check words1) && passed (check words2).
Proof.
  intros check.
  assert (Ev : forall ws,
    violations (check ws) =
    violation_msg {| prohibited_words := []; severity_levels := levels |} <$>
      filter (fun w => re_search_word (lower w) (lower text) = true) ws).
  { intros ws. unfold check. rewrite legal_violations. reflexivity. }
  split.
  - rewrite !Ev, filter_app, fmap_app. reflexivity.
  - unfold check. rewrite !legal_passed. fold (check (words1 ++ words2)%list).
    fold (check words1). fold (check words2).
    rewrite !Ev, filter_app, fmap_app.
    destruct (violation_msg _ <$> filter _ words1);
      destruct (violation_msg _ <$> filter _ words2); reflexivity.
Qed.

(** X18. The severity table changes the wording of the violations only:
    their number and the verdict are the same for every table, a term
    marked "warning" failing the check like one marked "blocking". *)
Theorem legal_severity_irrelevant (words : list string)
    (levels1 levels2 : gmap string string) (text : string) :
  let check levels :=
    check_legal_compliance
      {| prohibited_words := words; severity_levels := levels |} text in
  passed (check levels1) = passed (check levels2) /\
  length (violations (check levels1)) = length (violations (check levels2)).
Proof.
  intros check.
  assert (El : length (violations (check levels1)) =
               length (violations (check levels2))).
  { unfold check. rewrite !legal_violations, !length_fmap. reflexivity. }
  split; [|exact El]. unfold check. rewrite !legal_passed.
  fold (check levels1). fold (check levels2).
  destruct (violations (check levels1)), (violations (check levels2));
    try reflexivity; discriminate.
Qed.

End LegalLists.

(** ** Colour matching *)

Example np_sqrt_agrees_on_distances :
  forallb sqrt_agrees (seqZ 0 1024) = true /\
  forallb sqrt_agrees [195075; 780300; 2 ^ 53 + 1; 2 ^ 60 + 12345] = true.
Proof. split; vm_compute; reflexivity. Qed.

Lemma elem_of_all_ascii (c : ascii) : c ∈ all_ascii.
Proof.
  unfold all_ascii. apply list_elem_of_fmap. exists (nat_of_ascii c).
  split; [symmetry; apply ascii_nat_embedding|].
  apply elem_of_seq. pose proof (nat_ascii_bounded c). lia.
Qed.

Lemma int16_two_chars :
  forallb (fun a => forallb (fun b => int16_small (String a (String b "")))
                            all_ascii) all_ascii = true.
Proof. vm_compute. reflexivity. Qed.

Lemma int16_one_char :
  forallb (fun a => int16_small (String a "")) all_ascii = true.
Proof. vm_compute. reflexivity. Qed.

Lemma forallb_ascii (P : ascii -> bool) (c : ascii) :
  forallb P all_ascii = true -> P c = true.
Proof.
  intros Hall. rewrite forallb_forall in Hall.
  apply Hall, list_elem_of_In, elem_of_all_ascii.
Qed.

Lemma substring_length (n m : nat) (s : string) :
  (String.length (String.substring n m s) <= m)%nat.
Proof.
  revert n m. induction s as [| c s IH]; intros n m.
  - destruct n, m; cbn; lia.
  - destruct n as [| n]; [destruct m as [| m]|]; cbn.
    + lia.
    + specialize (IH 0%nat m). lia.
    + apply IH.
Qed.

Lemma int16_slice_bound (s : string) (i : nat) (v : Z) :
  Colors.int16 (Colors.slice2 s i) = inr v -> -255 <= v <= 255.
Proof.
  unfold Colors.slice2. pose proof (substring_length i 2 s) as Hlen.
  destruct (String.substring i 2 s) as [| a [| b [| c r]]];
    [| | | cbn in Hlen; lia]; intros E.
  - discriminate.
  - pose proof (forallb_ascii _ a int16_one_char) as Hs.
    unfold int16_small in Hs. rewrite E in Hs. lia.
  - pose proof (forallb_ascii _ a int16_two_chars) as Ha. cbv beta in Ha.
    pose proof (forallb_ascii _ b Ha) as Hs.
    unfold int16_small in Hs. rewrite E in Hs. lia.
Qed.

Lemma hex_to_rgb_bounds (color : string) (r g b : Z) :
  Colors.hex_to_rgb color = inr (r, g, b) ->
  -255 <= r <= 255 /\ -255 <= g <= 255 /\ -255 <= b <= 255.
Proof.
  unfold Colors.hex_to_rgb.
  destruct (Colors.int16 (Colors.slice2 _ 0)) as [e | r'] eqn:Er;
    [discriminate|].
  destruct (Colors.int16 (Colors.slice2 _ 2)) as [e | g'] eqn:Eg;
    [discriminate|].
  destruct (Colors.int16 (Colors.slice2 _ 4)) as [e | b'] eqn:Eb;
    [discriminate|].
  cbn. intros E. injection E as <- <- <-.
  apply int16_slice_bound in Er, Eg, Eb. auto.
Qed.

Lemma Qdiv_le_Z (a b k : Z) :
  0 < k -> ((inject_Z a / inject_Z k <= inject_Z b)%Q <-> a <= b * k).
Proof.
  intros Hk.
  assert (Hkq : (0 < inject_Z k)%Q).
  { change 0%Q with (inject_Z 0). rewrite <- Zlt_Qlt. exact Hk. }
  rewrite Zle_Qle, inject_Z_mult. split.
  - intros Hle. apply Qle_div_mul; assumption.
  - intros Hle. apply Qle_shift_div_r; assumption.
Qed.

Lemma floor_float_of_int (n : Z) :
  Z.abs n < 2 ^ 53 -> Qfloor (float_of_int n) = n.
Proof.
  intros Hn. rewrite (Qfloor_comp _ _ (float_of_int_exact n Hn)).
  apply Qfloor_Z.
Qed.

Section SquareRoot.

Variables n t : Z.
Hypothesis Hn : 0 <= n < 2 ^ 26.
Hypothesis Ht : 0 <= t < 2 ^ 13.

Let K : Z := 2 ^ 53.
Let s : Z := Z.sqrt (n * 4 ^ 53).

Lemma sqrt_scaled : s * s <= n * (K * K) < (s + 1) * (s + 1).
Proof.
  unfold s, K. replace (4 ^ 53) with (2 ^ 53 * 2 ^ 53) by reflexivity.
  pose proof (Z.sqrt_spec (n * (2 ^ 53 * 2 ^ 53)) ltac:(lia)) as Hs.
  unfold Z.succ in Hs. exact Hs.
Qed.

Lemma np_sqrt_unfold :
  0 < n ->
  Colors.np_sqrt n =
    if (s * s =? n * (K * K))%Z then round64 (inject_Z s / inject_Z K)
    else round64 (inject_Z (2 * s + 1) / inject_Z (2 * K)).
Proof.
  intros Hpos. unfold Colors.np_sqrt.
  rewrite floor_float_of_int by lia.
  destruct (n <=? 0)%Z eqn:E; [lia|]. reflexivity.
Qed.

Lemma np_sqrt_below : n <= t * t -> (Colors.np_sqrt n <= inject_Z t)%Q.
Proof.
  intros Hle. destruct (decide (n = 0)) as [-> | Hn0].
  { change (Colors.np_sqrt 0) with 0%Q. change 0%Q with (inject_Z 0).
    rewrite <- Zle_Qle. lia. }
  rewrite np_sqrt_unfold by lia.
  pose proof sqrt_scaled as [Hs1 Hs2].
  assert (HK : 0 < K) by reflexivity.
  assert (Hs0 : 0 <= s) by apply Z.sqrt_nonneg.
  assert (HsT : s <= t * K).
  { destruct (Z_le_gt_dec s (t * K)) as [Hok | Hgt]; [exact Hok|].
    assert (n * (K * K) <= t * K * (t * K)) by nia. nia. }
  assert (Et : (round64 (inject_Z t) == inject_Z t)%Q)
    by (apply round64_Z; lia).
  rewrite <- Et.
  destruct (s * s =? n * (K * K))%Z eqn:Eq.
  - apply round64_mono. apply Qdiv_le_Z; assumption.
  - apply Z.eqb_neq in Eq. apply round64_mono.
    apply Qdiv_le_Z; [lia|].
    assert (s <> t * K).
    { intros Es. apply Eq. assert (n * (K * K) <= t * K * (t * K)) by nia.
      rewrite <- Es in *. lia. }
    lia.
Qed.

Lemma np_sqrt_above : t * t < n -> (inject_Z t < Colors.np_sqrt n)%Q.
Proof.
  intros Hlt. rewrite np_sqrt_unfold by lia.
  pose proof sqrt_scaled as [Hs1 Hs2].
  assert (HK : K = 2 ^ 39 * 2 ^ 14) by reflexivity.
  assert (Hs0 : 0 <= s) by apply Z.sqrt_nonneg.
  set (c := 2 ^ 39) in *. set (d := 2 ^ 14) in *.
  assert (Hc : 0 < c) by reflexivity.
  assert (Hd : d = 16384) by reflexivity.
  set (u := t * d + 1).
  (* the root is at least [t + 2^-14] *)
  assert (Hu : u * c <= s).
  { destruct (Z_le_gt_dec (u * c) s) as [Hok | Hgt]; [exact Hok|].
    assert (Hsq : (s + 1) * (s + 1) <= u * c * (u * c)) by nia.
    assert (Hun : u * u <= n * (d * d)) by (unfold u; nia).
    assert (u * c * (u * c) <= n * (K * K)).
    { rewrite HK.
      replace (u * c * (u * c)) with (u * u * (c * c)) by ring.
      replace (n * (c * d * (c * d))) with (n * (d * d) * (c * c)) by ring.
      apply Z.mul_le_mono_nonneg_r; [nia | exact Hun]. }
    lia. }
  assert (Eu : (round64 (inject_Z u / inject_Z d) ==
                inject_Z u / inject_Z d)%Q).
  { apply (round64_exact _ u (-14)); [unfold u; lia|].
    unfold pow2. change (2 ^ (-14))%Q with (1 / inject_Z d)%Q.
    field. discriminate. }
  assert (Hgt : (inject_Z t < inject_Z u / inject_Z d)%Q).
  { apply Qlt_shift_div_l; [reflexivity|].
    rewrite <- inject_Z_mult, <- Zlt_Qlt. unfold u. lia. }
  assert (Hrep : (inject_Z u / inject_Z d <= inject_Z s / inject_Z K)%Q).
  { apply Qle_shift_div_l; [reflexivity|].
    assert (E : (inject_Z u / inject_Z d * inject_Z K ==
                 inject_Z (u * c))%Q).
    { rewrite HK, !inject_Z_mult. field. discriminate. }
    rewrite E, <- Zle_Qle. exact Hu. }
  assert (Hrep2 : (inject_Z s / inject_Z K <=
                   inject_Z (2 * s + 1) / inject_Z (2 * K))%Q).
  { apply Qle_shift_div_l; [reflexivity|].
    assert (E : (inject_Z s / inject_Z K * inject_Z (2 * K) ==
                 inject_Z (2 * s))%Q).
    { rewrite !inject_Z_mult. field. rewrite HK. discriminate. }
    rewrite E, <- Zle_Qle. lia. }
  destruct (s * s =? n * (K * K))%Z.
  - apply round64_mono in Hrep. lra.
  - assert (Hrep3 : (inject_Z u / inject_Z d <=
                     inject_Z (2 * s + 1) / inject_Z (2 * K))%Q) by lra.
    apply round64_mono in Hrep3. lra.
Qed.

End SquareRoot.

Lemma np_sqrt_nonneg (n : Z) : (0 <= Colors.np_sqrt n)%Q.
Proof.
  unfold Colors.np_sqrt.
  destruct (_ <=? 0)%Z; [apply Qle_refl|].
  assert (Hs : forall x, 0 <= Z.sqrt x) by apply Z.sqrt_nonneg.
  destruct (_ =? _)%Z; apply round64_nonneg;
    (apply Qle_shift_div_l; [reflexivity|]); rewrite Qmult_0_l;
    change 0%Q with (inject_Z 0); rewrite <- Zle_Qle.
  - apply Hs.
  - specialize (Hs (Qfloor (float_of_int n) * 4 ^ 53)). lia.
Qed.

(** The comparison [np.sqrt(n) <= tolerance] on the sums of squares that
    colours give rise to. *)
Lemma np_sqrt_le_tolerance (n tolerance : Z) :
  0 <= n <= 780300 ->
  Qle_bool (Colors.np_sqrt n) (float_of_int tolerance) =
  bool_decide (0 <= tolerance /\ n <= tolerance ^ 2).
Proof.
  intros Hn. replace (tolerance ^ 2) with (tolerance * tolerance) by ring.
  destruct (Z_lt_le_dec tolerance 0) as [Hneg | Hpos].
  - rewrite bool_decide_eq_false_2 by lia.
    apply not_true_is_false. intros Hle. apply Qle_bool_iff in Hle.
    pose proof (np_sqrt_nonneg n) as H0.
    pose proof (float_of_int_mono tolerance (-1) ltac:(lia)) as Hm.
    replace (float_of_int (-1)) with (-1 # 1)%Q in Hm
      by (vm_compute; reflexivity).
    lra.
  - destruct (Z_lt_le_dec tolerance (2 ^ 13)) as [Hsmall | Hbig].
    + assert (Et : (float_of_int tolerance == inject_Z tolerance)%Q)
        by (apply float_of_int_exact; lia).
      destruct (Z_le_gt_dec n (tolerance * tolerance)) as [Hle | Hgt].
      * rewrite bool_decide_eq_true_2 by lia.
        apply Qle_bool_iff. rewrite Et.
        apply np_sqrt_below; lia.
      * rewrite bool_decide_eq_false_2 by lia.
        apply not_true_is_false. intros Hle. apply Qle_bool_iff in Hle.
        rewrite Et in Hle.
        pose proof (np_sqrt_above n tolerance ltac:(lia) ltac:(lia)
                      ltac:(lia)).
        lra.
    + rewrite bool_decide_eq_true_2 by nia.
      apply Qle_bool_iff.
      pose proof (np_sqrt_below n 8191 ltac:(lia) ltac:(lia) ltac:(lia)) as Hb.
      pose proof (float_of_int_mono 8191 tolerance ltac:(lia)) as Hm.
      replace (float_of_int 8191) with (inject_Z 8191) in Hm
        by (vm_compute; reflexivity).
      lra.
Qed.

Lemma distance2_bound (rgb1 rgb2 : Z * Z * Z) :
  (let '(r, g, b) := rgb1 in
   -255 <= r <= 255 /\ -255 <= g <= 255 /\ -255 <= b <= 255) ->
  (let '(r, g, b) := rgb2 in
   -255 <= r <= 255 /\ -255 <= g <= 255 /\ -255 <= b <= 255) ->
  0 <= distance2 rgb1 rgb2 <= 780300.
Proof.
  destruct rgb1 as [[r1 g1] b1], rgb2 as [[r2 g2] b2].
  intros (? & ? & ?) (? & ? & ?). unfold distance2.
  assert (Hsq : forall x, -510 <= x <= 510 -> 0 <= x ^ 2 <= 260100).
  { intros x Hx. replace (x ^ 2) with (x * x) by ring. nia. }
  pose proof (Hsq (r1 - r2) ltac:(lia)).
  pose proof (Hsq (g1 - g2) ltac:(lia)).
  pose proof (Hsq (b1 - b2) ltac:(lia)). lia.
Qed.

Lemma color_match_parsed (color1 color2 : string) (rgb1 rgb2 : Z * Z * Z)
    (tolerance : Z) :
  Colors.hex_to_rgb color1 = inr rgb1 ->
  Colors.hex_to_rgb color2 = inr rgb2 ->
  Colors._color_match color1 color2 tolerance =
    inr (bool_decide (0 <= tolerance /\
                      distance2 rgb1 rgb2 <= tolerance ^ 2)).
Proof.
  intros E1 E2. unfold Colors._color_match. rewrite E1, E2. cbn.
  destruct rgb1 as [[r1 g1] b1] eqn:R1, rgb2 as [[r2 g2] b2] eqn:R2.
  pose proof (hex_to_rgb_bounds _ _ _ _ E1) as B1.
  pose proof (hex_to_rgb_bounds _ _ _ _ E2) as B2.
  pose proof (distance2_bound (r1, g1, b1) (r2, g2, b2) B1 B2) as Hd.
  unfold distance2 in Hd. cbn.
  rewrite (np_sqrt_le_tolerance _ tolerance Hd). reflexivity.
Qed.

(** X19. Two colours that parse match exactly when the tolerance is not
    negative and the sum of the squared differences of their components is
    at most the tolerance squared: the floating-point square root and
    comparison of the code decide the same as integer arithmetic. Matching
    is therefore symmetric, and a colour matches itself. *)
Theorem color_match_distance (color1 color2 : string) (rgb1 rgb2 : Z * Z * Z)
    (tolerance : Z) :
  Colors.hex_to_rgb color1 = inr rgb1 ->
  Colors.hex_to_rgb color2 = inr rgb2 ->
  Colors._color_match color1 color2 tolerance =
    inr (bool_decide (0 <= tolerance /\
                      distance2 rgb1 rgb2 <= tolerance ^ 2)) /\
  Colors._color_match color2 color1 tolerance =
    Colors._color_match color1 color2 tolerance /\
  (0 <= tolerance -> Colors._color_match color1 color1 tolerance = inr true).
Proof.
  intros E1 E2.
  rewrite (color_match_parsed color1 color2 rgb1 rgb2 tolerance E1 E2).
  rewrite (color_match_parsed color2 color1 rgb2 rgb1 tolerance E2 E1).
  rewrite (color_match_parsed color1 color1 rgb1 rgb1 tolerance E1 E1).
  split; [reflexivity|]. split.
  - f_equal. apply bool_decide_ext.
    destruct rgb1 as [[r1 g1] b1], rgb2 as [[r2 g2] b2]. unfold distance2.
    replace ((r2 - r1) ^ 2) with ((r1 - r2) ^ 2) by ring.
    replace ((g2 - g1) ^ 2) with ((g1 - g2) ^ 2) by ring.
    replace ((b2 - b1) ^ 2) with ((b1 - b2) ^ 2) by ring. reflexivity.
  - intros Hpos. f_equal. apply bool_decide_eq_true_2.
    split; [exact Hpos|].
    destruct rgb1 as [[r1 g1] b1]. unfold distance2.
    rewrite !Z.sub_diag. cbn. nia.
Qed.

Lemma color_match_distance_witness :
  Colors._color_match "#FF0000" "#FE0505" 10 =
    inr (bool_decide (0 <= 10 /\
                      distance2 (255, 0, 0) (254, 5, 5) <= 10 ^ 2)) /\
  Colors._color_match "#FE0505" "#FF0000" 10 =
    Colors._color_match "#FF0000" "#FE0505" 10 /\
  (0 <= 10 -> Colors._color_match "#FF0000" "#FF0000" 10 = inr true).
Proof.
  apply (color_match_distance "#FF0000" "#FE0505" (255, 0, 0) (254, 5, 5) 10);
    reflexivity.
Defined.

Lemma int16_raises (s : string) (e : exn) :
  Colors.int16 s = inl e -> e = Colors.invalid_literal s.
Proof.
  unfold Colors.int16.
  repeat match goal with
         | |- context [match ?x with _ => _ end] => destruct x
         end; cbn; intros E; try discriminate; injection E as <-; reflexivity.
Qed.

Lemma hex_to_rgb_raises (color : string) (e : exn) :
  Colors.hex_to_rgb color = inl e -> exists msg, e = ValueError msg.
Proof.
  unfold Colors.hex_to_rgb.
  destruct (Colors.int16 (Colors.slice2 _ 0)) as [e0 | r] eqn:Er.
  { cbn. intros E. injection E as <-. rewrite (int16_raises _ _ Er).
    eexists. reflexivity. }
  destruct (Colors.int16 (Colors.slice2 _ 2)) as [e2 | g] eqn:Eg.
  { cbn. intros E. injection E as <-. rewrite (int16_raises _ _ Eg).
    eexists. reflexivity. }
  destruct (Colors.int16 (Colors.slice2 _ 4)) as [e4 | b] eqn:Eb.
  { cbn. intros E. injection E as <-. rewrite (int16_raises _ _ Eb).
    eexists. reflexivity. }
  discriminate.
Qed.

Lemma substring_short (n m : nat) (s : string) :
  (String.length s <= n)%nat -> String.substring n m s = "".
Proof.
  revert n. induction s as [| c s IH]; intros n Hn.
  - destruct n, m; reflexivity.
  - destruct n as [| n]; [cbn in Hn; lia|]. cbn. apply IH. cbn in Hn. lia.
Qed.

(** X20. A colour with fewer than five characters after its leading [#]
    signs, such as the short form "#FFF", does not parse: its third slice is
    empty and [int] raises [ValueError]; so does every match the colour
    takes part in, on either side, instead of answering [False]. *)
Theorem short_colour_raises (color : string) :
  (String.length (Colors.lstrip_hash color) <= 4)%nat ->
  (exists msg, Colors.hex_to_rgb color = inl (ValueError msg)) /\
  (forall other tolerance,
     (exists msg,
        Colors._color_match color other tolerance = inl (ValueError msg)) /\
     (exists msg,
        Colors._color_match other color tolerance = inl (ValueError msg))) /\
  Colors.hex_to_rgb "#FFF" =
    inl (ValueError "invalid literal for int() with base 16: ''").
Proof.
  intros Hlen.
  assert (E : exists msg, Colors.hex_to_rgb color = inl (ValueError msg)).
  { destruct (Colors.hex_to_rgb color) as [e | rgb] eqn:Eh.
    - destruct (hex_to_rgb_raises _ _ Eh) as (msg & ->). eauto.
    - exfalso. revert Eh. unfold Colors.hex_to_rgb, Colors.slice2.
      rewrite (substring_short 4 2 _ Hlen).
      destruct (Colors.int16 (String.substring 0 2 _)); [discriminate|].
      destruct (Colors.int16 (String.substring 2 2 _)); discriminate. }
  split; [exact E|]. split; [|vm_compute; reflexivity].
  destruct E as (msg & E).
  intros other tolerance. unfold Colors._color_match.
  rewrite E. split; [exists msg; reflexivity|].
  destruct (Colors.hex_to_rgb other) as [e | rgb] eqn:Eo.
  - destruct (hex_to_rgb_raises _ _ Eo) as (msg' & ->). eauto.
  - exists msg. reflexivity.
Qed.

Lemma short_colour_raises_witness :
  (exists msg, Colors.hex_to_rgb "#FF00" = inl (ValueError msg)) /\
  (forall other tolerance,
     (exists msg,
        Colors._color_match "#FF00" other tolerance = inl (ValueError msg)) /\
     (exists msg,
        Colors._color_match other "#FF00" tolerance = inl (ValueError msg))) /\
  Colors.hex_to_rgb "#FFF" =
    inl (ValueError "invalid literal for int() with base 16: ''").
Proof. apply (short_colour_raises "#FF00"). vm_compute. lia. Defined.

Lemma bytes_round_trip : forallb byte_round_trip (seqZ 0 256) = true.
Proof. vm_compute. reflexivity. Qed.

Lemma byte_digits (n : Z) :
  0 <= n <= 255 ->
  exists a b,
    Colors.upper (Colors.format_02x n) = String a (String b "") /\
    a <> "#"%char /\
    Colors.int16 (String a (String b "")) = inr n.
Proof.
  intros Hn. pose proof bytes_round_trip as Hall.
  rewrite forallb_forall in Hall.
  assert (Hin : In n (seqZ 0 256))
    by (apply list_elem_of_In, elem_of_seqZ; lia).
  specialize (Hall n Hin). unfold byte_round_trip in Hall.
  destruct (Colors.upper (Colors.format_02x n)) as [| a [| b [| c r]]];
    try discriminate.
  apply andb_true_iff in Hall as [Ha Hb].
  exists a, b. split; [reflexivity|]. split.
  - apply negb_true_iff, bool_decide_eq_false in Ha. exact Ha.
  - destruct (Colors.int16 _) as [e | v]; [discriminate|].
    apply bool_decide_eq_true in Hb. congruence.
Qed.

Lemma upper_app (s t : string) :
  Colors.upper (s +:+ t) = Colors.upper s +:+ Colors.upper t.
Proof.
  induction s as [| c s IH]; [reflexivity|].
  rewrite append_cons. cbn. rewrite IH. reflexivity.
Qed.

Lemma int_of_byte (c : Q) : (0 <= c <= 255)%Q -> 0 <= int_of_float c <= 255.
Proof.
  intros [H0 H1]. split; [apply int_of_float_nonneg, H0|].
  apply int_of_float_mono in H1. exact H1.
Qed.

Lemma hex_color_round_trip (center : Q * Q * Q) :
  pixel_center center ->
  String.length (Colors.hex_color center) = 7%nat /\
  Colors.hex_to_rgb (Colors.hex_color center) = inr (center_rgb center).
Proof.
  destruct center as [[c0 c1] c2]. intros (H0 & H1 & H2).
  destruct (byte_digits _ (int_of_byte _ H0)) as (a0 & b0 & E0 & N0 & I0).
  destruct (byte_digits _ (int_of_byte _ H1)) as (a1 & b1 & E1 & _ & I1).
  destruct (byte_digits _ (int_of_byte _ H2)) as (a2 & b2 & E2 & _ & I2).
  unfold Colors.hex_color, center_rgb.
  rewrite !upper_app, E0, E1, E2.
  change (Colors.upper "#") with "#".
  rewrite !append_cons, !append_nil_l.
  split; [reflexivity|].
  unfold Colors.hex_to_rgb. cbn [Colors.lstrip_hash].
  rewrite decide_True by reflexivity. rewrite decide_False by exact N0.
  unfold Colors.slice2. cbn [String.substring].
  rewrite I0, I1, I2. reflexivity.
Qed.

(** X21. The colours [_analyze_colors] reports read back as the cluster
    centres they stand for: when the clustering returns centres of pixel
    values, [_analyze_colors] returns one colour per centre, each a [#]
    followed by six hexadecimal digits, and [_color_match] parses it to the
    components of its centre, truncated; it therefore matches a brand colour
    exactly when the truncated centre is within the tolerance of it. *)
Theorem analyzed_colors_round_trip `{Colors.Clustering} (img : image)
    (centers : list (Q * Q * Q)) :
  Colors.cluster_centers img = inr centers ->
  Forall pixel_center centers ->
  exists colors,
    Colors._analyze_colors img = inr colors /\
    Forall2 (fun color center =>
               String.length color = 7%nat /\
               Colors.hex_to_rgb color = inr (center_rgb center) /\
               forall brand rgb tolerance,
                 Colors.hex_to_rgb brand = inr rgb ->
                 Colors._color_match color brand tolerance =
                   inr (bool_decide
                          (0 <= tolerance /\
                           distance2 (center_rgb center) rgb <=
                             tolerance ^ 2)))
            colors centers.
Proof.
  intros Ec Hall. unfold Colors._analyze_colors. rewrite Ec. cbn.
  eexists. split; [reflexivity|]. clear Ec.
  induction Hall as [| center centers' Hc _ IH]; [constructor|].
  rewrite fmap_cons. constructor; [|exact IH].
  destruct (hex_color_round_trip center Hc) as [Hl Hp].
  split; [exact Hl|]. split; [exact Hp|].
  intros brand rgb tolerance Hb. apply color_match_parsed; assumption.
Qed.

Lemma analyzed_colors_round_trip_witness :
  let img := solid "RGB" 100 100 [255; 0; 0] in
  let centers := [(0, 0, 0); (127.5, 127.5, 127.5); (254.99, 0.4, 10)]%Q in
  exists colors,
    @Colors._analyze_colors sample_clustering img = inr colors /\
    Forall2 (fun color center =>
               String.length color = 7%nat /\
               Colors.hex_to_rgb color = inr (center_rgb center) /\
               forall brand rgb tolerance,
                 Colors.hex_to_rgb brand = inr rgb ->
                 Colors._color_match color brand tolerance =
                   inr (bool_decide
                          (0 <= tolerance /\
                           distance2 (center_rgb center) rgb <=
                             tolerance ^ 2)))
            colors centers.
Proof.
  intros img centers.
  apply (@analyzed_colors_round_trip sample_clustering img centers).
  - reflexivity.
  - repeat constructor; vm_compute; discriminate.
Defined.

Example analyzed_colors_sample :
  @Colors._analyze_colors sample_clustering (solid "RGB" 100 100 [255; 0; 0]) =
  inr ["#000000"; "#7F7F7F"; "#FE000A"].
Proof. vm_compute. reflexivity. Qed.

(** ** Briefs and the orchestrator *)

Lemma validate_products_ok (products : list Product.t) :
  CampaignBrief.validate_products products = inr () <->
  Forall valid_product products.
Proof.
  induction products as [| p ps IH]; cbn.
  - split; [constructor | reflexivity].
  - unfold Product.validate, valid_product.
    destruct (decide (Product.product_id p = "")) as [E1 | N1]; cbn.
    { split; [discriminate|]. intros Hf. inversion Hf; tauto. }
    destruct (decide (Product.name p = "")) as [E2 | N2]; cbn.
    { split; [discriminate|]. intros Hf. inversion Hf; tauto. }
    rewrite IH. split.
    + intros Hf. constructor; auto.
    + intros Hf. inversion Hf; assumption.
Qed.

Lemma validate_products_error (products : list Product.t) (e : exn) :
  CampaignBrief.validate_products products = inl e ->
  exists msg, e = ValueError msg /\ msg ∈ validation_messages.
Proof.
  unfold validation_messages.
  induction products as [| p ps IH]; cbn; [discriminate|].
  unfold Product.validate.
  destruct (decide (Product.product_id p = "")); cbn.
  { intros E. injection E as <-. eexists. split; [reflexivity|].
    rewrite !elem_of_cons. tauto. }
  destruct (decide (Product.name p = "")); cbn.
  { intros E. injection E as <-. eexists. split; [reflexivity|].
    rewrite !elem_of_cons. tauto. }
  exact IH.
Qed.

Lemma brief_validate_ok (brief : CampaignBrief.t) :
  CampaignBrief.validate brief = inr () <-> valid_brief brief.
Proof.
  unfold CampaignBrief.validate, valid_brief.
  destruct (decide (CampaignBrief.campaign_id brief = ""));
    [split; [discriminate | tauto]|].
  destruct (decide (CampaignBrief.products brief = []));
    [split; [discriminate | tauto]|].
  destruct (decide (CampaignBrief.target_region brief = ""));
    [split; [discriminate | tauto]|].
  destruct (decide (CampaignBrief.target_audience brief = ""));
    [split; [discriminate | tauto]|].
  destruct (decide (CampaignBrief.campaign_message brief = ""));
    [split; [discriminate | tauto]|].
  pose proof (validate_products_ok (CampaignBrief.products brief)) as Hp.
  destruct (CampaignBrief.validate_products (CampaignBrief.products brief))
    as [e | []]; cbn.
  { split; [discriminate|]. intros (_ & _ & _ & _ & _ & Hf & _).
    apply Hp in Hf. discriminate. }
  assert (Hf : Forall valid_product (CampaignBrief.products brief))
    by (apply Hp; reflexivity).
  destruct (CampaignBrief.localization brief) as [loc |]; [|tauto].
  unfold Localization.validate.
  destruct (decide (Localization.language loc = ""));
    [split; [discriminate | tauto] | tauto].
Qed.

Lemma brief_validate_error (brief : CampaignBrief.t) (e : exn) :
  CampaignBrief.validate brief = inl e ->
  exists msg, e = ValueError msg /\ msg ∈ validation_messages.
Proof.
  unfold CampaignBrief.validate.
  repeat (destruct (decide _);
    [intros E; injection E as <-; eexists; split; [reflexivity|];
     unfold validation_messages; rewrite !elem_of_cons; tauto|]).
  pose proof (validate_products_error (CampaignBrief.products brief)) as Hp.
  destruct (CampaignBrief.validate_products (CampaignBrief.products brief))
    as [e' | []]; cbn.
  { intros E. injection E as <-. apply Hp. reflexivity. }
  destruct (CampaignBrief.localization brief) as [loc |]; [|discriminate].
  unfold Localization.validate. destruct (decide _); [|discriminate].
  intros E. injection E as <-. eexists. split; [reflexivity|].
  unfold validation_messages. rewrite !elem_of_cons. tauto.
Qed.

(** X22. A brief passes [validate] exactly when its identifier, region,
    audience and message are not empty, it has at least one product, every
    product has an identifier and a name, and its localization, if any,
    names a language; otherwise [validate] raises a [ValueError] with one
    of eight fixed messages. [_validate_brief] never raises and answers
    whether the brief is valid: its own test for an empty product list
    never decides. *)
Theorem brief_validation (brief : CampaignBrief.t) :
  (CampaignBrief.validate brief = inr () <-> valid_brief brief) /\
  (forall e, CampaignBrief.validate brief = inl e ->
     exists msg, e = ValueError msg /\ msg ∈ validation_messages) /\
  (exists answer,
     Orchestrator._validate_brief brief = inr answer /\
     (answer = true <-> valid_brief brief)).
Proof.
  split; [apply brief_validate_ok|]. split; [apply brief_validate_error|].
  unfold Orchestrator._validate_brief.
  destruct (CampaignBrief.validate brief) as [e | []] eqn:E.
  - destruct (brief_validate_error brief e E) as (msg & -> & _).
    exists false. split; [reflexivity|]. split; [discriminate|].
    intros Hv. apply brief_validate_ok in Hv. congruence.
  - pose proof (proj1 (brief_validate_ok brief) E) as Hv.
    exists true. split; [|tauto].
    destruct Hv as (_ & Hne & _).
    destruct (CampaignBrief.products brief); [contradiction|].
    reflexivity.
Qed.

(** X23. The text overlaid for a valid brief is never empty: the
    localized message replaces the campaign message only when it is
    present and not empty, and a valid brief has a campaign message. *)
Theorem overlay_message_not_empty (brief : CampaignBrief.t) :
  CampaignBrief.validate brief = inr () ->
  Orchestrator.overlay_message brief <> "" /\
  (forall loc message,
     CampaignBrief.localization brief = Some loc ->
     Localization.region_specific_message loc = Some message ->
     message <> "" -> Orchestrator.overlay_message brief = message) /\
  ((forall loc message,
      CampaignBrief.localization brief = Some loc ->
      Localization.region_specific_message loc = Some message ->
      message = "") ->
   Orchestrator.overlay_message brief = CampaignBrief.campaign_message brief).
Proof.
  intros Hv. apply brief_validate_ok in Hv as (_ & _ & _ & _ & Hm & _).
  unfold Orchestrator.overlay_message.
  destruct (CampaignBrief.localization brief) as [loc |]; cycle 1.
  { split; [exact Hm|]. split; [discriminate | reflexivity]. }
  destruct (Localization.region_specific_message loc) as [message |] eqn:Er;
    cycle 1.
  { split; [exact Hm|]. split; [|reflexivity].
    intros loc' message' E1 E2. injection E1 as <-. congruence. }
  destruct (decide (message = "")) as [-> | Hne].
  - split; [exact Hm|]. split; [|reflexivity].
    intros loc' message' E1 E2 Hne'. injection E1 as <-. congruence.
  - split; [exact Hne|]. split.
    + intros loc' message' E1 E2 _. injection E1 as <-. congruence.
    + intros Hall. destruct Hne. apply (Hall loc message); auto.
Qed.

Lemma overlay_message_not_empty_witness :
  Orchestrator.overlay_message sample_brief <> "" /\
  (forall loc message,
     CampaignBrief.localization sample_brief = Some loc ->
     Localization.region_specific_message loc = Some message ->
     message <> "" -> Orchestrator.overlay_message sample_brief = message) /\
  ((forall loc message,
      CampaignBrief.localization sample_brief = Some loc ->
      Localization.region_specific_message loc = Some message ->
      message = "") ->
   Orchestrator.overlay_message sample_brief =
     CampaignBrief.campaign_message sample_brief).
Proof. apply (overlay_message_not_empty sample_brief). reflexivity. Defined.

Section Compliance.
Context `{Vision} `{Colors.Clustering} `{Unicode}.

Lemma brand_passed (fs : filesystem) (brand_config cfg' : BrandConfig)
    (img : image) (res : ComplianceResult) :
  check_brand_compliance fs brand_config img = inr (res, cfg') ->
  passed res = bool_decide (violations res = []).
Proof.
  unfold check_brand_compliance.
  destruct (_detect_logo fs brand_config img) as [e | [d cfg'']];
    [discriminate|].
  cbn. destruct (brand_colors cfg'') as [| c cs].
  - destruct (path_set cfg''), d; cbn;
      intros E; injection E as <- <-; reflexivity.
  - destruct (Colors._analyze_colors img) as [e | colors_present];
      [destruct (path_set cfg''), d; discriminate|].
    cbn.
    destruct (Colors.any_color_match colors_present (c :: cs))
      as [e | found];
      [destruct (path_set cfg''), d; discriminate|].
    cbn. destruct (path_set cfg''), d, found; cbn;
      intros E; injection E as <- <-; reflexivity.
Qed.

(** X24. The compliance status the orchestrator records for an asset
    joins both checks: it passes when the brand check and the legal check
    pass, its violations are those of the brand check followed by those of
    the legal check, and it passes exactly when it lists no violation. Its
    details are those of the brand check alone. When the brand check
    raises, no status is recorded. *)
Theorem combined_compliance_status (fs : filesystem)
    (checker : Orchestrator.ComplianceChecker) (final_image : image)
    (campaign_message : string) :
  let legal :=
    check_legal_compliance (Orchestrator.legal_config checker)
                           campaign_message in
  let status :=
    (Orchestrator.compliance_step fs (Some checker) final_image
                                  campaign_message).1 in
  match check_brand_compliance fs (Orchestrator.brand_config checker)
                               final_image with
  | inl _ => status = None
  | inr (brand, _) =>
      exists res,
        status = Some res /\
        passed res = passed brand && passed legal /\
        violations res = (violations brand ++ violations legal)%list /\
        details res = details brand /\
        passed res = bool_decide (violations res = [])
  end.
Proof.
  intros legal status. unfold status, Orchestrator.compliance_step.
  destruct (check_brand_compliance fs (Orchestrator.brand_config checker)
                                   final_image) as [e | [brand cfg']] eqn:E;
    [reflexivity|].
  pose proof (brand_passed _ _ _ _ _ E) as Hb.
  pose proof (legal_passed (Orchestrator.legal_config checker)
                           campaign_message) as Hl.
  cbn. fold legal in Hl |- *.
  destruct (passed legal) eqn:Ep.
  - symmetry in Hl. apply bool_decide_eq_true in Hl.
    exists brand. rewrite Hl, app_nil_r, andb_true_r. auto.
  - symmetry in Hl. apply bool_decide_eq_false in Hl.
    eexists. split; [reflexivity|]. cbn. rewrite andb_false_r.
    repeat split. symmetry. apply bool_decide_eq_false.
    intros Happ. apply app_eq_nil in Happ as [_ Hnil]. contradiction.
Qed.

End Compliance.

Lemma replace_colon_idem (s : string) :
  replace_colon (replace_colon s) =
  replace_colon s.
Proof.
  induction s as [| c s IH]; [reflexivity|].
  cbn. rewrite IH. destruct (decide (c = ":"%char)); [reflexivity|].
  rewrite decide_False by assumption. reflexivity.
Qed.

Lemma append_length (s t : string) :
  String.length (s +:+ t) = (String.length s + String.length t)%nat.
Proof.
  induction s as [| c s IH]; [reflexivity|].
  rewrite append_cons. cbn. rewrite IH. reflexivity.
Qed.

Lemma append_inv_tail (s t u : string) : s +:+ u = t +:+ u -> s = t.
Proof.
  revert t. induction s as [| c s IH]; intros t E.
  - destruct t as [| d t]; [reflexivity|].
    apply (f_equal String.length) in E.
    rewrite append_nil_l, append_cons in E. cbn in E.
    rewrite append_length in E. lia.
  - destruct t as [| d t].
    + apply (f_equal String.length) in E.
      rewrite append_nil_l, append_cons in E. cbn in E.
      rewrite append_length in E. lia.
    + rewrite !append_cons in E. injection E as -> E.
      f_equal. apply IH, E.
Qed.

(** X25. The file name of an asset depends on the ratio name through its
    normal form only, lower case with [x] for [:], so that the replacement
    the orchestrator applies beforehand changes nothing, and two ratio
    names share a file name for a product exactly when they have the same
    normal form. The three supported names give three file names. *)
Theorem asset_file_names `{Unicode} (product_id : string) :
  (forall ratio,
     AssetManager._generate_filename product_id
       (replace_colon ratio) =
     AssetManager._generate_filename product_id ratio) /\
  (forall ratio1 ratio2,
     AssetManager._generate_filename product_id ratio1 =
     AssetManager._generate_filename product_id ratio2 <->
     lower (replace_colon ratio1) =
     lower (replace_colon ratio2)) /\
  AssetManager._generate_filename product_id <$> ["1:1"; "9:16"; "16:9"] =
    ["1x1_" +:+ product_id +:+ ".png";
     "9x16_" +:+ product_id +:+ ".png";
     "16x9_" +:+ product_id +:+ ".png"].
Proof.
  split; [|split].
  - intros ratio. unfold AssetManager._generate_filename.
    rewrite replace_colon_idem. reflexivity.
  - intros ratio1 ratio2. unfold AssetManager._generate_filename. split.
    + intros E. rewrite <- !append_assoc in E.
      do 3 apply append_inv_tail in E. exact E.
    + intros ->. reflexivity.
  - reflexivity.
Qed.
